(** * BendPrep: the STL-to-SVG centerline pipeline of [utils/stl_processor.py]

    A shallow embedding of the five stages of [stl_to_svg_wire]
    (facet sampling, pairwise line intersection, deduplication and
    ordering, spline smoothing, Bezier emission) and the properties
    stated about them.

    Numbers.  The program computes with NumPy [float64].  The code is
    embedded once, over an interface [Arith] of the arithmetic it uses,
    and read at two instances:
    - [binary64]: IEEE 754 double precision as specified by the standard
      library's [SpecFloat] (round to nearest even, signed zeros,
      infinities, NaN).  Everything that depends on how floating point
      behaves (division by zero, NaN comparisons, signed zeros) is
      proved at this instance.
    - [exact_rationals]: the rationals, where no operation rounds.
    What a property needs from the arithmetic is stated as a class of
    laws, [SortLaws] and [OrderedArith], which both instances satisfy;
    for [binary64] this rests on the monotonicity of rounding to
    nearest, proved here from the definitions of [SpecFloat].

    What lies outside the program is a parameter: the random draw, the
    number of processors, [principal_axes], and the FITPACK routines
    behind [splprep] and [splev].

    Exceptions are values: a function that can raise returns
    [result A], an exception carrying the name of its Python class. *)

From Stdlib Require Import String ZArith List Bool Lia Arith.
From Stdlib Require Import Floats.SpecFloat.
From Stdlib Require Import QArith.
From Stdlib Require Import Qround.
From Stdlib Require Import Qabs.
From Stdlib Require Import Permutation.
From Stdlib Require Import Sorted.
Import ListNotations.
Close Scope Q_scope.

Set Implicit Arguments.

(* ------------------------------------------------------------------ *)
(** ** Exceptions *)

Inductive exn : Type := Raise (cls : string).

Definition exn_class (e : exn) : string := let 'Raise c := e in c.

Definition result (A : Type) : Type := (exn + A)%type.

Definition ok {A} (a : A) : result A := inr a.
Definition raise {A} (cls : string) : result A := inl (Raise cls).

Definition bind {A B} (r : result A) (k : A -> result B) : result B :=
  match r with
  | inl e => inl e
  | inr a => k a
  end.

Notation "x <- r ;; k" := (bind r (fun x => k))
  (at level 61, r at next level, right associativity).

Definition ValueError : string := "ValueError".
Definition TypeError : string := "TypeError".
Definition IndexError : string := "IndexError".

(** [fails_with cls r]: the call raised an exception of class [cls]. *)
Definition fails_with {A} (cls : string) (r : result A) : Prop :=
  exists e, r = inl e /\ exn_class e = cls.

(* ------------------------------------------------------------------ *)
(** ** The arithmetic interface *)

Class Arith (F : Type) : Type := {
  f_add : F -> F -> F;
  f_sub : F -> F -> F;
  f_mul : F -> F -> F;
  f_div : F -> F -> F;
  f_fma : F -> F -> F -> F;   (* x * y + z, rounded once *)
  f_sqrt : F -> F;
  f_abs : F -> F;
  f_rint : F -> F;            (* np.rint: nearest integer, ties to even *)
  f_ltb : F -> F -> bool;     (* a < b *)
  f_leb : F -> F -> bool;     (* a <= b *)
  f_eqb : F -> F -> bool;     (* a == b *)
  f_isnan : F -> bool;
  f_isfinite : F -> bool;     (* neither an infinity nor NaN *)
  f_of_Z : Z -> F             (* conversion of a Python int *)
}.

Declare Scope fl_scope.
Delimit Scope fl_scope with fl.
Infix "+" := f_add : fl_scope.
Infix "-" := f_sub : fl_scope.
Infix "*" := f_mul : fl_scope.
Infix "/" := f_div : fl_scope.
Infix "<?" := f_ltb : fl_scope.
Infix "<=?" := f_leb : fl_scope.
Infix "==?" := f_eqb (at level 70) : fl_scope.

(** [a > b] is [b < a]; [a != b] is the negation of [a == b]. *)
Definition f_gtb {F} `{Arith F} (a b : F) : bool := f_ltb b a.
Definition f_neb {F} `{Arith F} (a b : F) : bool := negb (f_eqb a b).

(* ------------------------------------------------------------------ *)
(** ** IEEE 754 binary64 *)

Module B64.

Definition prec : Z := 53.
Definition emax : Z := 1024.

Definition float : Type := spec_float.

Definition add : float -> float -> float := SFadd prec emax.
Definition sub : float -> float -> float := SFsub prec emax.
Definition mul : float -> float -> float := SFmul prec emax.
Definition div : float -> float -> float := SFdiv prec emax.
Definition sqrt : float -> float := SFsqrt prec emax.
Definition ltb : float -> float -> bool := SFltb.
Definition leb : float -> float -> bool := SFleb.
Definition eqb : float -> float -> bool := SFeqb.

Definition isnan (x : float) : bool :=
  match x with S754_nan => true | _ => false end.

Definition isfinite (x : float) : bool :=
  match x with S754_zero _ | S754_finite _ _ _ => true | _ => false end.

(** The fused multiply-add: [x * y + z] with one rounding.  The
    product of two finite values is kept exact and added to [z] the
    way [SFadd] adds; a product that is a zero, an infinity or NaN is
    exact as [SFmul] gives it. *)
Definition fma (x y z : float) : float :=
  match x, y, z with
  | S754_finite sx mx ex, S754_finite sy my ey, S754_finite sz mz ez =>
      let ep := (ex + ey)%Z in
      let e := Z.min ep ez in
      binary_normalize prec emax
        (cond_Zopp (xorb sx sy) (Zpos (fst (shl_align (mx * my) ep e)))
         + cond_Zopp sz (Zpos (fst (shl_align mz ez e))))%Z
        e false
  | S754_finite _ _ _, S754_finite _ _ _, S754_infinity _ => z
  | S754_finite _ _ _, S754_finite _ _ _, S754_zero _ => mul x y
  | _, _, _ => add (mul x y) z
  end.

Definition of_Z (z : Z) : float := binary_normalize prec emax z 0 false.

(** Round to the nearest integer, ties to even, keeping the sign of a
    zero result (C [rint] in the default rounding mode).  A finite
    float with a non-negative exponent is an integer already. *)
Definition rint (x : float) : float :=
  match x with
  | S754_finite s m e =>
      if (0 <=? e)%Z then x
      else
        let d := Z.pow 2 (- e) in
        let q := Z.div (Zpos m) d in
        let r := Z.modulo (Zpos m) d in
        let q' :=
          match Z.compare (2 * r) d with
          | Lt => q
          | Gt => (q + 1)%Z
          | Eq => if Z.even q then q else (q + 1)%Z
          end in
        binary_normalize prec emax (if s then (- q')%Z else q') 0 s
  | _ => x
  end.

Definition opp : float -> float := SFopp.
Definition abs : float -> float := SFabs.

(** Classes of values. *)
Definition is_zero (x : float) : bool :=
  match x with S754_zero _ => true | _ => false end.

Definition zero_or_nan (x : float) : bool :=
  match x with S754_zero _ | S754_nan => true | _ => false end.

Definition nonfinite (x : float) : bool :=
  match x with S754_infinity _ | S754_nan => true | _ => false end.

Definition pinf_or_nan (x : float) : bool :=
  match x with S754_infinity false | S754_nan => true | _ => false end.

(** [|x| <= eps]. *)
Definition near_zero (eps x : float) : bool := leb (abs x) eps.

(** A key that orders all values the way NumPy's sort does: NaN last,
    the two zeros together. *)
Definition key (x : float) : Z * Z * Z :=
  match x with
  | S754_nan => (3, 0, 0)
  | S754_infinity false => (2, 0, 0)
  | S754_infinity true => (-2, 0, 0)
  | S754_zero _ => (0, 0, 0)
  | S754_finite false m e => (1, e, Z.pos m)
  | S754_finite true m e => (-1, - e, - Z.pos m)
  end%Z.

Definition key_lt (k k' : Z * Z * Z) : Prop :=
  let '(c, e, m) := k in
  let '(c', e', m') := k' in
  (c < c' \/ (c = c' /\ (e < e' \/ (e = e' /\ m < m'))))%Z.

Definition key_ltb (k k' : Z * Z * Z) : bool :=
  let '(c, e, m) := k in
  let '(c', e', m') := k' in
  ((c <? c') || ((c =? c') && ((e <? e') || ((e =? e') && (m <? m')))))%Z.

(** [==] read on keys: the same key, and not that of NaN. *)
Definition key_eqb (k k' : Z * Z * Z) : bool :=
  let '(c, e, m) := k in
  let '(c', e', m') := k' in
  (negb (c =? 3) && (c =? c') && (e =? e') && (m =? m'))%Z.


(** *** Rounding, read on integers *)

Local Open Scope Z_scope.

(** The integer chosen for [q + r / P], [0 <= r < P]: the nearest one,
    the even one of two that are as near. *)
Definition pick (q r P : Z) : Z :=
  match 2 * r ?= P with
  | Lt => q
  | Gt => q + 1
  | Eq => if Z.even q then q else q + 1
  end.

(** [m / 2^n] rounded to the nearest integer, ties to even; for
    [n < 0] the exact product [m * 2^(-n)]. *)
Definition rnd (m n : Z) : Z :=
  if n <? 0 then m * 2 ^ (- n)
  else pick (m / 2 ^ n) (m mod 2 ^ n) (2 ^ n).

(** The exponent a number of magnitude [2^(d-1) <= . < 2^d] is
    written with. *)
Definition fexp (d : Z) : Z := Z.max (d - 53) (-1074).

(** The rank of the non-negative value [m * 2^e] after rounding, in
    the increasing enumeration of the non-negative binary64 numbers
    continued past the largest one. *)
Definition rank_of (m : positive) (e : Z) : Z :=
  let E := fexp (Z.pos (digits2_pos m) + e) in
  (E + 1074) * 2 ^ 52 + rnd (Z.pos m) (E - e).

(** The rank of infinity. *)
Definition top : Z := 2047 * 2 ^ 52.

(** The rank of a value, its sign set aside. *)
Definition rank (x : float) : Z :=
  match x with
  | S754_zero _ => 0
  | S754_finite _ m e => (e + 1074) * 2 ^ 52 + Z.pos m
  | S754_infinity _ => top
  | S754_nan => top + 1
  end.

(** A value written the way the format writes it. *)
Definition valid (x : float) : bool := valid_binary prec emax x.

(** A valid value other than NaN. *)
Definition number (x : float) : bool := valid x && negb (isnan x).

(** A valid zero or finite value. *)
Definition finite (x : float) : bool :=
  valid x && match x with S754_zero _ | S754_finite _ _ _ => true | _ => false end.

(** The signed mantissa and the exponent of a finite value. *)
Definition mant (x : float) : Z :=
  match x with
  | S754_finite s m _ => cond_Zopp s (Z.pos m)
  | _ => 0
  end.

Definition expo (x : float) : Z :=
  match x with
  | S754_finite _ _ e => e
  | _ => 0
  end.

(** [m * 2^e] written with the smaller exponent [e0]. *)
Definition sc (m e e0 : Z) : Z := m * 2 ^ (e - e0).

(** [m1 * 2^e1 <= m2 * 2^e2]. *)
Definition dle (m1 e1 m2 e2 : Z) : Prop :=
  sc m1 e1 (Z.min e1 e2) <= sc m2 e2 (Z.min e1 e2).

(** The rank of the rounding of [m * 2^e >= 0]. *)
Definition vrank (m e : Z) : Z :=
  match m with
  | Z.pos p => Z.min (rank_of p e) top
  | _ => 0
  end.

(** The sign a value carries. *)
Definition signed (s : bool) (x : float) : Prop :=
  match x with
  | S754_zero s' | S754_infinity s' | S754_finite s' _ _ => s' = s
  | S754_nan => False
  end.

(** Not below zero. *)
Definition nonneg (x : float) : Prop := leb (S754_zero false) x = true.

End B64.

#[export] Instance binary64 : Arith B64.float := {
  f_add := B64.add;
  f_sub := B64.sub;
  f_mul := B64.mul;
  f_div := B64.div;
  f_fma := B64.fma;
  f_sqrt := B64.sqrt;
  f_abs := B64.abs;
  f_rint := B64.rint;
  f_ltb := B64.ltb;
  f_leb := B64.leb;
  f_eqb := B64.eqb;
  f_isnan := B64.isnan;
  f_isfinite := B64.isfinite;
  f_of_Z := B64.of_Z
}.

(** Decimal constants: the double nearest to [n / d]. *)
Definition dec (n d : Z) : B64.float := B64.div (B64.of_Z n) (B64.of_Z d).

(* ------------------------------------------------------------------ *)
(** ** Exact rational arithmetic *)

Module Rat.

(** The nearest integer, ties to even. *)
Definition round_half_even (q : Q) : Z :=
  let f := Qfloor q in
  match Qcompare (2 * (q - inject_Z f)) 1 with
  | Lt => f
  | Gt => (f + 1)%Z
  | Eq => if Z.even f then f else (f + 1)%Z
  end.

Definition rint (q : Q) : Q := inject_Z (round_half_even q).

Definition ltb (a b : Q) : bool := negb (Qle_bool b a).

(** The rationals have no exact square root; the integer square root
    of the integer part stands for it. *)
Definition sqrt (q : Q) : Q := inject_Z (Z.sqrt (Qfloor q)).

End Rat.

#[export] Instance exact_rationals : Arith Q := {
  f_add := Qplus;
  f_sub := Qminus;
  f_mul := Qmult;
  f_div := Qdiv;
  f_fma := fun x y z => Qplus (Qmult x y) z;
  f_sqrt := Rat.sqrt;
  f_abs := Qabs;
  f_rint := Rat.rint;
  f_ltb := Rat.ltb;
  f_leb := Qle_bool;
  f_eqb := Qeq_bool;
  f_isnan := fun _ => false;
  f_isfinite := fun _ => true;
  f_of_Z := inject_Z
}.

(* ------------------------------------------------------------------ *)
(** ** Three-component vectors (rows of an [(n, 3)] array) *)

Record vec3 (F : Type) : Type := V3 { vx : F; vy : F; vz : F }.
Arguments V3 {F} _ _ _.
Arguments vx {F} _.
Arguments vy {F} _.
Arguments vz {F} _.

Section Vectors.
Context {F : Type} `{Arith F}.
Local Open Scope fl_scope.

Definition vmap (f : F -> F) (a : vec3 F) : vec3 F :=
  V3 (f (vx a)) (f (vy a)) (f (vz a)).

Definition vzip (f : F -> F -> F) (a b : vec3 F) : vec3 F :=
  V3 (f (vx a) (vx b)) (f (vy a) (vy b)) (f (vz a) (vz b)).

Definition vadd : vec3 F -> vec3 F -> vec3 F := vzip f_add.
Definition vsub : vec3 F -> vec3 F -> vec3 F := vzip f_sub.

(** [t * v] and [v / t] with a scalar [t]. *)
Definition vscale (t : F) (v : vec3 F) : vec3 F := vmap (f_mul t) v.
Definition vdivs (v : vec3 F) (t : F) : vec3 F := vmap (fun c => c / t) v.

(** [np.cross] on 3-vectors. *)
Definition cross (a b : vec3 F) : vec3 F :=
  V3 (vy a * vz b - vz a * vy b)
     (vz a * vx b - vx a * vz b)
     (vx a * vy b - vy a * vx b).

(** [np.dot] on two 1-D arrays of three numbers.  NumPy hands them
    to BLAS and adds what it returns to [0.]; the BLAS loop
    [dot += y[i] * x[i]], started at [0.0], is compiled to fused
    multiply-adds, so each product enters the sum unrounded. *)
Definition dot (a b : vec3 F) : F :=
  f_of_Z 0
  + f_fma (vz a) (vz b)
      (f_fma (vy a) (vy b) (f_fma (vx a) (vx b) (f_of_Z 0))).

(** [np.linalg.norm] on a 1-D array: the square root of [x.dot(x)]. *)
Definition norm (a : vec3 F) : F := f_sqrt (dot a a).

(** One entry of [np.linalg.norm(a, axis=1)]: the squares are taken
    one by one and summed by [np.add.reduce], each step rounded. *)
Definition row_norm (a : vec3 F) : F :=
  f_sqrt (vx a * vx a + vy a * vy a + vz a * vz a).

(** [closest_point_between_lines(p1, v1, p2, v2)]: the midpoint of the
    closest points of the two lines and their separation.  There is
    no test on the two denominators. *)
Definition closest_point_between_lines (p1 v1 p2 v2 : vec3 F)
  : vec3 F * F :=
  let n := cross v1 v2 in
  let n1 := cross v1 n in
  let n2 := cross v2 n in
  let c1 := vadd p1 (vscale (dot (vsub p2 p1) n2 / dot v1 n2) v1) in
  let c2 := vadd p2 (vscale (dot (vsub p1 p2) n1 / dot v2 n1) v2) in
  (vdivs (vadd c1 c2) (f_of_Z 2), norm (vsub c1 c2)).

(** The two denominators of [closest_point_between_lines]. *)
Definition denom1 (v1 v2 : vec3 F) : F := dot v1 (cross v2 (cross v1 v2)).
Definition denom2 (v1 v2 : vec3 F) : F := dot v2 (cross v1 (cross v1 v2)).

(** The body of the inner loop of [process_chunk] for one pair of
    facets: [None] when the pair is pruned ([continue]) or its
    separation is not below [max_distance], otherwise the point
    appended to [local_center_points]. *)
Definition pair_candidate (max_distance : F) (p1 v1 p2 v2 : vec3 F)
  : option (vec3 F) :=
  if f_gtb (norm (vsub p1 p2)) (max_distance * f_of_Z 10) then None
  else
    let '(intersection_point, distance) :=
      closest_point_between_lines p1 v1 p2 v2 in
    if distance <? max_distance then Some intersection_point else None.

End Vectors.


(* ------------------------------------------------------------------ *)
(** ** Classes of binary64 vectors *)

Definition vopp (v : vec3 B64.float) : vec3 B64.float := vmap B64.opp v.

(** A vector with only zeros and NaNs. *)
Definition vzero_or_nan (v : vec3 B64.float) : bool :=
  B64.zero_or_nan (vx v) && B64.zero_or_nan (vy v) && B64.zero_or_nan (vz v).

(** A vector all of whose components are infinite or NaN. *)
Definition vnonfinite (v : vec3 B64.float) : bool :=
  B64.nonfinite (vx v) && B64.nonfinite (vy v) && B64.nonfinite (vz v).

(* ------------------------------------------------------------------ *)
(** ** Python lists, ranges and loops *)

(** [l[i]] for a non-negative index: [IndexError] out of range. *)
Definition getitem {A} (l : list A) (i : nat) : result A :=
  match nth_error l i with
  | Some a => ok a
  | None => raise IndexError
  end.

(** [range(start, stop)]. *)
Definition py_range (start stop : nat) : list nat := seq start (stop - start).

(** [range(start, stop, step)] for non-negative arguments:
    [ValueError] when [step] is zero. *)
Definition py_range_step (start stop step : nat) : result (list nat) :=
  if (step =? 0)%nat then raise ValueError
  else ok (map (fun k => (start + k * step)%nat)
               (seq 0 ((stop - start + step - 1) / step))).

(** A [for] loop threading the loop state; an exception in the body
    leaves the loop. *)
Fixpoint for_each {A S} (xs : list A) (body : A -> S -> result S) (s : S)
  : result S :=
  match xs with
  | [] => ok s
  | x :: xs' => s' <- body x s ;; for_each xs' body s'
  end.

(** A list comprehension / [map] whose function can raise. *)
Fixpoint map_result {A B} (f : A -> result B) (xs : list A)
  : result (list B) :=
  match xs with
  | [] => ok []
  | x :: xs' => y <- f x ;; ys <- map_result f xs' ;; ok (y :: ys)
  end.

(** Stable insertion sort by a strict comparison [lt]; stands for the
    NumPy sorts, which agree with it whenever elements that compare
    equal are identical. *)
Section Sorting.
Context {A : Type}.
Variable lt : A -> A -> bool.

Fixpoint insert_sorted (x : A) (l : list A) : list A :=
  match l with
  | [] => [x]
  | y :: l' => if lt x y then x :: l else y :: insert_sorted x l'
  end.

Definition sort_by (l : list A) : list A :=
  fold_left (fun acc x => insert_sorted x acc) l [].

(** [a] may stand before [b] in a sorted array. *)
Definition before (a b : A) : Prop := lt b a = false.

(** The mask [aux[1:] != aux[:-1]] of [np.unique]: an element is kept
    when it differs ([ne]) from the one just before it in the sorted
    array. *)
Variable ne : A -> A -> bool.

Fixpoint drop_repeats (prev : A) (l : list A) : list A :=
  match l with
  | [] => []
  | r :: l' =>
      if ne r prev then r :: drop_repeats r l' else drop_repeats r l'
  end.

(** [np.unique]: sort, then keep the first of each run. *)
Definition unique_by (a : list A) : list A :=
  match sort_by a with
  | [] => []
  | r :: l => r :: drop_repeats r l
  end.

(** Each element differs from the one before it. *)
Fixpoint all_differ (prev : A) (l : list A) : Prop :=
  match l with
  | [] => True
  | r :: l' => ne r prev = true /\ all_differ r l'
  end.
End Sorting.

(* ------------------------------------------------------------------ *)
(** ** Stage 2: the pairwise intersection search *)

Section Search.
Context {F : Type} `{Arith F}.
Local Open Scope fl_scope.

(** [process_chunk((chunk, all_centroids, all_normals, max_distance))]:
    the loop state is [local_center_points]. *)
Definition process_chunk (chunk : list nat)
    (all_centroids all_normals : list (vec3 F)) (max_distance : F)
  : result (list (vec3 F)) :=
  for_each chunk (fun i local_center_points =>
    p1 <- getitem all_centroids i ;;
    v1 <- getitem all_normals i ;;
    for_each (py_range (i + 1) (length all_centroids))
      (fun j local_center_points =>
         p2 <- getitem all_centroids j ;;
         v2 <- getitem all_normals j ;;
         ok (match pair_candidate max_distance p1 v1 p2 v2 with
             | Some intersection_point =>
                 local_center_points ++ [intersection_point]
             | None => local_center_points
             end))
      local_center_points) [].

(** The static partition of the outer index range:
    [chunk_size = n // num_processes] and
    [[range(i, min(i + chunk_size, n)) for i in range(0, n, chunk_size)]]. *)
Definition make_chunks (n num_processes : nat) : result (list (list nat)) :=
  if (num_processes =? 0)%nat then raise "ZeroDivisionError"
  else
    let chunk_size := (n / num_processes)%nat in
    starts <- py_range_step 0 n chunk_size ;;
    ok (map (fun i => py_range i (Nat.min (i + chunk_size) n)) starts).

(** [pool.map(process_chunk, ...)]: one result per chunk, in chunk
    order; an exception in a worker is raised in the caller. *)
Definition pool_map (chunks : list (list nat))
    (facet_centroids facet_normals : list (vec3 F)) (max_distance : F)
  : result (list (list (vec3 F))) :=
  map_result
    (fun chunk => process_chunk chunk facet_centroids facet_normals max_distance)
    chunks.

(** The search of [extract_centerline] (lines 41-46): partition,
    scatter, gather. *)
Definition search (num_processes : nat)
    (facet_centroids facet_normals : list (vec3 F)) (max_distance : F)
  : result (list (list (vec3 F))) :=
  chunks <- make_chunks (length facet_centroids) num_processes ;;
  pool_map chunks facet_centroids facet_normals max_distance.

(** The pairs [(i, j)], [i < j < n], with [i] in a chunk. *)
Definition pairs_of (n : nat) (chunk : list nat) : nat :=
  list_sum (map (fun i => (n - (i + 1))%nat) chunk).

(** The candidate points produced by a run of the search. *)
Definition candidates (results : list (list (vec3 F))) : list (vec3 F) :=
  concat results.

(** [np.vstack(results)].  A worker that found nothing returns
    [np.array([])], of shape [(0,)], which [atleast_2d] turns into one
    row without columns; the other workers return [(k, 3)] arrays.
    Arrays of different widths cannot be stacked. *)
Inductive stacked : Type :=
| Rows (pts : list (vec3 F))      (* shape (k, 3) *)
| NoColumns (k : nat).            (* shape (k, 0) *)

Definition vstack (results : list (list (vec3 F))) : result stacked :=
  match results with
  | [] => raise ValueError
  | _ =>
      if forallb (fun r => match r with [] => true | _ => false end) results
      then ok (NoColumns (length results))
      else if existsb (fun r => match r with [] => true | _ => false end) results
      then raise ValueError
      else ok (Rows (concat results))
  end.

End Search.

(* ------------------------------------------------------------------ *)
(** ** Stage 3: deduplication, ordering, wire diameter *)

Section Orderer.
Context {F : Type} `{Arith F}.
Local Open Scope fl_scope.

(** [x.round(decimals=5)]: NumPy multiplies by [10**5], rounds to the
    nearest integer and divides by [10**5]. *)
Definition round5 (x : F) : F := f_rint (x * f_of_Z 100000) / f_of_Z 100000.

(** The comparison used by NumPy's sorts on floats: NaN sorts last. *)
Definition num_lt (a b : F) : bool :=
  (a <? b) || (f_isnan b && negb (f_isnan a)).

(** Rows compared field by field, as the sort of [np.unique(axis=0)]
    does. *)
Definition row_lt (a b : vec3 F) : bool :=
  if num_lt (vx a) (vx b) then true
  else if num_lt (vx b) (vx a) then false
  else if num_lt (vy a) (vy b) then true
  else if num_lt (vy b) (vy a) then false
  else num_lt (vz a) (vz b).

(** [a != b] on rows: some field differs. *)
Definition row_ne (a b : vec3 F) : bool :=
  f_neb (vx a) (vx b) || f_neb (vy a) (vy b) || f_neb (vz a) (vz b).

(** [np.unique(a, axis=0)]. *)
Definition unique_rows (a : list (vec3 F)) : list (vec3 F) :=
  unique_by row_lt row_ne a.

(** Line 50: [np.unique(center_points.round(decimals=5), axis=0)]. *)
Definition dedup (center_points : list (vec3 F)) : list (vec3 F) :=
  unique_rows (map (vmap round5) center_points).

(** [np.mean(a, axis=0)]. *)
Definition mean_rows (a : list (vec3 F)) : vec3 F :=
  match a with
  | [] => vdivs (V3 (f_of_Z 0) (f_of_Z 0) (f_of_Z 0)) (f_of_Z 0)
  | r :: rs => vdivs (fold_left vadd rs r) (f_of_Z (Z.of_nat (length a)))
  end.

(** [np.argsort(v)]. *)
Definition argsort (v : list F) : list nat :=
  map snd (sort_by (fun a b => num_lt (fst a) (fst b))
                   (combine v (seq 0 (length v)))).

(** [np.diff(a, axis=0)]. *)
Fixpoint diff_rows (a : list (vec3 F)) : list (vec3 F) :=
  match a with
  | p :: ((q :: _) as rest) => vsub q p :: diff_rows rest
  | _ => []
  end.

Definition f_nan : F := f_of_Z 0 / f_of_Z 0.

(** [np.median(v)]: NaN for an empty array or one holding a NaN. *)
Definition median (v : list F) : F :=
  let s := sort_by num_lt v in
  let n := length v in
  if (n =? 0)%nat then f_nan
  else if existsb f_isnan v then f_nan
  else if Nat.odd n then nth (n / 2) s f_nan
  else (nth (n / 2 - 1) s f_nan + nth (n / 2) s f_nan) / f_of_Z 2.

(** [trimesh.transformations.principal_axes] is not part of the
    program; it is taken as it comes. *)
Variable principal_axes : list (vec3 F) -> result (list (vec3 F)).

(** Lines 52-55: order the points along the first principal axis. *)
Definition order_points (center_points : list (vec3 F))
  : result (list (vec3 F)) :=
  pca <- principal_axes center_points ;;
  axis <- getitem pca 0 ;;
  let m := mean_rows center_points in
  let projected := map (fun p => dot (vsub p m) axis) center_points in
  let sorted_indices := argsort projected in
  map_result (getitem center_points) sorted_indices.

(** Lines 57-59: the median distance between consecutive points. *)
Definition wire_diameter_of (center_points : list (vec3 F)) : F :=
  median (map row_norm (diff_rows center_points)).

(** Lines 50-61, from the stacked candidates on. *)
Definition order_and_measure (center_points : list (vec3 F))
  : result (list (vec3 F) * F) :=
  ordered <- order_points (dedup center_points) ;;
  ok (ordered, wire_diameter_of ordered).

End Orderer.

(* ------------------------------------------------------------------ *)
(** ** Stage 1 and the whole of [extract_centerline] *)

Section Extract.
Context {F : Type} `{Arith F}.

(** The draw of the global, unseeded generator: [permutation n] is the
    permutation of [range(n)] it produces. *)
Variable permutation : nat -> list nat.

(** [np.random.choice(pop_size, size, replace=False)]. *)
Definition random_choice (pop_size : nat) (size : Z) : result (list nat) :=
  if ((Z.of_nat pop_size <=? 0) && negb (size =? 0))%Z then raise ValueError
  else if (Z.of_nat pop_size <? size)%Z then raise ValueError
  else if (size <? 0)%Z then raise ValueError
  else ok (firstn (Z.to_nat size) (permutation pop_size)).

(** Lines 33-39: the facets handed to the search. *)
Definition sample_facets (face_normals triangles_center : list (vec3 F))
    (sample_size : Z) : result (list (vec3 F) * list (vec3 F)) :=
  if (sample_size <? Z.of_nat (length triangles_center))%Z then
    indices <- random_choice (length triangles_center) sample_size ;;
    facet_normals <- map_result (getitem face_normals) indices ;;
    facet_centroids <- map_result (getitem triangles_center) indices ;;
    ok (facet_normals, facet_centroids)
  else ok (face_normals, triangles_center).

Variable cpu_count : nat.
Variable principal_axes : list (vec3 F) -> result (list (vec3 F)).

(** What NumPy and trimesh make of a stacked array without columns
    is outside the model; it is taken as it comes. *)
Variable no_columns_tail : nat -> result (list (vec3 F) * F).

Definition extract_centerline (face_normals triangles_center : list (vec3 F))
    (max_distance : F) (sample_size : Z) : result (list (vec3 F) * F) :=
  facets <- sample_facets face_normals triangles_center sample_size ;;
  let '(facet_normals, facet_centroids) := facets in
  results <- search cpu_count facet_centroids facet_normals max_distance ;;
  center_points <- vstack results ;;
  match center_points with
  | Rows pts => order_and_measure principal_axes pts
  | NoColumns k => no_columns_tail k
  end.

End Extract.

(* ------------------------------------------------------------------ *)
(** ** Stage 4: spline smoothing *)

Section Smoother.
Context {F : Type} `{Arith F}.
Local Open Scope fl_scope.

(** [np.linspace(start, stop, num)] with [endpoint=True]. *)
Definition linspace (start stop : F) (num : nat) : list F :=
  let div := (Z.of_nat num - 1)%Z in
  let delta := stop - start in
  let y := map (fun i => f_of_Z (Z.of_nat i)) (seq 0 num) in
  let y :=
    if (0 <? div)%Z then
      let step := delta / f_of_Z div in
      if step ==? f_of_Z 0
      then map (fun v => (v / f_of_Z div) * delta) y
      else map (fun v => v * step) y
    else map (fun v => v * delta) y in
  let y := map (fun v => v + start) y in
  if (1 <? num)%nat then removelast y ++ [stop] else y.

(** The [i]-th value of [np.linspace(start, stop, num)] before the
    last one: [i] steps of [(stop - start) / (num - 1)] from [start]
    (NumPy divides first when the step underflows to zero). *)
Definition linspace_point (start stop : F) (num i : nat) : F :=
  let div := f_of_Z (Z.of_nat num - 1) in
  let delta := (stop - start) in
  let step := (delta / div) in
  (if step ==? f_of_Z 0
   then (f_of_Z (Z.of_nat i) / div) * delta
   else f_of_Z (Z.of_nat i) * step) + start.

(** [num] parameter values evenly spaced from [start] to [stop]. *)
Definition evenly_spaced (start stop : F) (num : nat) (u : list F) : Prop :=
  length u = num
  /\ nth (num - 1)%nat u start = stop
  /\ forall i, (i < num - 1)%nat -> nth i u start = linspace_point start stop num i.

(** [x ** 2] on a NumPy float is libm's [pow(x, 2.0)].  It is not
    always the rounded product [x * x] (it can be one unit in the last
    place away), and libm computes it from [|x|]; [libm_pow2 a] is
    its value for [a = |x|]. *)
Variable libm_pow2 : F -> F.

Definition pow2 (x : F) : F := libm_pow2 (f_abs x).

(** The fitted spline ([tck]) and the two FITPACK routines behind
    SciPy's [splprep] and [splev] are not part of the program. *)
Variable tck : Type.
Variable parcur : list (vec3 F) -> F -> nat -> result tck.
Variable splev_at : tck -> F -> vec3 F.

(** [splprep(points.T, s=s, k=k)]: SciPy checks the degree and the
    number [m] of points ([m > k must hold]) before it fits. *)
Definition splprep (x : list (vec3 F)) (s : F) (k : nat) : result tck :=
  if negb ((1 <=? k)%nat && (k <=? 5)%nat) then raise TypeError
  else if (length x <=? k)%nat then raise TypeError
  else parcur x s k.

(** [np.column_stack(splev(u, tck))]: one point per parameter value. *)
Definition splev (u : list F) (t : tck) : list (vec3 F) :=
  map (splev_at t) u.

(** [fit_bezier_spline(points, max_error, wire_diameter)]. *)
Definition fit_bezier_spline (points : list (vec3 F))
    (max_error wire_diameter : F) : result (list (vec3 F) * Z) :=
  let normalized_error := max_error * wire_diameter / f_of_Z 100 in
  t <- splprep points (pow2 normalized_error) 3 ;;
  let num_points := (length points * 2)%nat in
  let smooth_points := splev (linspace (f_of_Z 0) (f_of_Z 1) num_points) t in
  ok (smooth_points, ((Z.of_nat num_points - 1) / 3)%Z).

End Smoother.

(* ------------------------------------------------------------------ *)
(** ** Stage 5: emission *)

Section Emitter.
Context {F : Type} `{Arith F}.
Local Open Scope fl_scope.

(** The commands pushed on the path; their text is written by
    [svgwrite]. *)
Inductive command : Type :=
| MoveTo (p : F * F)
| CurveTo (control1 control2 endpoint : F * F).

Record drawing : Type := Drawing {
  size_w : F;              (* declared width, in mm *)
  size_h : F;              (* declared height, in mm *)
  stroke_width : F;
  path : list command
}.

(** [np.minimum] and [np.maximum] on two floats. *)
Definition np_minimum (a b : F) : F := if (a <=? b) || f_isnan a then a else b.
Definition np_maximum (a b : F) : F := if (b <=? a) || f_isnan a then a else b.

(** [np.min(a, axis=0)] and [np.max(a, axis=0)]: [ValueError] on an
    array without rows. *)
Definition reduce_rows (op : F -> F -> F) (a : list (vec3 F))
  : result (vec3 F) :=
  match a with
  | [] => raise ValueError
  | r :: rs => ok (fold_left (vzip op) rs r)
  end.

(** Python's [max(a, b)]. *)
Definition py_max (a b : F) : F := if f_gtb b a then b else a.

Definition tenth : F := f_of_Z 1 / f_of_Z 10.
Definition half : F := f_of_Z 1 / f_of_Z 2.

(** Line 79: the scaled and padded in-plane coordinates. *)
Definition scale_point (scale min_x min_y padding : F) (p : vec3 F) : F * F :=
  (scale * (vx p - min_x) + padding, scale * (vy p - min_y) + padding).

(** Lines 83-87: the loop pushing one curve per run of three points. *)
Definition push_curves (scaled_points : list (F * F)) (d : list command)
  : result (list command) :=
  indices <- py_range_step 1 (length scaled_points) 3 ;;
  for_each indices
    (fun i d =>
       if (i + 2 <? length scaled_points)%nat then
         c1 <- getitem scaled_points i ;;
         c2 <- getitem scaled_points (i + 1) ;;
         e <- getitem scaled_points (i + 2) ;;
         ok (d ++ [CurveTo c1 c2 e])
       else ok d)
    d.

(** A size handed to [svgwrite.Drawing] as the string [f"{v}mm"]
    (line 77).  [svgwrite] checks the string when the drawing is made
    and raises [TypeError] unless it is a length; it is one unless the
    number prints as [inf], [-inf] or [nan]. *)
Definition svg_length (v : F) : result F :=
  if f_isfinite v then ok v else raise TypeError.

(** [create_svg(centerline, output_file, scale)]: the document handed
    to [svgwrite]. *)
Definition create_svg (centerline : list (vec3 F)) (scale : F)
  : result drawing :=
  mins <- reduce_rows np_minimum centerline ;;
  maxs <- reduce_rows np_maximum centerline ;;
  let min_x := vx mins in
  let min_y := vy mins in
  let max_x := vx maxs in
  let max_y := vy maxs in
  let width := (max_x - min_x) * scale in
  let height := (max_y - min_y) * scale in
  let padding := py_max width height * tenth in
  size_w <- svg_length (width + f_of_Z 2 * padding) ;;
  size_h <- svg_length (height + f_of_Z 2 * padding) ;;
  let scaled_points := map (scale_point scale min_x min_y padding) centerline in
  first <- getitem scaled_points 0 ;;
  d <- push_curves scaled_points [MoveTo first] ;;
  ok (Drawing size_w size_h (half * scale) d).

(** The coordinates a path mentions. *)
Definition command_points (c : command) : list (F * F) :=
  match c with
  | MoveTo p => [p]
  | CurveTo c1 c2 e => [c1; c2; e]
  end.

Definition path_points (d : list command) : list (F * F) :=
  flat_map command_points d.

Definition is_curve (c : command) : bool :=
  match c with CurveTo _ _ _ => true | MoveTo _ => false end.

(** The number of cubic segments of a path. *)
Definition segment_count (d : list command) : nat :=
  length (filter is_curve d).

(** The curve made of the [k]-th run of three points after the first
    point. *)
Definition curve_at (scaled_points : list (F * F)) (dflt : F * F) (k : nat)
  : command :=
  CurveTo (nth (3 * k + 1) scaled_points dflt)
          (nth (3 * k + 2) scaled_points dflt)
          (nth (3 * k + 3) scaled_points dflt).

(** The path written for [scaled_points]: a move to the first point,
    then one curve for each whole run of three points. *)
Definition path_of (scaled_points : list (F * F)) (dflt : F * F)
  : list command :=
  MoveTo (nth 0 scaled_points dflt)
  :: map (curve_at scaled_points dflt)
         (seq 0 ((length scaled_points - 1) / 3)).

(** What [create_svg] computes before it writes the path. *)
Definition padding_of (mins maxs : vec3 F) (scale : F) : F :=
  py_max ((vx maxs - vx mins) * scale) ((vy maxs - vy mins) * scale) * tenth.

Definition scaled_points_of (centerline : list (vec3 F)) (scale : F)
    (mins maxs : vec3 F) : list (F * F) :=
  map (scale_point scale (vx mins) (vy mins) (padding_of mins maxs scale))
      centerline.

(** The two sizes the drawing is declared with. *)
Definition width_of (mins maxs : vec3 F) (scale : F) : F :=
  (vx maxs - vx mins) * scale + f_of_Z 2 * padding_of mins maxs scale.

Definition height_of (mins maxs : vec3 F) (scale : F) : F :=
  (vy maxs - vy mins) * scale + f_of_Z 2 * padding_of mins maxs scale.

(** The curve and the scale give sizes that [svgwrite] accepts. *)
Definition sizes_accepted (centerline : list (vec3 F)) (scale : F) : bool :=
  match reduce_rows np_minimum centerline, reduce_rows np_maximum centerline with
  | inr mins, inr maxs =>
      f_isfinite (width_of mins maxs scale)
      && f_isfinite (height_of mins maxs scale)
  | _, _ => false
  end.

End Emitter.

Arguments command : clear implicits.
Arguments drawing : clear implicits.
Arguments MoveTo {F} _.
Arguments CurveTo {F} _ _ _.

(* ------------------------------------------------------------------ *)
(** ** The pipeline after the centerline: smoothing, then emission *)

Section Pipeline.
Context {F : Type} `{Arith F}.
Variable libm_pow2 : F -> F.
Variable tck : Type.
Variable parcur : list (vec3 F) -> F -> nat -> result tck.
Variable splev_at : tck -> F -> vec3 F.

(** Lines 97-98 of [stl_to_svg_wire]: nothing is drawn unless the fit
    returns. *)
Definition smooth_and_emit (centerline : list (vec3 F))
    (wire_diameter scale max_error : F) : result (drawing F * Z) :=
  fit <- fit_bezier_spline libm_pow2 parcur splev_at centerline max_error wire_diameter ;;
  let '(smooth_centerline, num_bezier_curves) := fit in
  dwg <- create_svg smooth_centerline scale ;;
  ok (dwg, num_bezier_curves).

End Pipeline.

(* ------------------------------------------------------------------ *)
(** ** Vocabulary for the properties of the deduplication *)

(** Comparison on a first key, then by [rest]. *)
Definition lex {A : Type} (lt1 rest : A -> A -> bool) (a b : A) : bool :=
  if lt1 a b then true else if lt1 b a then false else rest a b.

Section Rounding.
Context {F : Type} `{Arith F}.





End Rounding.

(* ------------------------------------------------------------------ *)
(** ** Laws of the arithmetic *)

(** The comparison of the sort is asymmetric and "not after" is
    transitive; [==] is symmetric and transitive. *)
Class SortLaws (F : Type) `{Arith F} : Prop := {
  num_lt_asym : forall a b : F, num_lt a b = true -> num_lt b a = false;
  num_before_trans : forall a b c : F,
    num_lt b a = false -> num_lt c b = false -> num_lt c a = false;
  f_eqb_sym : forall a b : F, f_eqb a b = true -> f_eqb b a = true;
  f_eqb_trans : forall a b c : F,
    f_eqb a b = true -> f_eqb b c = true -> f_eqb a c = true
}.
Arguments SortLaws F {_}.

(** What the bounding box of [create_svg] needs from the arithmetic.
    [fin] picks the finite values and [num] the values other than NaN
    (an infinity is one).  Of such values the order is total, and
    subtraction, addition and multiplication by a positive factor are
    monotone as far as [create_svg] uses them.  Exact arithmetic
    satisfies these laws, and so does binary64 with its rounding and
    its overflow to infinity. *)
Class OrderedArith (F : Type) `{Arith F} (fin num : F -> bool) : Prop := {
  oa_fin_num : forall a : F, fin a = true -> num a = true;
  oa_not_nan : forall a : F, num a = true -> f_isnan a = false;
  oa_le_refl : forall a : F, num a = true -> f_leb a a = true;
  oa_le_trans : forall a b c : F,
    f_leb a b = true -> f_leb b c = true -> f_leb a c = true;
  oa_le_total : forall a b : F,
    num a = true -> num b = true -> f_leb a b = false -> f_leb b a = true;
  oa_lt_le : forall a b : F, f_ltb a b = true -> f_leb a b = true;
  oa_sub_nonneg : forall a c : F,
    fin a = true -> fin c = true -> f_leb c a = true ->
    num (f_sub a c) = true /\ f_leb (f_of_Z 0) (f_sub a c) = true;
  oa_sub_mono : forall a b c : F,
    fin a = true -> fin b = true -> fin c = true ->
    f_leb c a = true -> f_leb a b = true ->
    f_leb (f_sub a c) (f_sub b c) = true;
  oa_mul_pos : forall s a : F,
    fin s = true -> f_ltb (f_of_Z 0) s = true ->
    num a = true -> f_leb (f_of_Z 0) a = true ->
    (num (f_mul s a) = true /\ f_leb (f_of_Z 0) (f_mul s a) = true)
    /\ (num (f_mul a s) = true /\ f_leb (f_of_Z 0) (f_mul a s) = true);
  oa_mul_mono : forall s a b : F,
    fin s = true -> f_ltb (f_of_Z 0) s = true ->
    num a = true -> num b = true ->
    f_leb (f_of_Z 0) a = true -> f_leb a b = true ->
    f_leb (f_mul s a) (f_mul b s) = true;
  oa_add_mono : forall a b p q : F,
    num a = true -> num b = true -> num p = true -> num q = true ->
    f_leb (f_of_Z 0) a = true -> f_leb (f_of_Z 0) p = true ->
    f_leb a b = true -> f_leb p q = true ->
    f_leb (f_add a p) (f_add b q) = true;
  oa_add_nonneg : forall a p : F,
    num a = true -> num p = true ->
    f_leb (f_of_Z 0) a = true -> f_leb (f_of_Z 0) p = true ->
    f_leb p (f_add a p) = true;
  oa_double : forall p : F,
    num p = true -> f_leb (f_of_Z 0) p = true ->
    f_leb p (f_mul (f_of_Z 2) p) = true;
  oa_two : fin (f_of_Z 2) = true /\ f_ltb (f_of_Z 0) (f_of_Z 2) = true;
  oa_tenth :
    fin (f_div (f_of_Z 1) (f_of_Z 10)) = true
    /\ f_ltb (f_of_Z 0) (f_div (f_of_Z 1) (f_of_Z 10)) = true
}.
Arguments OrderedArith F {_} fin num.

(** A curve of finite binary64 coordinates in the drawing plane. *)
Definition finite_curve (centerline : list (vec3 B64.float)) : bool :=
  forallb (fun p => B64.finite (vx p) && B64.finite (vy p)) centerline.

(** Rows of binary64 numbers read through their keys. *)
Definition row_key : Type := ((Z * Z * Z) * (Z * Z * Z) * (Z * Z * Z))%type.

Definition vkey (p : vec3 B64.float) : row_key :=
  (B64.key (vx p), B64.key (vy p), B64.key (vz p)).

Definition krow_lt : row_key -> row_key -> bool :=
  lex (fun a b => B64.key_ltb (fst (fst a)) (fst (fst b)))
      (lex (fun a b => B64.key_ltb (snd (fst a)) (snd (fst b)))
           (fun a b => B64.key_ltb (snd a) (snd b))).

Definition krow_ne (a b : row_key) : bool :=
  negb (B64.key_eqb (fst (fst a)) (fst (fst b)))
  || negb (B64.key_eqb (snd (fst a)) (snd (fst b)))
  || negb (B64.key_eqb (snd a) (snd b)).




(* ------------------------------------------------------------------ *)
(** ** Statements of the specification that the program does not meet *)

(** The degeneracy guard as the specification words it: a pair whose
    denominator [v1.n2] or [v2.n1] is within [eps] of zero contributes
    no candidate. *)
Definition spec_degeneracy_guard (eps : B64.float) : Prop :=
  forall (max_distance : B64.float) (p1 v1 p2 v2 : vec3 B64.float),
    B64.near_zero eps (denom1 v1 v2) = true
    \/ B64.near_zero eps (denom2 v1 v2) = true ->
    pair_candidate max_distance p1 v1 p2 v2 = None.


(* ------------------------------------------------------------------ *)
(** ** Examples *)

(** Two facets one unit apart whose normals differ by [2^-30] in one
    component. *)
Module NearParallel.
Definition eps : B64.float := B64.div (B64.of_Z 1) (B64.of_Z (10 ^ 12)).
Definition tilt : B64.float := B64.div (B64.of_Z 1) (B64.of_Z (2 ^ 30)).
Definition p1 : vec3 B64.float := V3 (B64.of_Z 0) (B64.of_Z 0) (B64.of_Z 0).
Definition v1 : vec3 B64.float := V3 (B64.of_Z 1) (B64.of_Z 0) (B64.of_Z 0).
Definition p2 : vec3 B64.float := V3 (B64.of_Z 0) (B64.of_Z (-1)) (B64.of_Z 0).
Definition v2 : vec3 B64.float := V3 (B64.of_Z 1) tilt (B64.of_Z 0).
Definition max_distance : B64.float := B64.of_Z 1.
End NearParallel.

(** A stand-in for FITPACK, to run the smoothing stage on examples: a
    fit that always succeeds and a spline that runs along the
    diagonal. *)
Module Toy.
Definition tck : Type := unit.
Definition parcur (x : list (vec3 B64.float)) (s : B64.float) (k : nat)
  : result tck := ok tt.
Definition splev_at (t : tck) (u : B64.float) : vec3 B64.float := V3 u u u.
Definition libm_pow2 (a : B64.float) : B64.float := B64.mul a a.
Definition point (x : Z) : vec3 B64.float :=
  V3 (B64.of_Z x) (B64.of_Z (x * x)) (B64.of_Z 0).
Definition five : B64.float := B64.of_Z 5.
Definition one : B64.float := B64.of_Z 1.
End Toy.

(** The draw that leaves the facets in their order. *)
Definition identity_draw (n : nat) : list nat := seq 0 n.

(** Two candidate points that round to [(-0.0, 0, 0)] and
    [(+0.0, 0, 0)]. *)
Module SignedZeros.
Definition p : vec3 B64.float := V3 (dec (-1) 10000000) (B64.of_Z 0) (B64.of_Z 0).
Definition q : vec3 B64.float := V3 (dec 1 10000000) (B64.of_Z 0) (B64.of_Z 0).
End SignedZeros.

(* ------------------------------------------------------------------ *)
(** ** Vocabulary for the further properties *)

Section Scan.
Context {F : Type} `{Arith F}.

(** The points one facet contributes against the facets [later] in the
    arrays. *)
Definition scan_row (max_distance : F) (p1 v1 : vec3 F)
    (later : list (vec3 F * vec3 F)) : list (vec3 F) :=
  flat_map (fun pv =>
              match pair_candidate max_distance p1 v1 (fst pv) (snd pv) with
              | Some intersection_point => [intersection_point]
              | None => []
              end) later.

(** A sequential scan: every facet (centroid, normal) against every
    later facet, in the order of the arrays. *)
Fixpoint pair_scan (max_distance : F) (facets : list (vec3 F * vec3 F))
  : list (vec3 F) :=
  match facets with
  | [] => []
  | (p1, v1) :: later =>
      scan_row max_distance p1 v1 later ++ pair_scan max_distance later
  end.

(** What the facet of index [i] contributes. *)
Definition scan_at (max_distance : F) (facets : list (vec3 F * vec3 F))
    (i : nat) : list (vec3 F) :=
  match skipn i facets with
  | [] => []
  | (p1, v1) :: later => scan_row max_distance p1 v1 later
  end.

End Scan.

(** A binary64 value that is not below zero: NaN, a zero, or a value
    whose sign bit is clear. *)
Definition not_negative (x : B64.float) : bool :=
  match x with
  | S754_zero _ | S754_nan | S754_finite false _ _ | S754_infinity false => true
  | _ => false
  end.

(* ------------------------------------------------------------------ *)
(** ** The whole conversion *)

Section Whole.
Context {F : Type} `{Arith F}.
Local Open Scope fl_scope.

(** What the program reads of the mesh that [trimesh.load_mesh]
    returns. *)
Record mesh : Type := Mesh {
  face_normals : list (vec3 F);
  triangles_center : list (vec3 F);
  extents : vec3 F           (* mesh.bounding_box.extents *)
}.

Definition hundredth : F := f_of_Z 1 / f_of_Z 100.

Variable permutation : nat -> list nat.
Variable cpu_count : nat.
Variable principal_axes : list (vec3 F) -> result (list (vec3 F)).
Variable no_columns_tail : nat -> result (list (vec3 F) * F).
Variable libm_pow2 : F -> F.
Variable tck : Type.
Variable parcur : list (vec3 F) -> F -> nat -> result tck.
Variable splev_at : tck -> F -> vec3 F.

(** [stl_to_svg_wire], from the loaded mesh on: the drawing that is
    saved and the two numbers that are printed. *)
Definition stl_to_svg_wire (m : mesh) (scale max_error : F) (sample_size : Z)
  : result (drawing F * F * Z) :=
  let max_distance := norm (extents m) * hundredth in
  extracted <- extract_centerline permutation cpu_count principal_axes
                 no_columns_tail (face_normals m) (triangles_center m)
                 max_distance sample_size ;;
  let '(centerline, wire_diameter) := extracted in
  fit <- fit_bezier_spline libm_pow2 parcur splev_at centerline max_error wire_diameter ;;
  let '(smooth_centerline, num_bezier_curves) := fit in
  dwg <- create_svg smooth_centerline scale ;;
  ok (dwg, wire_diameter, num_bezier_curves).

End Whole.

Arguments mesh : clear implicits.

(* ================================================================== *)
(** * Properties *)

Unset Implicit Arguments.

(* ------------------------------------------------------------------ *)
(** ** Special values of binary64 through the arithmetic *)

Module B64Facts.
Import B64.

Ltac by_cases x := destruct x as [[|]|[|]| |[|] ? ?]; simpl; try reflexivity; try discriminate.

Lemma div_by_zero_or_nan x d :
  zero_or_nan d = true -> nonfinite (div x d) = true.
Proof. by_cases d; intros _; by_cases x. Qed.

Lemma mul_nonfinite_l t v : nonfinite t = true -> nonfinite (mul t v) = true.
Proof. by_cases t; intros _; by_cases v. Qed.

Lemma add_nonfinite_r x y : nonfinite y = true -> nonfinite (add x y) = true.
Proof. by_cases y; intros _; by_cases x. Qed.

Lemma sub_nonfinite_l x y : nonfinite x = true -> nonfinite (sub x y) = true.
Proof. by_cases x; intros _; by_cases y. Qed.

Lemma sub_nonfinite_r x y : nonfinite y = true -> nonfinite (sub x y) = true.
Proof. by_cases y; intros _; by_cases x. Qed.

Lemma square_nonfinite x : nonfinite x = true -> pinf_or_nan (mul x x) = true.
Proof. by_cases x. Qed.

Lemma add_pinf_or_nan a b :
  pinf_or_nan a = true -> pinf_or_nan b = true -> pinf_or_nan (add a b) = true.
Proof. by_cases a; intros _; by_cases b. Qed.

Lemma sqrt_pinf_or_nan a : pinf_or_nan a = true -> pinf_or_nan (sqrt a) = true.
Proof. by_cases a. Qed.

Lemma ltb_pinf_or_nan d m : pinf_or_nan d = true -> ltb d m = false.
Proof. by_cases d; intros _; by_cases m. Qed.

Lemma fma_zero_or_nan a b c :
  zero_or_nan b = true -> zero_or_nan c = true ->
  zero_or_nan (fma a b c) = true.
Proof. by_cases b; intros _; by_cases c; intros _; by_cases a. Qed.

(** The fused accumulation of a square of an infinity or a NaN. *)
Lemma fma_square_nonfinite x c :
  nonfinite x = true -> zero_or_nan c = true \/ pinf_or_nan c = true ->
  pinf_or_nan (fma x x c) = true.
Proof.
  by_cases x; intros _ [Hc | Hc]; revert Hc; by_cases c.
Qed.

Lemma zero_add_zero_or_nan a :
  zero_or_nan a = true -> zero_or_nan (add (of_Z 0) a) = true.
Proof. by_cases a. Qed.

Lemma zero_add_pinf_or_nan a :
  pinf_or_nan a = true -> pinf_or_nan (add (of_Z 0) a) = true.
Proof. by_cases a. Qed.

End B64Facts.

(* ------------------------------------------------------------------ *)
(** ** C1: degenerate pairs in the pairwise search *)

Module DegeneratePairs.
Import B64 B64Facts.

Lemma mul_comm x y : mul x y = mul y x.
Proof.
  destruct x as [sx|sx| |sx mx ex], y as [sy|sy| |sy my ey]; simpl;
    try reflexivity; try (now rewrite xorb_comm).
  unfold mul; simpl.
  now rewrite xorb_comm, Pos.mul_comm, Z.add_comm.
Qed.

Lemma sub_diag x : zero_or_nan (sub x x) = true.
Proof.
  destruct x as [[|]|[|]| |s m e]; try reflexivity.
  unfold sub, SFsub. rewrite Z.sub_diag. reflexivity.
Qed.

Lemma mul_zero_or_nan_r x z : zero_or_nan z = true -> zero_or_nan (mul x z) = true.
Proof. by_cases z; intros _; by_cases x. Qed.

Lemma sub_zero_or_nan a b :
  zero_or_nan a = true -> zero_or_nan b = true -> zero_or_nan (sub a b) = true.
Proof. by_cases a; intros _; by_cases b. Qed.

Lemma add_zero_or_nan a b :
  zero_or_nan a = true -> zero_or_nan b = true -> zero_or_nan (add a b) = true.
Proof. by_cases a; intros _; by_cases b. Qed.

(** Rounding does not look at the sign. *)
Lemma round_aux_opp s m e l :
  binary_round_aux prec emax (negb s) m e l
  = opp (binary_round_aux prec emax s m e l).
Proof.
  unfold binary_round_aux.
  destruct (shr_fexp prec emax m e l) as [mrs' e'].
  destruct (shr_fexp prec emax _ e' loc_Exact) as [mrs'' e''].
  destruct (shr_m mrs''); try reflexivity.
  destruct (e'' <=? emax - prec)%Z; reflexivity.
Qed.

Lemma mul_opp_r x y : mul x (opp y) = opp (mul x y).
Proof.
  destruct x as [sx|sx| |sx mx ex], y as [sy|sy| |sy my ey]; simpl;
    try reflexivity; try (now rewrite <- negb_xorb_r).
  unfold mul; simpl. rewrite <- negb_xorb_r. apply round_aux_opp.
Qed.

Lemma mul_opp_l x y : mul (opp x) y = opp (mul x y).
Proof. rewrite mul_comm, mul_opp_r. now rewrite mul_comm. Qed.

Lemma cross_same v : vzero_or_nan (cross v v) = true.
Proof.
  unfold vzero_or_nan, cross; simpl.
  rewrite (mul_comm (vz v) (vy v)), (mul_comm (vx v) (vz v)), (mul_comm (vy v) (vx v)).
  now rewrite !sub_diag.
Qed.

Lemma cross_opposite v : vzero_or_nan (cross v (vopp v)) = true.
Proof.
  unfold vzero_or_nan, cross, vopp; simpl.
  rewrite !mul_opp_r.
  rewrite (mul_comm (vz v) (vy v)), (mul_comm (vx v) (vz v)), (mul_comm (vy v) (vx v)).
  now rewrite !sub_diag.
Qed.

Lemma cross_zero_or_nan_r a n :
  vzero_or_nan n = true -> vzero_or_nan (cross a n) = true.
Proof.
  unfold vzero_or_nan, cross; simpl. intros Hn.
  apply andb_true_iff in Hn as [Hn Hz]. apply andb_true_iff in Hn as [Hx Hy].
  rewrite !sub_zero_or_nan; auto using mul_zero_or_nan_r.
Qed.

Lemma dot_zero_or_nan_r a n :
  vzero_or_nan n = true -> zero_or_nan (dot a n) = true.
Proof.
  unfold vzero_or_nan, dot; simpl. intros Hn.
  apply andb_true_iff in Hn as [Hn Hz]. apply andb_true_iff in Hn as [Hx Hy].
  apply zero_add_zero_or_nan.
  repeat (apply fma_zero_or_nan; [assumption|]). reflexivity.
Qed.

(** Without a cross product the first denominator is a zero or NaN,
    however [np.dot] accumulates. *)
Lemma denom1_no_cross v1 v2 :
  vzero_or_nan (cross v1 v2) = true -> zero_or_nan (denom1 v1 v2) = true.
Proof.
  intros Hn. unfold denom1. now apply dot_zero_or_nan_r, cross_zero_or_nan_r.
Qed.

Lemma cross_parallel v1 v2 :
  v2 = v1 \/ v2 = vopp v1 -> vzero_or_nan (cross v1 v2) = true.
Proof. intros [-> | ->]; [apply cross_same | apply cross_opposite]. Qed.

Lemma vscale_nonfinite t v : nonfinite t = true -> vnonfinite (vscale t v) = true.
Proof.
  intros Ht. unfold vnonfinite, vscale, vmap; simpl.
  now rewrite !mul_nonfinite_l.
Qed.

Lemma vadd_nonfinite_r p w : vnonfinite w = true -> vnonfinite (vadd p w) = true.
Proof.
  unfold vnonfinite, vadd, vzip; simpl. intros Hw.
  apply andb_true_iff in Hw as [Hw Hz]. apply andb_true_iff in Hw as [Hx Hy].
  now rewrite !add_nonfinite_r.
Qed.

Lemma norm_vsub_nonfinite c1 c2 :
  vnonfinite c1 = true \/ vnonfinite c2 = true ->
  pinf_or_nan (norm (vsub c1 c2)) = true.
Proof.
  intros Hc. unfold norm, dot, vsub, vzip; simpl.
  apply sqrt_pinf_or_nan.
  assert (Hn : nonfinite (sub (vx c1) (vx c2)) = true
               /\ nonfinite (sub (vy c1) (vy c2)) = true
               /\ nonfinite (sub (vz c1) (vz c2)) = true).
  { unfold vnonfinite in Hc.
    destruct Hc as [Hc | Hc];
      apply andb_true_iff in Hc as [Hc Hz]; apply andb_true_iff in Hc as [Hx Hy];
      auto using sub_nonfinite_l, sub_nonfinite_r. }
  destruct Hn as (Hx & Hy & Hz).
  apply zero_add_pinf_or_nan.
  apply fma_square_nonfinite; [exact Hz | right].
  apply fma_square_nonfinite; [exact Hy | right].
  apply fma_square_nonfinite; [exact Hx | left; reflexivity].
Qed.

(** The separation computed by [closest_point_between_lines] is
    [+inf] or NaN as soon as one denominator is a zero or a NaN. *)
Lemma separation_not_finite p1 v1 p2 v2 :
  zero_or_nan (denom1 v1 v2) = true \/ zero_or_nan (denom2 v1 v2) = true ->
  pinf_or_nan (snd (closest_point_between_lines p1 v1 p2 v2)) = true.
Proof.
  intros Hd. unfold closest_point_between_lines; cbv zeta; cbn [snd].
  apply norm_vsub_nonfinite.
  destruct Hd as [Hd | Hd]; [left | right];
    apply vadd_nonfinite_r, vscale_nonfinite, div_by_zero_or_nan; exact Hd.
Qed.

End DegeneratePairs.

(** C1, as stated, fails: the search has no epsilon test.  With both
    denominators at [2^-60] in absolute value, far below [1e-12], the
    pair of [NearParallel] is not skipped; it contributes the point
    [(2^30, 0, 0)]. *)
Lemma C1_near_parallel_pair_contributes :
  B64.near_zero NearParallel.eps (denom1 NearParallel.v1 NearParallel.v2) = true
  /\ B64.near_zero NearParallel.eps (denom2 NearParallel.v1 NearParallel.v2) = true
  /\ pair_candidate NearParallel.max_distance
       NearParallel.p1 NearParallel.v1 NearParallel.p2 NearParallel.v2
     = Some (V3 (B64.of_Z (2 ^ 30)) (B64.of_Z 0) (B64.of_Z 0))
  /\ ~ spec_degeneracy_guard NearParallel.eps.
Proof.
  assert (H1 : B64.near_zero NearParallel.eps
                 (denom1 NearParallel.v1 NearParallel.v2) = true)
    by (vm_compute; reflexivity).
  split; [exact H1|].
  split; [vm_compute; reflexivity|].
  split; [vm_compute; reflexivity|].
  intros G.
  specialize (G NearParallel.max_distance NearParallel.p1 NearParallel.v1
                NearParallel.p2 NearParallel.v2 (or_introl H1)).
  vm_compute in G. discriminate G.
Qed.

(** C1, amended: a pair of exactly parallel normals contributes no
    candidate.  When the cross product [n] of the two normals is
    exactly zero (every component a zero, or NaN), as it is for equal
    and for opposite normals, the denominator [v1 . n2] is a zero or
    NaN, the quotient is infinite or NaN, the separation is [+inf] or
    NaN, and [distance < max_distance] is false.  Nothing is raised:
    the division is IEEE division, a total function. *)
Theorem C1_parallel_normals_contribute_nothing :
  forall (max_distance : B64.float) (p1 v1 p2 v2 : vec3 B64.float),
    v2 = v1 \/ v2 = vopp v1 \/ vzero_or_nan (cross v1 v2) = true ->
    pair_candidate max_distance p1 v1 p2 v2 = None.
Proof.
  intros md p1 v1 p2 v2 Hdeg.
  assert (Hn : vzero_or_nan (cross v1 v2) = true).
  { destruct Hdeg as [E | [E | E]]; auto using DegeneratePairs.cross_parallel. }
  pose proof (DegeneratePairs.separation_not_finite p1 v1 p2 v2
                (or_introl (DegeneratePairs.denom1_no_cross v1 v2 Hn))) as Hs.
  unfold pair_candidate.
  destruct (f_gtb _ _); [reflexivity|].
  destruct (closest_point_between_lines p1 v1 p2 v2) as [pt d]; simpl in Hs.
  change (f_ltb d md) with (B64.ltb d md).
  now rewrite (B64Facts.ltb_pinf_or_nan d md Hs).
Qed.

Lemma C1_parallel_normals_witness :
  pair_candidate (B64.of_Z 1)
    (V3 (B64.of_Z 0) (B64.of_Z 0) (B64.of_Z 0))
    (V3 (B64.of_Z 0) (B64.of_Z 0) (B64.of_Z 1))
    (V3 (B64.of_Z 1) (B64.of_Z 0) (B64.of_Z 0))
    (V3 (B64.of_Z 0) (B64.of_Z 0) (B64.of_Z 1)) = None.
Proof.
  apply C1_parallel_normals_contribute_nothing. left. reflexivity.
Defined.

(* ------------------------------------------------------------------ *)
(** ** C3: how many candidates the search can produce *)

Section SearchFacts.
Context {F : Type} `{Arith F}.
Variables (all_centroids all_normals : list (vec3 F)) (max_distance : F).

Let inner_body (p1 v1 : vec3 F) :=
  fun (j : nat) (local_center_points : list (vec3 F)) =>
    p2 <- getitem all_centroids j ;;
    v2 <- getitem all_normals j ;;
    ok (match pair_candidate max_distance p1 v1 p2 v2 with
        | Some intersection_point => local_center_points ++ [intersection_point]
        | None => local_center_points
        end).

Let outer_body :=
  fun (i : nat) (local_center_points : list (vec3 F)) =>
    p1 <- getitem all_centroids i ;;
    v1 <- getitem all_normals i ;;
    for_each (py_range (i + 1) (length all_centroids)) (inner_body p1 v1)
      local_center_points.

Lemma getitem_ok {A} (l : list A) i : i < length l -> exists a, getitem l i = inr a.
Proof.
  intros Hi. unfold getitem.
  destruct (nth_error l i) eqn:E; [eauto|].
  apply nth_error_None in E. lia.
Qed.

Lemma inner_length p1 v1 js : forall acc r,
  for_each js (inner_body p1 v1) acc = inr r ->
  length r <= length acc + length js.
Proof.
  induction js as [|j js IH]; simpl; intros acc r E.
  - inversion E; subst; lia.
  - unfold inner_body at 1 in E.
    destruct (getitem all_centroids j) as [e|p2]; [discriminate|].
    destruct (getitem all_normals j) as [e|v2]; [discriminate|].
    simpl in E. apply IH in E.
    destruct (pair_candidate max_distance p1 v1 p2 v2);
      rewrite ?length_app in E; simpl in E; lia.
Qed.

Lemma inner_nothing p1 v1 js :
  (forall q1 w1 q2 w2, pair_candidate max_distance q1 w1 q2 w2 = None) ->
  forall acc r, for_each js (inner_body p1 v1) acc = inr r -> r = acc.
Proof.
  intros Hnone. induction js as [|j js IH]; simpl; intros acc r E.
  - now inversion E.
  - unfold inner_body at 1 in E.
    destruct (getitem all_centroids j) as [e|p2]; [discriminate|].
    destruct (getitem all_normals j) as [e|v2]; [discriminate|].
    simpl in E. rewrite Hnone in E. now apply IH.
Qed.

Lemma inner_returns p1 v1 js :
  (forall j, In j js -> j < length all_centroids /\ j < length all_normals) ->
  forall acc, exists r, for_each js (inner_body p1 v1) acc = inr r.
Proof.
  induction js as [|j js IH]; simpl; intros Hjs acc; [eauto|].
  destruct (Hjs j (or_introl eq_refl)) as [Hc Hn].
  destruct (getitem_ok all_centroids j Hc) as [p2 Ep].
  destruct (getitem_ok all_normals j Hn) as [v2 Ev].
  unfold inner_body at 1. rewrite Ep, Ev. simpl.
  apply IH. auto.
Qed.

Lemma outer_length chunk : forall acc r,
  for_each chunk outer_body acc = inr r ->
  length r <= length acc + pairs_of (length all_centroids) chunk.
Proof.
  induction chunk as [|i chunk IH]; simpl; intros acc r E.
  - inversion E; subst. unfold pairs_of; simpl; lia.
  - unfold outer_body at 1 in E.
    destruct (getitem all_centroids i) as [e|p1]; [discriminate|].
    destruct (getitem all_normals i) as [e|v1]; [discriminate|].
    simpl in E.
    destruct (for_each (py_range (i + 1) (length all_centroids))
                (inner_body p1 v1) acc) as [e|acc'] eqn:Ei; [discriminate|].
    simpl in E. apply IH in E. apply inner_length in Ei.
    unfold py_range in Ei. rewrite length_seq in Ei.
    unfold pairs_of in *; simpl. lia.
Qed.

Lemma outer_nothing chunk :
  (forall q1 w1 q2 w2, pair_candidate max_distance q1 w1 q2 w2 = None) ->
  forall acc r, for_each chunk outer_body acc = inr r -> r = acc.
Proof.
  intros Hnone. induction chunk as [|i chunk IH]; simpl; intros acc r E.
  - now inversion E.
  - unfold outer_body at 1 in E.
    destruct (getitem all_centroids i) as [e|p1]; [discriminate|].
    destruct (getitem all_normals i) as [e|v1]; [discriminate|].
    simpl in E.
    destruct (for_each (py_range (i + 1) (length all_centroids))
                (inner_body p1 v1) acc) as [e|acc'] eqn:Ei; [discriminate|].
    simpl in E. apply IH in E. apply (inner_nothing _ _ _ Hnone) in Ei.
    congruence.
Qed.

Lemma outer_returns chunk :
  length all_centroids <= length all_normals ->
  (forall i, In i chunk -> i < length all_centroids) ->
  forall acc, exists r, for_each chunk outer_body acc = inr r.
Proof.
  intros Hlen. induction chunk as [|i chunk IH]; simpl; intros Hin acc; [eauto|].
  assert (Hi : i < length all_centroids) by auto.
  destruct (getitem_ok all_centroids i Hi) as [p1 Ep].
  destruct (getitem_ok all_normals i (Nat.lt_le_trans _ _ _ Hi Hlen)) as [v1 Ev].
  unfold outer_body at 1. rewrite Ep, Ev. simpl.
  destruct (inner_returns p1 v1 (py_range (i + 1) (length all_centroids)))
    with (acc := acc) as [acc' Ei].
  { intros j Hj. unfold py_range in Hj. apply in_seq in Hj. lia. }
  rewrite Ei. simpl. apply IH. auto.
Qed.

Lemma process_chunk_length chunk r :
  process_chunk chunk all_centroids all_normals max_distance = inr r ->
  length r <= pairs_of (length all_centroids) chunk.
Proof. intros E. apply outer_length in E. simpl in E. exact E. Qed.

Lemma process_chunk_nothing chunk r :
  (forall q1 w1 q2 w2, pair_candidate max_distance q1 w1 q2 w2 = None) ->
  process_chunk chunk all_centroids all_normals max_distance = inr r -> r = [].
Proof. intros Hnone E. now apply (outer_nothing _ Hnone) in E. Qed.

Lemma process_chunk_returns chunk :
  length all_centroids <= length all_normals ->
  (forall i, In i chunk -> i < length all_centroids) ->
  exists r, process_chunk chunk all_centroids all_normals max_distance = inr r.
Proof. intros Hlen Hin. now apply outer_returns. Qed.

Lemma pairs_of_app n c1 c2 : pairs_of n (c1 ++ c2) = pairs_of n c1 + pairs_of n c2.
Proof. unfold pairs_of. now rewrite map_app, list_sum_app. Qed.

Lemma pool_map_length chunks : forall results,
  pool_map chunks all_centroids all_normals max_distance = inr results ->
  length (candidates results) <= pairs_of (length all_centroids) (concat chunks).
Proof.
  unfold pool_map, candidates.
  induction chunks as [|c chunks IH]; simpl; intros results E.
  - inversion E; subst. simpl. lia.
  - destruct (process_chunk c all_centroids all_normals max_distance)
      as [e|r] eqn:Ec; [discriminate|].
    simpl in E.
    destruct (map_result _ chunks) as [e|rs]; [discriminate|].
    simpl in E. inversion E; subst. simpl.
    rewrite length_app, pairs_of_app.
    apply process_chunk_length in Ec. specialize (IH rs eq_refl). lia.
Qed.

Lemma pool_map_nothing chunks :
  (forall q1 w1 q2 w2, pair_candidate max_distance q1 w1 q2 w2 = None) ->
  forall results,
    pool_map chunks all_centroids all_normals max_distance = inr results ->
    candidates results = [].
Proof.
  intros Hnone. unfold pool_map, candidates.
  induction chunks as [|c chunks IH]; simpl; intros results E.
  - now inversion E.
  - destruct (process_chunk c all_centroids all_normals max_distance)
      as [e|r] eqn:Ec; [discriminate|].
    simpl in E.
    destruct (map_result _ chunks) as [e|rs]; [discriminate|].
    simpl in E. inversion E; subst. simpl.
    apply (process_chunk_nothing _ _ Hnone) in Ec. subst r.
    now apply IH.
Qed.

Lemma pool_map_returns chunks :
  length all_centroids <= length all_normals ->
  (forall i, In i (concat chunks) -> i < length all_centroids) ->
  exists results,
    pool_map chunks all_centroids all_normals max_distance = inr results.
Proof.
  intros Hlen. unfold pool_map.
  induction chunks as [|c chunks IH]; simpl; intros Hin; [eauto|].
  destruct (process_chunk_returns c Hlen) as [r Er].
  { intros i Hi. apply Hin, in_or_app. now left. }
  rewrite Er. simpl.
  destruct IH as [rs Ers].
  { intros i Hi. apply Hin, in_or_app. now right. }
  rewrite Ers. simpl. eauto.
Qed.

End SearchFacts.

(** The chunks cover [0 .. n-1], each index once. *)
Lemma chunks_cover (n chunk_size : nat) :
  0 < chunk_size ->
  forall k a,
    a * chunk_size <= n ->
    (k = 0 \/ (a + k - 1) * chunk_size < n) ->
    concat (map (fun i => py_range i (Nat.min (i + chunk_size) n))
                (map (fun j => j * chunk_size) (seq a k)))
    = seq (a * chunk_size) (Nat.min ((a + k) * chunk_size) n - a * chunk_size).
Proof.
  intros Hcs. induction k as [|k IH]; intros a Ha Hk.
  - simpl. replace (Nat.min ((a + 0) * chunk_size) n - a * chunk_size) with 0; [reflexivity|].
    rewrite Nat.add_0_r. lia.
  - destruct Hk as [Hk | Hk]; [discriminate|].
    cbn [seq map concat].
    destruct k as [|k'].
    + cbn [seq map concat]. rewrite app_nil_r. unfold py_range.
      replace ((a + 1) * chunk_size) with (a * chunk_size + chunk_size) by nia.
      reflexivity.
    + assert (Hlt : (a + S k') * chunk_size < n).
      { replace (a + S k') with (a + S (S k') - 1) by lia. exact Hk. }
      rewrite IH.
      * unfold py_range.
        assert (Hnext : S a * chunk_size <= (a + S k') * chunk_size)
          by (apply Nat.mul_le_mono_r; lia).
        rewrite (Nat.min_l (a * chunk_size + chunk_size) n) by (simpl in Hnext; lia).
        replace (a * chunk_size + chunk_size - a * chunk_size) with chunk_size by lia.
        replace (S a * chunk_size) with (a * chunk_size + chunk_size) by (simpl; lia).
        rewrite <- seq_app. f_equal.
        replace (S a + S k') with (a + S (S k')) by lia.
        assert ((a + S k') * chunk_size <= (a + S (S k')) * chunk_size)
          by (apply Nat.mul_le_mono_r; lia).
        lia.
      * assert (S a * chunk_size <= (a + S k') * chunk_size)
          by (apply Nat.mul_le_mono_r; lia).
        lia.
      * right. replace (S a + S k' - 1) with (a + S k') by lia. exact Hlt.
Qed.

Lemma make_chunks_cover (n num_processes : nat) chunks :
  make_chunks n num_processes = inr chunks -> concat chunks = seq 0 n.
Proof.
  unfold make_chunks, py_range_step.
  destruct (num_processes =? 0); [discriminate|].
  destruct (n / num_processes =? 0) eqn:Ecs; [discriminate|].
  apply Nat.eqb_neq in Ecs. set (cs := n / num_processes) in *.
  simpl. intros E. inversion E; subst chunks; clear E.
  rewrite Nat.sub_0_r.
  set (k := (n + cs - 1) / cs).
  assert (Hdiv : k * cs <= n + cs - 1 < k * cs + cs).
  { unfold k. pose proof (Nat.div_mod (n + cs - 1) cs Ecs) as Hd.
    pose proof (Nat.mod_upper_bound (n + cs - 1) cs Ecs). nia. }
  assert (Hcs : 0 < cs) by lia.
  assert (Ha : 0 * cs <= n) by lia.
  assert (Hk : k = 0 \/ (0 + k - 1) * cs < n).
  { destruct k; [left; reflexivity | right; simpl in *; nia]. }
  change (fun k0 : nat => 0 + k0 * cs) with (fun k0 : nat => k0 * cs).
  rewrite (@chunks_cover n cs Hcs k 0 Ha Hk).
  simpl. f_equal. lia.
Qed.

Lemma make_chunks_returns (n num_processes : nat) :
  0 < n / num_processes -> exists chunks, make_chunks n num_processes = inr chunks.
Proof.
  intros Hpos. unfold make_chunks, py_range_step.
  destruct (num_processes =? 0) eqn:Ep.
  - apply Nat.eqb_eq in Ep. subst. simpl in Hpos. lia.
  - destruct (n / num_processes =? 0) eqn:Ecs.
    + apply Nat.eqb_eq in Ecs. lia.
    + simpl. eauto.
Qed.

(** There are [n (n - 1) / 2] pairs [(i, j)] with [i < j < n]. *)
Lemma pairs_of_all (k : nat) : forall a,
  2 * pairs_of (a + k) (seq a k) = k * (k - 1).
Proof.
  unfold pairs_of. induction k as [|k IH]; intros a; [reflexivity|].
  cbn [seq map list_sum].
  replace (a + S k) with (S a + k) by lia.
  specialize (IH (S a)).
  replace (S a + k - (a + 1)) with k by lia.
  destruct k; simpl in *; nia.
Qed.

(** The separation is never below a zero [max_distance]. *)
Lemma sqrt_not_below_zero (x z : B64.float) :
  B64.is_zero z = true -> B64.ltb (B64.sqrt x) z = false.
Proof.
  destruct z as [sz| | |]; try discriminate. intros _.
  destruct x as [[|]|[|]| |[|] m e]; try reflexivity.
  unfold B64.sqrt, SFsqrt.
  destruct (SFsqrt_core_binary B64.prec B64.emax (Z.pos m) e) as [[mz ez] lz].
  unfold binary_round_aux.
  destruct (shr_fexp B64.prec B64.emax mz ez lz) as [mrs' e'].
  destruct (shr_fexp B64.prec B64.emax _ e' loc_Exact) as [mrs'' e''].
  destruct (shr_m mrs''); try reflexivity.
  destruct (e'' <=? B64.emax - B64.prec)%Z; reflexivity.
Qed.

Lemma zero_distance_no_candidate (max_distance : B64.float) :
  B64.is_zero max_distance = true ->
  forall p1 v1 p2 v2 : vec3 B64.float,
    pair_candidate max_distance p1 v1 p2 v2 = None.
Proof.
  intros Hz p1 v1 p2 v2. unfold pair_candidate.
  destruct (f_gtb _ _); [reflexivity|].
  unfold closest_point_between_lines, norm.
  change (f_ltb (f_sqrt ?x) max_distance) with (B64.ltb (B64.sqrt x) max_distance).
  now rewrite sqrt_not_below_zero.
Qed.

(** The rows that [np.vstack] hands to the next stage are the
    candidates; an array without columns holds none. *)
Lemma vstack_candidates {F : Type} (results : list (list (vec3 F))) (st : stacked) :
  vstack results = inr st ->
  match st with
  | Rows pts => pts = candidates results
  | NoColumns _ => candidates results = []
  end.
Proof.
  unfold vstack, candidates. destruct results as [|r rs]; [discriminate|].
  destruct (forallb _ (r :: rs)) eqn:Eall.
  - intros E. inversion E; subst st; clear E.
    rewrite forallb_forall in Eall.
    induction (r :: rs) as [|x l IH]; [reflexivity|].
    simpl. rewrite IH by (intros y Hy; apply Eall; now right).
    specialize (Eall x (or_introl eq_refl)). destruct x; [reflexivity | discriminate].
  - destruct (existsb _ (r :: rs)); [discriminate|].
    intros E. inversion E. reflexivity.
Qed.

(** C3: a run of the search over [n] facets returns, when the facet
    arrays are aligned and every worker gets at least one index, and
    whenever it returns it has produced at most [n (n - 1) / 2]
    candidate points, and none at all when [max_distance] is zero;
    the stacked array, when the stacking succeeds, holds exactly these
    points. *)
Theorem C3_candidate_count :
  forall (cpu_count : nat) (facet_centroids facet_normals : list (vec3 B64.float))
         (max_distance : B64.float),
    let n := length facet_centroids in
    (forall results,
        search cpu_count facet_centroids facet_normals max_distance = inr results ->
        length (candidates results) <= n * (n - 1) / 2
        /\ (B64.is_zero max_distance = true -> candidates results = [])
        /\ (forall st, vstack results = inr st ->
            match st with
            | Rows pts => pts = candidates results
            | NoColumns _ => candidates results = []
            end))
    /\ (length facet_normals = n -> 0 < n / cpu_count ->
        exists results,
          search cpu_count facet_centroids facet_normals max_distance = inr results).
Proof.
  intros cpu cs ns md n. split.
  - intros results E. unfold search in E.
    destruct (make_chunks (length cs) cpu) as [e|chunks] eqn:Ech; [discriminate|].
    simpl in E. apply make_chunks_cover in Ech. split; [|split].
    + apply pool_map_length in E. rewrite Ech in E.
      pose proof (pairs_of_all n 0) as Hsum. simpl in Hsum. fold n in E.
      apply Nat.div_le_lower_bound; lia.
    + intros Hz. eapply pool_map_nothing; [|exact E].
      now apply zero_distance_no_candidate.
    + intros st. apply vstack_candidates.
  - intros Hlen Hpos. unfold search.
    destruct (make_chunks_returns _ _ Hpos) as [chunks Ech]. fold n.
    rewrite Ech. simpl.
    apply pool_map_returns; [fold n; lia|].
    apply make_chunks_cover in Ech. rewrite Ech.
    intros i Hi. apply in_seq in Hi. fold n. lia.
Qed.

Lemma C3_candidate_count_witness :
  let cs := [V3 (B64.of_Z 0) (B64.of_Z 0) (B64.of_Z 0);
             V3 (B64.of_Z 1) (B64.of_Z 0) (B64.of_Z 0);
             V3 (B64.of_Z 0) (B64.of_Z 1) (B64.of_Z 0)] in
  let ns := [V3 (B64.of_Z 1) (B64.of_Z 1) (B64.of_Z 0);
             V3 (B64.of_Z (-1)) (B64.of_Z 1) (B64.of_Z 0);
             V3 (B64.of_Z 1) (B64.of_Z (-1)) (B64.of_Z 0)] in
  exists results,
    search 2 cs ns (B64.of_Z 1) = inr results
    /\ length (candidates results) <= 3 * (3 - 1) / 2.
Proof.
  intros cs ns.
  destruct (C3_candidate_count 2 cs ns (B64.of_Z 1)) as [Hbound Hret].
  destruct Hret as [results E]; [reflexivity | vm_compute; lia |].
  exists results. split; [exact E|]. apply (Hbound results E).
Defined.

(* ------------------------------------------------------------------ *)
(** ** C7: the shape of the emitted path *)

Lemma filter_all {A} (f : A -> bool) (l : list A) :
  (forall x, In x l -> f x = true) -> filter f l = l.
Proof.
  induction l as [|x l IH]; simpl; intros Hl; [reflexivity|].
  rewrite (Hl x (or_introl eq_refl)). f_equal. auto.
Qed.

Lemma filter_none {A} (f : A -> bool) (l : list A) :
  (forall x, In x l -> f x = false) -> filter f l = [].
Proof.
  induction l as [|x l IH]; simpl; intros Hl; [reflexivity|].
  rewrite (Hl x (or_introl eq_refl)). auto.
Qed.

Lemma filter_seq_below (f : nat -> bool) (c m : nat) :
  m <= c ->
  (forall k, k < c -> f k = (k <? m)) ->
  filter f (seq 0 c) = seq 0 m.
Proof.
  intros Hm Hf.
  replace c with (m + (c - m)) by lia.
  rewrite seq_app, filter_app, filter_all, filter_none.
  - apply app_nil_r.
  - intros k Hk. apply in_seq in Hk. rewrite Hf by lia. apply Nat.ltb_ge. lia.
  - intros k Hk. apply in_seq in Hk. rewrite Hf by lia. apply Nat.ltb_lt. lia.
Qed.

Section EmitterFacts.
Context {F : Type} `{Arith F}.
Variable scaled_points : list (F * F).
Variable dflt : F * F.

Let body :=
  fun (i : nat) (d : list (command F)) =>
    if (i + 2 <? length scaled_points)%nat then
      c1 <- getitem scaled_points i ;;
      c2 <- getitem scaled_points (i + 1) ;;
      e <- getitem scaled_points (i + 2) ;;
      ok (d ++ [CurveTo c1 c2 e])
    else ok d.

Lemma getitem_nth i :
  i < length scaled_points -> getitem scaled_points i = inr (nth i scaled_points dflt).
Proof.
  intros Hi. unfold getitem.
  rewrite (nth_error_nth' scaled_points dflt Hi). reflexivity.
Qed.

Lemma push_loop ks : forall d,
  for_each (map (fun k => 1 + k * 3) ks) body d
  = inr (d ++ map (curve_at scaled_points dflt)
                (filter (fun k => 1 + k * 3 + 2 <? length scaled_points) ks)).
Proof.
  induction ks as [|k ks IH]; intros d; cbn [for_each map filter].
  - now rewrite app_nil_r.
  - unfold body at 1.
    destruct (1 + k * 3 + 2 <? length scaled_points) eqn:E.
    + apply Nat.ltb_lt in E.
      rewrite !getitem_nth by lia. cbn [bind ok].
      rewrite IH. cbn [map]. rewrite <- app_assoc. cbn [app].
      unfold curve_at at 2.
      replace (3 * k + 1) with (1 + k * 3) by lia.
      replace (3 * k + 2) with (1 + k * 3 + 1) by lia.
      replace (3 * k + 3) with (1 + k * 3 + 2) by lia.
      reflexivity.
    + cbn [bind ok]. apply IH.
Qed.

Lemma push_curves_spec d :
  push_curves scaled_points d
  = inr (d ++ map (curve_at scaled_points dflt)
                (seq 0 ((length scaled_points - 1) / 3))).
Proof.
  unfold push_curves, py_range_step. cbn [Nat.eqb bind ok].
  fold body. rewrite push_loop. do 3 f_equal.
  set (n := length scaled_points).
  pose proof (Nat.div_mod (n - 1) 3 ltac:(lia)) as Hf.
  pose proof (Nat.mod_upper_bound (n - 1) 3 ltac:(lia)) as Hfr.
  pose proof (Nat.div_mod (n - 1 + 3 - 1) 3 ltac:(lia)) as Hc.
  pose proof (Nat.mod_upper_bound (n - 1 + 3 - 1) 3 ltac:(lia)) as Hcr.
  apply filter_seq_below.
  - lia.
  - intros k Hk.
    destruct (1 + k * 3 + 2 <? n) eqn:E1, (k <? (n - 1) / 3) eqn:E2; try reflexivity.
    + apply Nat.ltb_lt in E1. apply Nat.ltb_ge in E2. lia.
    + apply Nat.ltb_ge in E1. apply Nat.ltb_lt in E2. lia.
Qed.

End EmitterFacts.

Lemma firstn_succ_nth {A} (d : A) (l : list A) : forall i,
  i < length l -> firstn (S i) l = firstn i l ++ [nth i l d].
Proof.
  induction l as [|x l IH]; simpl; intros i Hi; [lia|].
  destruct i as [|i]; [reflexivity|].
  cbn [firstn nth app]. f_equal. apply IH. lia.
Qed.

Section PathFacts.
Context {F : Type} `{Arith F}.
Variable scaled_points : list (F * F).
Variable dflt : F * F.

Lemma curves_points (m : nat) :
  3 * m + 1 <= length scaled_points ->
  path_points (MoveTo (nth 0 scaled_points dflt)
               :: map (curve_at scaled_points dflt) (seq 0 m))
  = firstn (3 * m + 1) scaled_points.
Proof.
  induction m as [|m IH]; intros Hm.
  - simpl. destruct scaled_points; simpl in *; [lia | reflexivity].
  - rewrite seq_S, map_app. cbn [map Nat.add].
    change (MoveTo (nth 0 scaled_points dflt)
            :: map (curve_at scaled_points dflt) (seq 0 m)
               ++ [curve_at scaled_points dflt m])
      with ((MoveTo (nth 0 scaled_points dflt)
             :: map (curve_at scaled_points dflt) (seq 0 m))
            ++ [curve_at scaled_points dflt m]).
    unfold path_points in *. rewrite flat_map_app, IH by lia.
    cbn [flat_map command_points curve_at app].
    replace (3 * S m + 1) with (S (S (S (3 * m + 1)))) by lia.
    rewrite (firstn_succ_nth dflt) by lia.
    rewrite (firstn_succ_nth dflt) by lia.
    rewrite (firstn_succ_nth dflt) by lia.
    rewrite <- !app_assoc. cbn [app].
    replace (S (3 * m + 1)) with (3 * m + 2) by lia.
    replace (S (3 * m + 2)) with (3 * m + 3) by lia.
    reflexivity.
Qed.

Lemma path_of_points :
  1 <= length scaled_points ->
  path_points (path_of scaled_points dflt)
  = firstn (3 * ((length scaled_points - 1) / 3) + 1) scaled_points.
Proof.
  intros Hn. apply curves_points.
  pose proof (Nat.div_mod (length scaled_points - 1) 3 ltac:(lia)). lia.
Qed.

Lemma path_of_segments :
  segment_count (path_of scaled_points dflt) = (length scaled_points - 1) / 3.
Proof.
  unfold segment_count, path_of. cbn [filter is_curve].
  rewrite filter_all, length_map, length_seq; [reflexivity|].
  intros c Hc. apply in_map_iff in Hc as [k [<- _]]. reflexivity.
Qed.

End PathFacts.

Section CreateSvgFacts.
Context {F : Type} `{Arith F}.
Local Open Scope fl_scope.

Lemma create_svg_spec (centerline : list (vec3 F)) (scale : F) (dflt : F * F) :
  1 <= length centerline ->
  exists mins maxs,
    reduce_rows np_minimum centerline = inr mins
    /\ reduce_rows np_maximum centerline = inr maxs
    /\ create_svg centerline scale
       = if f_isfinite (width_of mins maxs scale)
            && f_isfinite (height_of mins maxs scale)
         then inr (Drawing
                     (width_of mins maxs scale) (height_of mins maxs scale)
                     (half * scale)
                     (path_of (scaled_points_of centerline scale mins maxs) dflt))
         else inl (Raise TypeError).
Proof.
  intros Hn. destruct centerline as [|p rest]; [simpl in Hn; lia|].
  exists (fold_left (vzip np_minimum) rest p), (fold_left (vzip np_maximum) rest p).
  split; [reflexivity|]. split; [reflexivity|].
  unfold create_svg. cbn [reduce_rows bind ok].
  set (mins := fold_left (vzip np_minimum) rest p).
  set (maxs := fold_left (vzip np_maximum) rest p).
  fold (padding_of mins maxs scale).
  fold (width_of mins maxs scale). fold (height_of mins maxs scale).
  fold (scaled_points_of (p :: rest) scale mins maxs).
  set (sp := scaled_points_of (p :: rest) scale mins maxs).
  unfold svg_length.
  destruct (f_isfinite (width_of mins maxs scale)); [|reflexivity].
  destruct (f_isfinite (height_of mins maxs scale)); [|reflexivity].
  cbn [bind ok andb].
  assert (Hsp : 0 < length sp) by (unfold sp, scaled_points_of; rewrite length_map; simpl; lia).
  rewrite (getitem_nth sp dflt 0 Hsp). cbn [bind ok].
  rewrite (push_curves_spec sp dflt). cbn [bind ok app].
  reflexivity.
Qed.

(** [create_svg] returns exactly when the curve is not empty and
    [svgwrite] accepts the two sizes; otherwise it raises [ValueError]
    (no point) or [TypeError] (a size that is not a number). *)
Lemma create_svg_cases (centerline : list (vec3 F)) (scale : F) (dflt : F * F) :
  match create_svg centerline scale with
  | inr dwg =>
      sizes_accepted centerline scale = true
      /\ exists mins maxs,
           reduce_rows np_minimum centerline = inr mins
           /\ reduce_rows np_maximum centerline = inr maxs
           /\ dwg = Drawing
                      (width_of mins maxs scale) (height_of mins maxs scale)
                      (half * scale)
                      (path_of (scaled_points_of centerline scale mins maxs) dflt)
  | inl e =>
      sizes_accepted centerline scale = false
      /\ e = Raise (if (length centerline =? 0)%nat then ValueError else TypeError)
  end.
Proof.
  destruct centerline as [|p rest]; [split; reflexivity|].
  destruct (create_svg_spec (p :: rest) scale dflt) as (mins & maxs & Emin & Emax & E);
    [simpl; lia|].
  rewrite E. unfold sizes_accepted. rewrite Emin, Emax.
  destruct (f_isfinite (width_of mins maxs scale)
            && f_isfinite (height_of mins maxs scale)).
  - split; [reflexivity|]. now exists mins, maxs.
  - split; reflexivity.
Qed.

End CreateSvgFacts.

(** C7: a smoothed curve of [N >= 1] points is drawn when [svgwrite]
    accepts the two sizes of the drawing; when one of them is infinite
    or NaN, [svgwrite] raises [TypeError] and nothing is drawn.  The
    path of a drawing is one move-to at the first scaled point
    followed by [(N - 1) / 3] curve-to commands, the [k]-th made of
    the points [3k+1], [3k+2], [3k+3]; it mentions exactly the first
    [3 ((N - 1) / 3) + 1] points, in order, so the one or two points
    left over are dropped. *)
Theorem C7_emitted_path :
  forall (F : Type) (A : Arith F) (centerline : list (vec3 F)) (scale : F)
         (dflt : F * F),
    1 <= length centerline ->
    (sizes_accepted centerline scale = true ->
     exists dwg, create_svg centerline scale = inr dwg)
    /\ (sizes_accepted centerline scale = false ->
        create_svg centerline scale = inl (Raise TypeError))
    /\ (forall dwg,
          create_svg centerline scale = inr dwg ->
          exists mins maxs scaled_points,
            reduce_rows np_minimum centerline = inr mins
            /\ reduce_rows np_maximum centerline = inr maxs
            /\ scaled_points
               = map (scale_point scale (vx mins) (vy mins)
                        (padding_of mins maxs scale)) centerline
            /\ path dwg
               = MoveTo (nth 0 scaled_points dflt)
                 :: map (fun k => CurveTo (nth (3 * k + 1) scaled_points dflt)
                                          (nth (3 * k + 2) scaled_points dflt)
                                          (nth (3 * k + 3) scaled_points dflt))
                        (seq 0 ((length centerline - 1) / 3))
            /\ segment_count (path dwg) = (length centerline - 1) / 3
            /\ path_points (path dwg)
               = firstn (3 * ((length centerline - 1) / 3) + 1) scaled_points).
Proof.
  intros F A centerline scale dflt Hn.
  pose proof (create_svg_cases centerline scale dflt) as Hc.
  destruct (create_svg centerline scale) as [e|dwg].
  - destruct Hc as [Hs ->].
    replace (length centerline =? 0) with false by (symmetry; apply Nat.eqb_neq; lia).
    split; [congruence|]. split; [reflexivity | discriminate].
  - destruct Hc as [Hs (mins & maxs & Emin & Emax & ->)].
    split; [eauto|]. split; [congruence|].
    intros d E. inversion E; subst d; clear E.
    set (sp := scaled_points_of centerline scale mins maxs).
    assert (Hlen : length sp = length centerline)
      by (unfold sp, scaled_points_of; apply length_map).
    exists mins, maxs, sp. cbn [path].
    split; [exact Emin|]. split; [exact Emax|]. split; [reflexivity|].
    split; [unfold path_of; now rewrite Hlen|].
    split.
    + rewrite path_of_segments. now rewrite Hlen.
    + rewrite path_of_points by lia. now rewrite Hlen.
Qed.

Lemma C7_emitted_path_witness :
  let pt (x : Z) := V3 (B64.of_Z x) (B64.of_Z (x * x)) (B64.of_Z 0) in
  let centerline := map pt [0; 1; 2; 3; 4; 5]%Z in
  exists dwg, create_svg centerline (B64.of_Z 1) = inr dwg
              /\ segment_count (path dwg) = 1.
Proof.
  intros pt centerline.
  destruct (@C7_emitted_path B64.float binary64 centerline (B64.of_Z 1)
              (B64.of_Z 0, B64.of_Z 0)) as (Hret & _ & Hpath).
  - simpl. lia.
  - destruct (Hret eq_refl) as [dwg E]. exists dwg. split; [exact E|].
    destruct (Hpath dwg E) as (mins & maxs & sp & _ & _ & _ & _ & Hc & _).
    exact Hc.
Defined.

(* ------------------------------------------------------------------ *)
(** ** C2, C6, C8: the smoothing stage *)

Section SmootherFacts.
Context {F : Type} `{Arith F}.

Lemma removelast_map_seq {B} (g : nat -> B) (m : nat) :
  removelast (map g (seq 0 (S m))) = map g (seq 0 m).
Proof. rewrite seq_S, map_app. simpl. apply removelast_last. Qed.

Lemma linspace_unfold (start stop : F) (m : nat) :
  linspace start stop (S (S m))
  = map (linspace_point start stop (S (S m))) (seq 0 (S m)) ++ [stop].
Proof.
  unfold linspace.
  replace (0 <? Z.of_nat (S (S m)) - 1)%Z with true by (symmetry; apply Z.ltb_lt; lia).
  replace (1 <? S (S m))%nat with true by (symmetry; apply Nat.ltb_lt; lia).
  f_equal.
  destruct (f_eqb _ _) eqn:E; rewrite !map_map, removelast_map_seq;
    apply map_ext; intros i; unfold linspace_point; rewrite E; reflexivity.
Qed.

Lemma linspace_evenly_spaced (start stop : F) (num : nat) :
  2 <= num -> evenly_spaced start stop num (linspace start stop num).
Proof.
  intros Hnum. destruct num as [|[|m]]; try lia.
  rewrite linspace_unfold. unfold evenly_spaced.
  assert (Hlen : length (map (linspace_point start stop (S (S m))) (seq 0 (S m))) = S m)
    by now rewrite length_map, length_seq.
  split; [rewrite length_app, Hlen; simpl; lia|]. split.
  - rewrite app_nth2 by lia. rewrite Hlen.
    replace (S (S m) - 1 - S m) with 0 by lia. reflexivity.
  - intros i Hi. rewrite app_nth1 by lia.
    rewrite (nth_indep _ start (linspace_point start stop (S (S m)) 0)) by lia.
    rewrite map_nth, seq_nth by lia. reflexivity.
Qed.

Variable libm_pow2 : F -> F.
Variable tck : Type.
Variable parcur : list (vec3 F) -> F -> nat -> result tck.
Variable splev_at : tck -> F -> vec3 F.

Lemma splprep_few_points (x : list (vec3 F)) (s : F) :
  length x < 4 -> splprep parcur x s 3 = inl (Raise TypeError).
Proof.
  intros Hx. unfold splprep. simpl negb. cbv iota.
  replace (length x <=? 3) with true by (symmetry; apply Nat.leb_le; lia).
  reflexivity.
Qed.

Lemma fit_few_points (points : list (vec3 F)) (max_error wire_diameter : F) :
  length points < 4 ->
  fit_bezier_spline libm_pow2 parcur splev_at points max_error wire_diameter
  = inl (Raise TypeError).
Proof.
  intros Hx. unfold fit_bezier_spline. now rewrite splprep_few_points.
Qed.

Lemma fit_returns_inv (points : list (vec3 F)) (max_error wire_diameter : F)
    (smooth : list (vec3 F)) (k : Z) :
  fit_bezier_spline libm_pow2 parcur splev_at points max_error wire_diameter = inr (smooth, k) ->
  4 <= length points
  /\ (exists t,
        splprep parcur points
          (pow2 libm_pow2 (f_div (f_mul max_error wire_diameter) (f_of_Z 100))) 3
        = inr t
        /\ smooth = map (splev_at t) (linspace (f_of_Z 0) (f_of_Z 1) (length points * 2)))
  /\ k = ((Z.of_nat (length points * 2) - 1) / 3)%Z.
Proof.
  unfold fit_bezier_spline. intros E.
  destruct (Nat.lt_ge_cases (length points) 4) as [Hlt | Hge].
  - rewrite splprep_few_points in E by exact Hlt. discriminate.
  - split; [exact Hge|].
    destruct (splprep parcur points _ 3) as [e|t] eqn:Ep; [discriminate|].
    cbn [bind ok] in E. inversion E; subst. split; [|reflexivity].
    exists t. split; reflexivity.
Qed.

Lemma fit_returns (points : list (vec3 F)) (max_error wire_diameter : F) (t : tck) :
  splprep parcur points
    (pow2 libm_pow2 (f_div (f_mul max_error wire_diameter) (f_of_Z 100))) 3
  = inr t ->
  fit_bezier_spline libm_pow2 parcur splev_at points max_error wire_diameter
  = inr (map (splev_at t) (linspace (f_of_Z 0) (f_of_Z 1) (length points * 2)),
         ((Z.of_nat (length points * 2) - 1) / 3)%Z).
Proof. intros E. unfold fit_bezier_spline. rewrite E. reflexivity. Qed.

Lemma fit_length (points : list (vec3 F)) (max_error wire_diameter : F)
    (smooth : list (vec3 F)) (k : Z) :
  fit_bezier_spline libm_pow2 parcur splev_at points max_error wire_diameter = inr (smooth, k) ->
  length smooth = 2 * length points.
Proof.
  intros E. apply fit_returns_inv in E as (Hn & (t & _ & ->) & _).
  rewrite length_map.
  destruct (@linspace_evenly_spaced (f_of_Z 0) (f_of_Z 1) (length points * 2)) as [Hl _]; lia.
Qed.

Lemma smooth_and_emit_inv (centerline : list (vec3 F)) (wire_diameter scale max_error : F)
    (dwg : drawing F) (k : Z) :
  smooth_and_emit libm_pow2 parcur splev_at centerline wire_diameter scale max_error = inr (dwg, k) ->
  exists smooth,
    fit_bezier_spline libm_pow2 parcur splev_at centerline max_error wire_diameter = inr (smooth, k)
    /\ create_svg smooth scale = inr dwg.
Proof.
  unfold smooth_and_emit. intros E.
  destruct (fit_bezier_spline _ _ _ _ _) as [e|[smooth k']]; [discriminate|].
  cbn [bind] in E.
  destruct (create_svg smooth scale) as [e|d] eqn:Ec; [discriminate|].
  cbn [bind ok] in E. inversion E; subst. eauto.
Qed.

Lemma emitted_segments (centerline : list (vec3 F)) (wire_diameter scale max_error : F)
    (dwg : drawing F) (k : Z) :
  smooth_and_emit libm_pow2 parcur splev_at centerline wire_diameter scale max_error = inr (dwg, k) ->
  segment_count (path dwg) = (2 * length centerline - 1) / 3.
Proof.
  intros E. apply smooth_and_emit_inv in E as (smooth & Ef & Ec).
  pose proof (fit_length _ _ _ _ _ Ef) as Hl.
  apply fit_returns_inv in Ef as (Hn & _ & _).
  pose proof (create_svg_cases smooth scale (f_of_Z 0, f_of_Z 0)) as Hc.
  rewrite Ec in Hc. destruct Hc as [_ (mins & maxs & _ & _ & ->)]. cbn [path].
  rewrite path_of_segments. unfold scaled_points_of. now rewrite length_map, Hl.
Qed.

End SmootherFacts.

(** C2, as stated, fails: with no point at all the stage fails, but the
    exception is SciPy's [TypeError]; the program has no
    [InsufficientDataError]. *)
Lemma C2_failure_is_a_TypeError :
  fit_bezier_spline Toy.libm_pow2 Toy.parcur Toy.splev_at [] Toy.five Toy.one
  = inl (Raise "TypeError")
  /\ ~ fails_with "InsufficientDataError"
         (fit_bezier_spline Toy.libm_pow2 Toy.parcur Toy.splev_at [] Toy.five Toy.one).
Proof.
  split; [reflexivity|].
  intros [e [E Hc]]. vm_compute in E. inversion E; subst e. discriminate Hc.
Qed.

(** C2, amended: with fewer than 4 ordered points the smoothing stage
    fails with the [TypeError] that [splprep] raises ([m > k must
    hold]), and nothing is drawn. *)
Theorem C2_too_few_points :
  forall (F : Type) (A : Arith F) (libm_pow2 : F -> F) (tck : Type)
         (parcur : list (vec3 F) -> F -> nat -> result tck)
         (splev_at : tck -> F -> vec3 F)
         (points : list (vec3 F)) (max_error wire_diameter scale : F),
    length points < 4 ->
    fails_with TypeError
      (fit_bezier_spline libm_pow2 parcur splev_at points max_error wire_diameter)
    /\ fails_with TypeError
         (smooth_and_emit libm_pow2 parcur splev_at points wire_diameter scale max_error).
Proof.
  intros F A libm_pow2 tck parcur splev_at points e w scale Hn.
  pose proof (fit_few_points libm_pow2 tck parcur splev_at points e w Hn) as E.
  split.
  - exists (Raise TypeError). split; [exact E | reflexivity].
  - exists (Raise TypeError). split; [|reflexivity].
    unfold smooth_and_emit. now rewrite E.
Qed.

Lemma C2_too_few_points_witness :
  fails_with TypeError
    (fit_bezier_spline Toy.libm_pow2 Toy.parcur Toy.splev_at
       [Toy.point 0; Toy.point 1; Toy.point 2] Toy.five Toy.one).
Proof.
  apply (@C2_too_few_points B64.float binary64 Toy.libm_pow2 Toy.tck Toy.parcur Toy.splev_at
           [Toy.point 0; Toy.point 1; Toy.point 2] Toy.five Toy.one Toy.one).
  simpl. lia.
Defined.

(** C6: the smoothing stage returns exactly when [splprep] fits a
    spline to the [n] ordered points, with degree 3 and the smoothing
    [(max_error * wire_diameter / 100) ** 2].  The smoothed curve is
    then that spline evaluated at [2 n] parameters evenly spaced from
    0 to 1, so it has exactly [2 n] points, and the reported number of
    curves is [(2 n - 1) / 3] truncated. *)
Theorem C6_smoothed_curve :
  forall (F : Type) (A : Arith F) (libm_pow2 : F -> F) (tck : Type)
         (parcur : list (vec3 F) -> F -> nat -> result tck)
         (splev_at : tck -> F -> vec3 F)
         (points : list (vec3 F)) (max_error wire_diameter : F),
    let n := length points in
    let s := pow2 libm_pow2 (f_div (f_mul max_error wire_diameter) (f_of_Z 100)) in
    (forall t,
        splprep parcur points s 3 = inr t ->
        exists u,
          evenly_spaced (f_of_Z 0) (f_of_Z 1) (2 * n) u
          /\ length (map (splev_at t) u) = 2 * n
          /\ fit_bezier_spline libm_pow2 parcur splev_at points max_error wire_diameter
             = inr (map (splev_at t) u, Z.quot (2 * Z.of_nat n - 1) 3))
    /\ (forall smooth number_of_curves,
          fit_bezier_spline libm_pow2 parcur splev_at points max_error wire_diameter
          = inr (smooth, number_of_curves) ->
          exists t, splprep parcur points s 3 = inr t).
Proof.
  intros F A libm_pow2 tck parcur splev_at points e w n s. split.
  - intros t Et.
    pose proof (fit_returns libm_pow2 tck parcur splev_at points e w t Et) as E.
    pose proof (fit_returns_inv _ _ _ _ _ _ _ _ _ E) as (Hn & _ & _).
    fold n in Hn, E.
    exists (linspace (f_of_Z 0) (f_of_Z 1) (n * 2)).
    assert (Hu : evenly_spaced (f_of_Z 0) (f_of_Z 1) (2 * n)
                   (linspace (f_of_Z 0) (f_of_Z 1) (n * 2))).
    { replace (2 * n) with (n * 2) by lia. apply linspace_evenly_spaced. lia. }
    split; [exact Hu|]. split.
    + rewrite length_map. apply Hu.
    + rewrite E. f_equal. f_equal.
      rewrite Z.quot_div_nonneg by lia. f_equal. lia.
  - intros smooth k E.
    apply fit_returns_inv in E as (_ & (t & Et & _) & _). now exists t.
Qed.

Lemma C6_smoothed_curve_witness :
  exists smooth number_of_curves,
    fit_bezier_spline Toy.libm_pow2 Toy.parcur Toy.splev_at
      [Toy.point 0; Toy.point 1; Toy.point 2; Toy.point 3] Toy.five Toy.one
    = inr (smooth, number_of_curves)
    /\ length smooth = 2 * 4
    /\ number_of_curves = 2%Z.
Proof.
  destruct (@C6_smoothed_curve B64.float binary64 Toy.libm_pow2 Toy.tck
              Toy.parcur Toy.splev_at
              [Toy.point 0; Toy.point 1; Toy.point 2; Toy.point 3]
              Toy.five Toy.one) as [Hret _].
  destruct (Hret tt eq_refl) as (u & _ & Hl & E).
  eexists _, _. split; [exact E|]. split; [exact Hl | reflexivity].
Defined.

(** C8: for the same ordered points and wire diameter, a larger
    [max_error] never gives more curve segments: the number written
    is [(2 n - 1) / 3] whatever the tolerance. *)
Theorem C8_tolerance_monotone :
  forall (F : Type) (A : Arith F) (libm_pow2 : F -> F) (tck : Type)
         (parcur : list (vec3 F) -> F -> nat -> result tck)
         (splev_at : tck -> F -> vec3 F)
         (points : list (vec3 F)) (wire_diameter scale e1 e2 : F)
         (dwg1 dwg2 : drawing F) (k1 k2 : Z),
    f_leb e1 e2 = true ->
    smooth_and_emit libm_pow2 parcur splev_at points wire_diameter scale e1 = inr (dwg1, k1) ->
    smooth_and_emit libm_pow2 parcur splev_at points wire_diameter scale e2 = inr (dwg2, k2) ->
    segment_count (path dwg2) <= segment_count (path dwg1).
Proof.
  intros F A libm_pow2 tck parcur splev_at points w scale e1 e2 d1 d2 k1 k2 _ E1 E2.
  rewrite (emitted_segments _ _ _ _ _ _ _ _ _ _ E1), (emitted_segments _ _ _ _ _ _ _ _ _ _ E2).
  apply Nat.le_refl.
Qed.

Lemma C8_tolerance_monotone_witness :
  let points := [Toy.point 0; Toy.point 1; Toy.point 2; Toy.point 3; Toy.point 4] in
  exists dwg1 dwg2 k1 k2,
    smooth_and_emit Toy.libm_pow2 Toy.parcur Toy.splev_at points Toy.one Toy.one (B64.of_Z 1)
    = inr (dwg1, k1)
    /\ smooth_and_emit Toy.libm_pow2 Toy.parcur Toy.splev_at points Toy.one Toy.one (B64.of_Z 5)
       = inr (dwg2, k2)
    /\ segment_count (path dwg2) <= segment_count (path dwg1).
Proof.
  intros points.
  destruct (smooth_and_emit Toy.libm_pow2 Toy.parcur Toy.splev_at points Toy.one Toy.one (B64.of_Z 1))
    as [e | [dwg1 k1]] eqn:E1; [vm_compute in E1; discriminate E1|].
  destruct (smooth_and_emit Toy.libm_pow2 Toy.parcur Toy.splev_at points Toy.one Toy.one (B64.of_Z 5))
    as [e | [dwg2 k2]] eqn:E2; [vm_compute in E2; discriminate E2|].
  exists dwg1, dwg2, k1, k2. split; [reflexivity|]. split; [reflexivity|].
  apply (@C8_tolerance_monotone B64.float binary64 Toy.libm_pow2 Toy.tck Toy.parcur Toy.splev_at
           points Toy.one Toy.one (B64.of_Z 1) (B64.of_Z 5) dwg1 dwg2 k1 k2);
    [vm_compute; reflexivity | exact E1 | exact E2].
Defined.

(* ------------------------------------------------------------------ *)
(** ** C4: a non-positive [sample_size] *)

Section SamplerFacts.
Context {F : Type} `{Arith F}.
Variable permutation : nat -> list nat.

Lemma random_choice_negative (pop_size : nat) (size : Z) :
  (size < 0)%Z -> random_choice permutation pop_size size = inl (Raise ValueError).
Proof.
  intros Hs. unfold random_choice.
  destruct ((Z.of_nat pop_size <=? 0)%Z && negb (size =? 0)%Z); [reflexivity|].
  destruct (Z.of_nat pop_size <? size)%Z; [reflexivity|].
  replace (size <? 0)%Z with true by (symmetry; apply Z.ltb_lt; exact Hs).
  reflexivity.
Qed.

Lemma random_choice_zero (pop_size : nat) :
  random_choice permutation pop_size 0 = inr [].
Proof.
  unfold random_choice. rewrite andb_false_r.
  replace (Z.of_nat pop_size <? 0)%Z with false by (symmetry; apply Z.ltb_ge; lia).
  reflexivity.
Qed.

Lemma sample_facets_negative (face_normals triangles_center : list (vec3 F))
    (sample_size : Z) :
  (sample_size < 0)%Z ->
  sample_facets permutation face_normals triangles_center sample_size
  = inl (Raise ValueError).
Proof.
  intros Hs. unfold sample_facets.
  replace (sample_size <? Z.of_nat (length triangles_center))%Z with true
    by (symmetry; apply Z.ltb_lt; lia).
  now rewrite random_choice_negative.
Qed.

Lemma sample_facets_zero (face_normals triangles_center : list (vec3 F)) :
  exists facet_normals,
    sample_facets permutation face_normals triangles_center 0
    = inr (facet_normals, []).
Proof.
  unfold sample_facets.
  destruct (0 <? Z.of_nat (length triangles_center))%Z eqn:E.
  - rewrite random_choice_zero. simpl. eauto.
  - apply Z.ltb_ge in E. destruct triangles_center; [eauto | simpl in E; lia].
Qed.

Lemma search_no_facets (cpu_count : nat) (facet_normals : list (vec3 F))
    (max_distance : F) :
  1 <= cpu_count ->
  search cpu_count [] facet_normals max_distance = inl (Raise ValueError).
Proof.
  intros Hc. unfold search, make_chunks.
  replace (cpu_count =? 0) with false by (symmetry; apply Nat.eqb_neq; lia).
  simpl length. rewrite Nat.Div0.div_0_l. reflexivity.
Qed.

End SamplerFacts.

(** C4, as stated, fails: with two facets and [sample_size = 0] the
    sampling stage raises nothing; it returns an empty facet set. *)
Lemma C4_zero_sample_size_is_not_rejected :
  let facets := [Toy.point 0; Toy.point 1] in
  sample_facets identity_draw facets facets 0 = inr ([], [])
  /\ ~ fails_with "ConfigurationError" (sample_facets identity_draw facets facets 0).
Proof.
  intros facets. split; [reflexivity|].
  intros [e [E _]]. vm_compute in E. discriminate E.
Qed.

(** C4, amended: the program does not check [sample_size].  A negative
    [sample_size] makes the sampling stage fail with the [ValueError]
    of [np.random.choice]; with [sample_size = 0] the stage returns an
    empty facet set; in both cases [extract_centerline] fails with
    [ValueError] (for 0, when it builds its chunks with a step of 0). *)
Theorem C4_non_positive_sample_size :
  forall (F : Type) (A : Arith F) (permutation : nat -> list nat)
         (cpu_count : nat)
         (principal_axes : list (vec3 F) -> result (list (vec3 F)))
         (no_columns_tail : nat -> result (list (vec3 F) * F))
         (face_normals triangles_center : list (vec3 F))
         (max_distance : F) (sample_size : Z),
    (sample_size <= 0)%Z ->
    1 <= cpu_count ->
    ((sample_size < 0)%Z ->
     fails_with ValueError
       (sample_facets permutation face_normals triangles_center sample_size))
    /\ (sample_size = 0%Z ->
        exists facet_normals,
          sample_facets permutation face_normals triangles_center sample_size
          = inr (facet_normals, []))
    /\ fails_with ValueError
         (extract_centerline permutation cpu_count principal_axes no_columns_tail
            face_normals triangles_center max_distance sample_size).
Proof.
  intros F A permutation cpu pa tail ns cs md ss Hss Hcpu.
  split; [|split].
  - intros Hneg. exists (Raise ValueError). split; [|reflexivity].
    now apply sample_facets_negative.
  - intros ->. apply sample_facets_zero.
  - exists (Raise ValueError). split; [|reflexivity].
    unfold extract_centerline.
    destruct (Z.eq_dec ss 0) as [-> | Hne].
    + destruct (sample_facets_zero permutation ns cs) as [fns E].
      rewrite E. cbn [bind]. now rewrite search_no_facets.
    + rewrite sample_facets_negative by lia. reflexivity.
Qed.

Lemma C4_non_positive_sample_size_witness :
  let facets := [Toy.point 0; Toy.point 1] in
  fails_with ValueError
    (extract_centerline identity_draw 4 (fun pts => ok pts)
       (fun _ => raise ValueError) facets facets Toy.one (-3)).
Proof.
  intros facets.
  apply (@C4_non_positive_sample_size B64.float binary64 identity_draw 4
           (fun pts => ok pts) (fun _ => raise ValueError) facets facets
           Toy.one (-3)%Z); lia.
Defined.

(* ------------------------------------------------------------------ *)
(** ** Sorting and [np.unique], for any comparison that orders *)

Section UniqueFacts.
Context {A : Type}.
Variable lt : A -> A -> bool.
Variable ne : A -> A -> bool.

Hypothesis lt_asym : forall a b, lt a b = true -> lt b a = false.
Hypothesis before_trans : forall a b c, before lt a b -> before lt b c -> before lt a c.
Hypothesis same_sym : forall a b, ne a b = false -> ne b a = false.
Hypothesis same_trans : forall a b c, ne a b = false -> ne b c = false -> ne a c = false.

Lemma insert_sorted_perm x l : Permutation (insert_sorted lt x l) (x :: l).
Proof.
  induction l as [|y l IH]; simpl; [apply Permutation_refl|].
  destruct (lt x y); [apply Permutation_refl|].
  eapply Permutation_trans; [apply perm_skip, IH | apply perm_swap].
Qed.

Lemma insert_sorted_sorted x l :
  StronglySorted (before lt) l -> StronglySorted (before lt) (insert_sorted lt x l).
Proof.
  induction 1 as [|y l Hs IH Hy]; simpl.
  - constructor; constructor.
  - destruct (lt x y) eqn:E.
    + constructor; [now constructor|].
      assert (Hxy : before lt x y) by (apply lt_asym; exact E).
      constructor; [exact Hxy|].
      eapply Forall_impl; [|exact Hy]. intros z Hz. now apply (before_trans _ _ _ Hxy).
    + constructor; [exact IH|].
      apply (Permutation_Forall (Permutation_sym (insert_sorted_perm x l))).
      constructor; [exact E | exact Hy].
Qed.

Lemma sort_acc_perm l : forall acc,
  Permutation (fold_left (fun acc x => insert_sorted lt x acc) l acc) (acc ++ l).
Proof.
  induction l as [|x l IH]; intros acc; simpl.
  - rewrite app_nil_r. apply Permutation_refl.
  - eapply Permutation_trans; [apply IH|].
    eapply Permutation_trans; [apply Permutation_app_tail, insert_sorted_perm|].
    simpl. apply Permutation_middle.
Qed.

Lemma sort_acc_sorted l : forall acc,
  StronglySorted (before lt) acc ->
  StronglySorted (before lt) (fold_left (fun acc x => insert_sorted lt x acc) l acc).
Proof.
  induction l as [|x l IH]; intros acc Hacc; simpl; [exact Hacc|].
  apply IH, insert_sorted_sorted, Hacc.
Qed.

Lemma sort_by_perm l : Permutation (sort_by lt l) l.
Proof. apply (sort_acc_perm l []). Qed.

Lemma sort_by_sorted l : StronglySorted (before lt) (sort_by lt l).
Proof. apply sort_acc_sorted. constructor. Qed.





Lemma drop_repeats_differ l : forall prev kept,
  kept = prev \/ ne kept prev = false ->
  all_differ ne kept (drop_repeats ne prev l).
Proof.
  induction l as [|r l IH]; intros prev kept Hk; simpl; [exact I|].
  destruct (ne r prev) eqn:E.
  - simpl. split; [|apply IH; now left].
    destruct Hk as [-> | Hk]; [exact E|].
    destruct (ne r kept) eqn:E'; [reflexivity|].
    rewrite (same_trans _ _ _ E' Hk) in E. discriminate.
  - apply IH. right.
    destruct Hk as [-> | Hk]; [now apply same_sym|].
    apply (same_trans _ _ _ Hk). now apply same_sym.
Qed.


Lemma drop_repeats_in l : forall prev x,
  In x (drop_repeats ne prev l) -> In x l.
Proof.
  induction l as [|r l IH]; intros prev x; simpl; [tauto|].
  destruct (ne r prev); simpl; intros Hx.
  - destruct Hx as [-> | Hx]; [now left | right; eauto].
  - right; eauto.
Qed.

Lemma drop_repeats_sorted l :
  StronglySorted (before lt) l ->
  forall prev, StronglySorted (before lt) (drop_repeats ne prev l).
Proof.
  induction 1 as [|r l Hs IH Hr]; intros prev; simpl; [constructor|].
  destruct (ne r prev); [|apply IH].
  constructor; [apply IH|].
  rewrite Forall_forall in *. intros x Hx. eapply Hr, drop_repeats_in, Hx.
Qed.

Lemma unique_by_sorted a : StronglySorted (before lt) (unique_by lt ne a).
Proof.
  unfold unique_by. pose proof (sort_by_sorted a) as Hs.
  destruct (sort_by lt a) as [|r l]; [constructor|].
  inversion Hs as [|? ? Hl Hr]; subst.
  constructor; [now apply drop_repeats_sorted|].
  rewrite Forall_forall in *. intros x Hx. eapply Hr, drop_repeats_in, Hx.
Qed.

Lemma unique_by_in a x : In x (unique_by lt ne a) -> In x a.
Proof.
  unfold unique_by. intros Hx.
  apply (Permutation_in x (sort_by_perm a)).
  destruct (sort_by lt a) as [|r l]; [exact Hx|].
  destruct Hx as [-> | Hx]; [now left | right; eapply drop_repeats_in, Hx].
Qed.





End UniqueFacts.

(** Sorting and [np.unique] seen through a key that decides both
    comparisons. *)
Section KeyedUnique.
Context {A K : Type}.
Variable k : A -> K.
Variables (lt ne : A -> A -> bool) (ltk nek : K -> K -> bool).
Hypothesis lt_key : forall a b, lt a b = ltk (k a) (k b).
Hypothesis ne_key : forall a b, ne a b = nek (k a) (k b).





End KeyedUnique.

(* ------------------------------------------------------------------ *)
(** ** What the sort of [np.unique] needs from the arithmetic *)

Section LexFacts.
Context {A : Type}.
Variables lt1 rest : A -> A -> bool.
Hypothesis lt1_asym : forall a b, lt1 a b = true -> lt1 b a = false.
Hypothesis lt1_trans : forall a b c,
  lt1 b a = false -> lt1 c b = false -> lt1 c a = false.
Hypothesis rest_asym : forall a b, rest a b = true -> rest b a = false.
Hypothesis rest_trans : forall a b c,
  rest b a = false -> rest c b = false -> rest c a = false.

Lemma lex_asym a b : lex lt1 rest a b = true -> lex lt1 rest b a = false.
Proof.
  unfold lex. destruct (lt1 a b) eqn:Eab.
  - intros _. now rewrite (lt1_asym _ _ Eab).
  - destruct (lt1 b a); [discriminate|]. apply rest_asym.
Qed.

Lemma lex_trans a b c :
  lex lt1 rest b a = false -> lex lt1 rest c b = false -> lex lt1 rest c a = false.
Proof.
  unfold lex.
  destruct (lt1 b a) eqn:Eba; [discriminate|].
  destruct (lt1 c b) eqn:Ecb; [discriminate|].
  rewrite (lt1_trans _ _ _ Eba Ecb).
  destruct (lt1 a c) eqn:Eac; [reflexivity|].
  rewrite (lt1_trans _ _ _ Ecb Eac), (lt1_trans _ _ _ Eac Eba).
  apply rest_trans.
Qed.

Lemma lex_incomparable a b :
  lex lt1 rest a b = false -> lex lt1 rest b a = false ->
  (lt1 a b = false /\ lt1 b a = false) /\ (rest a b = false /\ rest b a = false).
Proof.
  unfold lex. destruct (lt1 a b), (lt1 b a); try discriminate. auto.
Qed.

End LexFacts.

Section RowFacts.
Context {F : Type} `{SortLaws F}.

Lemma row_lt_lex (a b : vec3 F) :
  row_lt a b
  = lex (fun a b => num_lt (vx a) (vx b))
        (lex (fun a b => num_lt (vy a) (vy b))
             (fun a b => num_lt (vz a) (vz b))) a b.
Proof. reflexivity. Qed.

Lemma row_lt_asym (a b : vec3 F) : row_lt a b = true -> row_lt b a = false.
Proof.
  rewrite !row_lt_lex. apply lex_asym.
  - intros x y. apply num_lt_asym.
  - intros x y. apply lex_asym; intros u v; apply num_lt_asym.
Qed.

Lemma row_before_trans (a b c : vec3 F) :
  before row_lt a b -> before row_lt b c -> before row_lt a c.
Proof.
  unfold before. rewrite !row_lt_lex. apply lex_trans.
  - intros x y z. apply num_before_trans.
  - intros x y z. apply lex_trans; intros u v w; apply num_before_trans.
Qed.

Lemma row_ne_false (a b : vec3 F) :
  row_ne a b = false
  <-> f_eqb (vx a) (vx b) = true /\ f_eqb (vy a) (vy b) = true
      /\ f_eqb (vz a) (vz b) = true.
Proof.
  unfold row_ne, f_neb.
  destruct (f_eqb (vx a) (vx b)), (f_eqb (vy a) (vy b)), (f_eqb (vz a) (vz b));
    simpl; intuition congruence.
Qed.

Lemma row_same_sym (a b : vec3 F) : row_ne a b = false -> row_ne b a = false.
Proof.
  rewrite !row_ne_false. intros (Hx & Hy & Hz).
  repeat split; apply f_eqb_sym; assumption.
Qed.

Lemma row_same_trans (a b c : vec3 F) :
  row_ne a b = false -> row_ne b c = false -> row_ne a c = false.
Proof.
  rewrite !row_ne_false. intros (Hx & Hy & Hz) (Hx' & Hy' & Hz').
  repeat split; eapply f_eqb_trans; eassumption.
Qed.






End RowFacts.

(* ------------------------------------------------------------------ *)
(** ** binary64 satisfies the laws of the sort *)

Module B64Order.
Import B64.

Lemma finite_compare (m1 m2 : positive) (e1 e2 : Z) :
  CompareSpec (e1 = e2 /\ m1 = m2)
    (e1 < e2 \/ (e1 = e2 /\ Z.pos m1 < Z.pos m2))%Z
    (e2 < e1 \/ (e1 = e2 /\ Z.pos m2 < Z.pos m1))%Z
    (match (e1 ?= e2)%Z with
     | Eq => Pos.compare_cont Eq m1 m2
     | Lt => Lt
     | Gt => Gt
     end).
Proof.
  change (Pos.compare_cont Eq m1 m2) with (Pos.compare m1 m2).
  destruct (Z.compare_spec e1 e2) as [He | He | He];
    [destruct (Pos.compare_spec m1 m2) as [Hm | Hm | Hm]| |];
    constructor; try lia; auto.
Qed.

Lemma finite_compare_neg (m1 m2 : positive) (e1 e2 : Z) :
  CompareSpec (e1 = e2 /\ m1 = m2)
    (e2 < e1 \/ (e1 = e2 /\ Z.pos m2 < Z.pos m1))%Z
    (e1 < e2 \/ (e1 = e2 /\ Z.pos m1 < Z.pos m2))%Z
    (match (e1 ?= e2)%Z with
     | Eq => CompOpp (Pos.compare_cont Eq m1 m2)
     | Lt => Gt
     | Gt => Lt
     end).
Proof.
  change (Pos.compare_cont Eq m1 m2) with (Pos.compare m1 m2).
  destruct (Z.compare_spec e1 e2) as [He | He | He];
    [destruct (Pos.compare_spec m1 m2) as [Hm | Hm | Hm]| |];
    constructor; try lia; auto.
Qed.

Lemma num_lt_key (a b : float) : num_lt a b = true <-> key_lt (key a) (key b).
Proof.
  unfold num_lt, f_ltb, f_isnan; simpl.
  destruct a as [[|]|[|]| |[|] m1 e1], b as [[|]|[|]| |[|] m2 e2];
    unfold ltb, SFltb, SFcompare, key, key_lt; simpl;
    try (split; intros; try discriminate; try reflexivity; lia).
  - destruct (finite_compare_neg m1 m2 e1 e2) as [Hc | Hc | Hc]; simpl;
      split; intros Hx; try discriminate; try reflexivity; lia.
  - destruct (finite_compare m1 m2 e1 e2) as [Hc | Hc | Hc]; simpl;
      split; intros Hx; try discriminate; try reflexivity; lia.
Qed.

Lemma num_lt_key_false (a b : float) :
  num_lt a b = false <-> ~ key_lt (key a) (key b).
Proof.
  rewrite <- num_lt_key. destruct (num_lt a b); split; intros; congruence.
Qed.

Lemma eqb_key (a b : float) :
  eqb a b = true <-> (isnan a = false /\ isnan b = false /\ key a = key b).
Proof.
  destruct a as [[|]|[|]| |[|] m1 e1], b as [[|]|[|]| |[|] m2 e2];
    unfold eqb, SFeqb, SFcompare, key, isnan; simpl;
    try (split; [intros; try discriminate; repeat split; reflexivity
                | intros (? & ? & ?); try discriminate; try reflexivity]).
  - destruct (finite_compare_neg m1 m2 e1 e2) as [Hc | Hc | Hc]; simpl;
      (split; [intros Hx; try discriminate; destruct Hc as [-> ->]; repeat split; reflexivity
              | intros (_ & _ & Hk); try reflexivity; inversion Hk; lia]).
  - destruct (finite_compare m1 m2 e1 e2) as [Hc | Hc | Hc]; simpl;
      (split; [intros Hx; try discriminate; destruct Hc as [-> ->]; repeat split; reflexivity
              | intros (_ & _ & Hk); try reflexivity; inversion Hk; lia]).
Qed.



Lemma key_ltb_lt (k k' : Z * Z * Z) : key_ltb k k' = true <-> key_lt k k'.
Proof.
  destruct k as [[c e] m], k' as [[c' e'] m']. unfold key_ltb, key_lt.
  rewrite !orb_true_iff, !andb_true_iff, !orb_true_iff, !andb_true_iff,
    !Z.ltb_lt, !Z.eqb_eq. tauto.
Qed.

Lemma key_ltb_false (k k' : Z * Z * Z) : key_ltb k k' = false <-> ~ key_lt k k'.
Proof.
  rewrite <- key_ltb_lt. destruct (key_ltb k k'); split; intros; congruence.
Qed.

Lemma num_lt_key_ltb (a b : float) : num_lt a b = key_ltb (key a) (key b).
Proof.
  destruct (key_ltb (key a) (key b)) eqn:E.
  - apply num_lt_key, key_ltb_lt, E.
  - apply num_lt_key_false, key_ltb_false, E.
Qed.

Lemma isnan_key (a : float) : isnan a = (fst (fst (key a)) =? 3)%Z.
Proof. destruct a as [[|]|[|]| |[|] m e]; reflexivity. Qed.

Lemma eqb_key_eqb (a b : float) : eqb a b = key_eqb (key a) (key b).
Proof.
  destruct (key_eqb (key a) (key b)) eqn:E.
  - apply eqb_key. rewrite !isnan_key.
    destruct (key a) as [[c e] m], (key b) as [[c' e'] m']. unfold key_eqb in E.
    rewrite !andb_true_iff, negb_true_iff, !Z.eqb_eq in E.
    destruct E as [[[Hc ->] ->] ->]. simpl. rewrite Hc. auto.
  - destruct (eqb a b) eqn:E'; [|reflexivity].
    apply eqb_key in E' as (Ha & Hb & Hk). rewrite isnan_key in Ha.
    rewrite <- Hk in E. destruct (key a) as [[c e] m]. simpl in Ha.
    unfold key_eqb in E. rewrite Ha, !Z.eqb_refl in E. discriminate.
Qed.



Lemma key_ltb_antisym (k k' : Z * Z * Z) :
  key_ltb k k' = false -> key_ltb k' k = false -> k = k'.
Proof.
  rewrite !key_ltb_false.
  destruct k as [[c e] m], k' as [[c' e'] m']. unfold key_lt.
  intros H1 H2. f_equal; [f_equal|]; lia.
Qed.

Lemma leb_key (a b : float) :
  leb a b = true
  <-> isnan a = false /\ isnan b = false /\ ~ key_lt (key b) (key a).
Proof.
  destruct a as [[|]|[|]| |[|] m1 e1], b as [[|]|[|]| |[|] m2 e2];
    unfold leb, SFleb, SFcompare, key, key_lt, isnan; simpl;
    try (split; [intros; try discriminate; repeat split; try reflexivity; lia
                | intros (? & ? & ?); try discriminate; try reflexivity; lia]).
  - destruct (finite_compare_neg m1 m2 e1 e2) as [Hc | Hc | Hc]; simpl;
      (split; [intros Hx; try discriminate; repeat split; try reflexivity; lia
              | intros (_ & _ & Hx); try reflexivity; exfalso; apply Hx; lia]).
  - destruct (finite_compare m1 m2 e1 e2) as [Hc | Hc | Hc]; simpl;
      (split; [intros Hx; try discriminate; repeat split; try reflexivity; lia
              | intros (_ & _ & Hx); try reflexivity; exfalso; apply Hx; lia]).
Qed.

Lemma ltb_key (a b : float) :
  ltb a b = true
  <-> isnan a = false /\ isnan b = false /\ key_lt (key a) (key b).
Proof.
  destruct a as [[|]|[|]| |[|] m1 e1], b as [[|]|[|]| |[|] m2 e2];
    unfold ltb, SFltb, SFcompare, key, key_lt, isnan; simpl;
    try (split; [intros; try discriminate; repeat split; try reflexivity; lia
                | intros (? & ? & ?); try discriminate; try reflexivity; lia]).
  - destruct (finite_compare_neg m1 m2 e1 e2) as [Hc | Hc | Hc]; simpl;
      (split; [intros Hx; try discriminate; repeat split; try reflexivity; lia
              | intros (_ & _ & Hx); try reflexivity; exfalso; lia]).
  - destruct (finite_compare m1 m2 e1 e2) as [Hc | Hc | Hc]; simpl;
      (split; [intros Hx; try discriminate; repeat split; try reflexivity; lia
              | intros (_ & _ & Hx); try reflexivity; exfalso; lia]).
Qed.

Lemma leb_trans (a b c : float) :
  leb a b = true -> leb b c = true -> leb a c = true.
Proof.
  rewrite !leb_key. intros (Na & Nb & Hab) (_ & Nc & Hbc).
  split; [exact Na|]. split; [exact Nc|].
  destruct (key a) as [[c1 e1] n1], (key b) as [[c2 e2] n2], (key c) as [[c3 e3] n3].
  unfold key_lt in *. lia.
Qed.

Lemma leb_total (a b : float) :
  isnan a = false -> isnan b = false -> leb a b = false -> leb b a = true.
Proof.
  intros Na Nb H. apply leb_key. split; [exact Nb|]. split; [exact Na|].
  intros Hlt. assert (Hab : leb a b = true); [|congruence].
  apply leb_key. split; [exact Na|]. split; [exact Nb|].
  destruct (key a) as [[c1 e1] n1], (key b) as [[c2 e2] n2].
  unfold key_lt in *. lia.
Qed.

Lemma ltb_leb (a b : float) : ltb a b = true -> leb a b = true.
Proof.
  rewrite ltb_key, leb_key. intros (Na & Nb & H).
  split; [exact Na|]. split; [exact Nb|].
  destruct (key a) as [[c1 e1] n1], (key b) as [[c2 e2] n2].
  unfold key_lt in *. lia.
Qed.

End B64Order.

(* ------------------------------------------------------------------ *)
(** ** binary64: rounding to nearest is monotone *)

Module B64Round.
Import B64.
Local Open Scope Z_scope.

Lemma pow2_pos (n : Z) : 0 <= n -> 0 < 2 ^ n.
Proof. intros. now apply Z.pow_pos_nonneg. Qed.

Lemma pow2_succ (n : Z) : 0 <= n -> 2 ^ (n + 1) = 2 * 2 ^ n.
Proof. intros. now rewrite Z.pow_add_r, Z.pow_1_r, Z.mul_comm by lia. Qed.

Lemma pow2_split (a b : Z) : 0 <= a <= b -> 2 ^ b = 2 ^ (b - a) * 2 ^ a.
Proof. intros. rewrite <- Z.pow_add_r by lia. f_equal. lia. Qed.

Lemma pow2_le (a b : Z) : 0 <= a <= b -> 2 ^ a <= 2 ^ b.
Proof. intros. apply Z.pow_le_mono_r; lia. Qed.

Lemma pow2_lt (a b : Z) : 0 <= a < b -> 2 ^ a < 2 ^ b.
Proof. intros. apply Z.pow_lt_mono_r; lia. Qed.

Lemma pow2_lt_inv (a b : Z) : 0 <= a -> 0 <= b -> 2 ^ a < 2 ^ b -> a < b.
Proof.
  intros Ha Hb H. destruct (Z_lt_le_dec a b) as [|Hle]; [assumption|].
  pose proof (pow2_le b a ltac:(lia)). lia.
Qed.

Lemma digits_bounds (m : positive) :
  2 ^ (Z.pos (digits2_pos m) - 1) <= Z.pos m < 2 ^ Z.pos (digits2_pos m).
Proof.
  induction m as [m IH | m IH |]; cbn [digits2_pos].
  - rewrite Pos2Z.inj_succ, Pos2Z.inj_xI.
    replace (Z.succ (Z.pos (digits2_pos m)) - 1) with (Z.pos (digits2_pos m) - 1 + 1) by lia.
    unfold Z.succ. rewrite !pow2_succ by lia. lia.
  - rewrite Pos2Z.inj_succ, Pos2Z.inj_xO.
    replace (Z.succ (Z.pos (digits2_pos m)) - 1) with (Z.pos (digits2_pos m) - 1 + 1) by lia.
    unfold Z.succ. rewrite !pow2_succ by lia. lia.
  - cbn. lia.
Qed.

Lemma digits_below (m : positive) (k : Z) :
  0 <= k -> Z.pos m < 2 ^ k -> Z.pos (digits2_pos m) <= k.
Proof.
  intros Hk H. pose proof (digits_bounds m) as [Hlo _].
  assert (2 ^ (Z.pos (digits2_pos m) - 1) < 2 ^ k) by lia.
  apply pow2_lt_inv in H0; lia.
Qed.

Lemma digits_above (m : positive) (k : Z) :
  0 <= k -> 2 ^ k <= Z.pos m -> k + 1 <= Z.pos (digits2_pos m).
Proof.
  intros Hk H. pose proof (digits_bounds m) as [_ Hhi].
  assert (2 ^ k < 2 ^ Z.pos (digits2_pos m)) by lia.
  apply pow2_lt_inv in H0; lia.
Qed.

Lemma digits_unique (m : positive) (k : Z) :
  1 <= k -> 2 ^ (k - 1) <= Z.pos m < 2 ^ k -> Z.pos (digits2_pos m) = k.
Proof.
  intros Hk [Hlo Hhi].
  pose proof (digits_below m k ltac:(lia) Hhi). pose proof (digits_above m (k - 1) ltac:(lia) Hlo). lia.
Qed.

Lemma digits_shifted (m mz : positive) (k : Z) :
  0 <= k -> Z.pos mz = Z.pos m * 2 ^ k ->
  Z.pos (digits2_pos mz) = Z.pos (digits2_pos m) + k.
Proof.
  intros Hk E. apply digits_unique; [lia|]. rewrite E.
  pose proof (digits_bounds m) as [Hlo Hhi]. pose proof (pow2_pos k Hk).
  replace (Z.pos (digits2_pos m) + k - 1) with (Z.pos (digits2_pos m) - 1 + k) by lia.
  rewrite !Z.pow_add_r by lia. nia.
Qed.


Lemma rnd_euclid (m n q r : Z) :
  0 <= n -> m = q * 2 ^ n + r -> 0 <= r < 2 ^ n -> rnd m n = pick q r (2 ^ n).
Proof.
  intros Hn E Hr. unfold rnd.
  destruct (n <? 0) eqn:En; [apply Z.ltb_lt in En; lia|].
  assert (Eq : m / 2 ^ n = q).
  { symmetry. apply (Z.div_unique_pos m (2 ^ n) q r); lia. }
  assert (Er : m mod 2 ^ n = r).
  { symmetry. apply (Z.mod_unique_pos m (2 ^ n) q r); lia. }
  rewrite Eq, Er. reflexivity.
Qed.

Lemma rnd_decompose (m n : Z) :
  0 <= n -> exists q r, m = q * 2 ^ n + r /\ 0 <= r < 2 ^ n
                        /\ rnd m n = pick q r (2 ^ n).
Proof.
  intros Hn. pose proof (pow2_pos n Hn) as HP.
  exists (m / 2 ^ n), (m mod 2 ^ n).
  pose proof (Z.div_mod m (2 ^ n) ltac:(lia)).
  pose proof (Z.mod_pos_bound m (2 ^ n) HP).
  split; [lia|]. split; [assumption|].
  apply rnd_euclid; [assumption | lia | assumption].
Qed.

Lemma pick_range (q r P : Z) : q <= pick q r P <= q + 1.
Proof. unfold pick. destruct (2 * r ?= P); [destruct (Z.even q)| |]; lia. Qed.

Lemma pick_zero (q P : Z) : 0 < P -> pick q 0 P = q.
Proof. intros. unfold pick. now replace (2 * 0 ?= P) with Lt by (symmetry; apply Z.compare_lt_iff; lia). Qed.

Lemma pick_mono (q r r' P : Z) : r <= r' -> pick q r P <= pick q r' P.
Proof.
  intros. unfold pick.
  destruct (Z.compare_spec (2 * r) P), (Z.compare_spec (2 * r') P);
    destruct (Z.even q); lia.
Qed.

Lemma rnd_exact (K n : Z) : 0 <= n -> rnd (K * 2 ^ n) n = K.
Proof.
  intros Hn. rewrite (rnd_euclid (K * 2 ^ n) n K 0); try lia.
  apply pick_zero, pow2_pos, Hn.
Qed.

Lemma rnd_mono (m m' n : Z) : m <= m' -> rnd m n <= rnd m' n.
Proof.
  intros Hm. destruct (Z_lt_le_dec n 0) as [Hn | Hn].
  - unfold rnd. replace (n <? 0) with true by (symmetry; apply Z.ltb_lt; lia).
    pose proof (pow2_pos (- n) ltac:(lia)). nia.
  - destruct (rnd_decompose m n Hn) as (q & r & E & Hr & ->).
    destruct (rnd_decompose m' n Hn) as (q' & r' & E' & Hr' & ->).
    pose proof (pick_range q r (2 ^ n)). pose proof (pick_range q' r' (2 ^ n)).
    destruct (Z_lt_le_dec q q') as [Hq | Hq]; [lia|].
    assert (q = q') by nia. subst q'.
    apply pick_mono. lia.
Qed.

Lemma rnd_scale (m n k : Z) : 0 <= k -> rnd (m * 2 ^ k) (n + k) = rnd m n.
Proof.
  intros Hk. destruct (Z_lt_le_dec n 0) as [Hn | Hn].
  - unfold rnd at 2. replace (n <? 0) with true by (symmetry; apply Z.ltb_lt; lia).
    destruct (Z_lt_le_dec (n + k) 0) as [Hnk | Hnk].
    + unfold rnd. replace (n + k <? 0) with true by (symmetry; apply Z.ltb_lt; lia).
      rewrite <- Z.mul_assoc, <- Z.pow_add_r by lia. do 2 f_equal. lia.
    + replace (m * 2 ^ k) with (m * 2 ^ (- n) * 2 ^ (n + k)).
      * now apply rnd_exact.
      * rewrite <- Z.mul_assoc, <- Z.pow_add_r by lia. do 2 f_equal. lia.
  - destruct (rnd_decompose m n Hn) as (q & r & E & Hr & ->).
    pose proof (pow2_pos k Hk) as HK. pose proof (pow2_pos n Hn) as HN.
    rewrite (rnd_euclid (m * 2 ^ k) (n + k) q (r * 2 ^ k)); try lia.
    + rewrite Z.pow_add_r by lia. unfold pick.
      destruct (Z.compare_spec (2 * r) (2 ^ n)),
               (Z.compare_spec (2 * (r * 2 ^ k)) (2 ^ n * 2 ^ k));
        try reflexivity; nia.
    + rewrite Z.pow_add_r by lia. rewrite E. ring.
    + rewrite Z.pow_add_r by lia. nia.
Qed.

Lemma rnd_at_least (K m n : Z) : 0 <= n -> K * 2 ^ n <= m -> K <= rnd m n.
Proof. intros Hn H. rewrite <- (rnd_exact K n Hn). now apply rnd_mono. Qed.

Lemma rnd_at_most (K m n : Z) : 0 <= n -> m <= K * 2 ^ n -> rnd m n <= K.
Proof. intros Hn H. rewrite <- (rnd_exact K n Hn). now apply rnd_mono. Qed.

Lemma rnd_unshifted (m : Z) : rnd m 0 = m.
Proof. rewrite <- (rnd_exact m 0) at 2 by lia. f_equal. cbn. lia. Qed.

Lemma iter_pos_nat {A : Type} (f : A -> A) (p : positive) : forall x,
  SpecFloat.iter_pos f p x = Nat.iter (Pos.to_nat p) f x.
Proof.
  induction p as [p IH | p IH |]; intros x; cbn [SpecFloat.iter_pos].
  - rewrite !IH, Pos2Nat.inj_xI.
    replace (S (2 * Pos.to_nat p))%nat with (Pos.to_nat p + (Pos.to_nat p + 1))%nat by lia.
    now rewrite !Nat.iter_add.
  - rewrite !IH, Pos2Nat.inj_xO.
    replace (2 * Pos.to_nat p)%nat with (Pos.to_nat p + Pos.to_nat p)%nat by lia.
    now rewrite Nat.iter_add.
  - reflexivity.
Qed.

Lemma shr_1_spec (m : Z) (r s : bool) :
  0 <= m ->
  shr_1 (Build_shr_record m r s)
  = Build_shr_record (m / 2) (Z.odd m) (r || s).
Proof.
  intros Hm. destruct m as [|[p|p|]|p]; try lia; cbn [shr_1].
  - reflexivity.
  - f_equal. rewrite Pos2Z.inj_xI.
    apply (Z.div_unique_pos _ 2 _ 1); lia.
  - f_equal. rewrite Pos2Z.inj_xO.
    apply (Z.div_unique_pos _ 2 _ 0); lia.
  - reflexivity.
Qed.

(** What [k + 1] right shifts keep of [m]: the quotient, the bit just
    below it and whether anything lies below that bit. *)
Lemma shr_iterated (m : Z) (k : nat) :
  0 <= m ->
  exists q t,
    Nat.iter (S k) shr_1 (Build_shr_record m false false)
    = Build_shr_record q (Z.odd (m / 2 ^ Z.of_nat k)) (negb (t =? 0))
    /\ 0 <= q /\ 0 <= t < 2 ^ Z.of_nat k
    /\ m = q * 2 ^ (Z.of_nat k + 1)
           + (if Z.odd (m / 2 ^ Z.of_nat k) then 2 ^ Z.of_nat k else 0) + t.
Proof.
  intros Hm. induction k as [|k IH].
  - exists (m / 2), 0. cbn [Nat.iter]. rewrite shr_1_spec by assumption.
    change (2 ^ Z.of_nat 0) with 1. rewrite Z.div_1_r. cbn [orb Z.eqb negb].
    split; [reflexivity|]. split; [apply Z.div_pos; lia|]. split; [lia|].
    change (2 ^ (Z.of_nat 0 + 1)) with 2.
    pose proof (Z.div_mod m 2 ltac:(lia)) as E.
    rewrite Zmod_odd in E. destruct (Z.odd m); lia.
  - destruct IH as (q & t & E & Hq & Ht & Em).
    set (b := Z.odd (m / 2 ^ Z.of_nat k)) in *.
    exists (q / 2), ((if b then 2 ^ Z.of_nat k else 0) + t).
    rewrite Nat.iter_succ, E, shr_1_spec by assumption.
    pose proof (pow2_pos (Z.of_nat k) ltac:(lia)) as HP.
    rewrite Nat2Z.inj_succ. unfold Z.succ.
    rewrite !pow2_succ by lia. rewrite pow2_succ in Em by lia.
    assert (Eq : m / (2 * 2 ^ Z.of_nat k) = q).
    { symmetry.
      apply (Z.div_unique_pos _ _ _ ((if b then 2 ^ Z.of_nat k else 0) + t));
        destruct b; lia. }
    rewrite Eq.
    pose proof (Z.div_mod q 2 ltac:(lia)) as Eh. rewrite Zmod_odd in Eh.
    split.
    + f_equal. destruct b; cbn [orb].
      * symmetry. apply negb_true_iff, Z.eqb_neq. lia.
      * reflexivity.
    + split; [apply Z.div_pos; lia|]. split; [destruct b; lia|].
      destruct (Z.odd q), b; nia.
Qed.

(** Shifting right and rounding the kept bits is [rnd]. *)
Lemma shr_round (m : Z) (p : positive) :
  0 <= m ->
  let mrs := SpecFloat.iter_pos shr_1 p (Build_shr_record m false false) in
  round_nearest_even (shr_m mrs) (loc_of_shr_record mrs) = rnd m (Z.pos p).
Proof.
  intros Hm mrs. subst mrs. rewrite iter_pos_nat.
  destruct (Pos2Nat.is_succ p) as [k Ek]. rewrite Ek.
  destruct (shr_iterated m k Hm) as (q & t & -> & Hq & Ht & Em).
  assert (Ep : Z.pos p = Z.of_nat k + 1) by lia.
  rewrite Ep.
  pose proof (pow2_pos (Z.of_nat k) ltac:(lia)) as HP.
  set (b := Z.odd (m / 2 ^ Z.of_nat k)) in *.
  rewrite (rnd_euclid m (Z.of_nat k + 1) q ((if b then 2 ^ Z.of_nat k else 0) + t));
    [| lia | lia | rewrite pow2_succ by lia; destruct b; lia].
  rewrite pow2_succ by lia. unfold pick. cbn [shr_m loc_of_shr_record].
  destruct b.
  - destruct (Z.eqb_spec t 0) as [-> | Hne]; cbn [negb round_nearest_even].
    + replace (2 * (2 ^ Z.of_nat k + 0) ?= 2 * 2 ^ Z.of_nat k) with Eq
        by (symmetry; apply Z.compare_eq_iff; lia).
      reflexivity.
    + replace (2 * (2 ^ Z.of_nat k + t) ?= 2 * 2 ^ Z.of_nat k) with Gt
        by (symmetry; apply Z.compare_gt_iff; lia).
      reflexivity.
  - replace (2 * (0 + t) ?= 2 * 2 ^ Z.of_nat k) with Lt
      by (symmetry; apply Z.compare_lt_iff; lia).
    destruct (negb (t =? 0)); reflexivity.
Qed.

Lemma fexp_eq (d : Z) : SpecFloat.fexp prec emax d = fexp d.
Proof. reflexivity. Qed.


Lemma bounded_inv (m : positive) (e : Z) :
  bounded prec emax m e = true ->
  -1074 <= e <= 971 /\ Z.pos m < 2 ^ 53 /\ (-1074 < e -> 2 ^ 52 <= Z.pos m).
Proof.
  unfold bounded, canonical_mantissa. rewrite fexp_eq. unfold fexp.
  intros H. apply andb_true_iff in H as [H1 H2].
  apply Z.eqb_eq in H1. apply Z.leb_le in H2. change (emax - prec) with 971 in H2.
  pose proof (digits_bounds m) as [Hlo Hhi].
  split; [lia|]. split.
  - eapply Z.lt_le_trans; [exact Hhi|]. apply pow2_le. lia.
  - intros He. replace (Z.pos (digits2_pos m)) with 53 in Hlo by lia. exact Hlo.
Qed.

Lemma bounded_intro (m : positive) (e : Z) :
  -1074 <= e <= 971 -> Z.pos m < 2 ^ 53 -> (-1074 < e -> 2 ^ 52 <= Z.pos m) ->
  bounded prec emax m e = true.
Proof.
  intros He Hhi Hlo. unfold bounded, canonical_mantissa. rewrite fexp_eq. unfold fexp.
  apply andb_true_iff. split; [|apply Z.leb_le; change (emax - prec) with 971; lia].
  apply Z.eqb_eq.
  pose proof (digits_below m 53 ltac:(lia) Hhi).
  destruct (Z.eq_dec e (-1074)) as [-> | Hne]; [lia|].
  pose proof (digits_above m 52 ltac:(lia) (Hlo ltac:(lia))). lia.
Qed.

Lemma shr_nonpos (mrs : shr_record) (e n : Z) : n <= 0 -> shr mrs e n = (mrs, e).
Proof. destruct n; [reflexivity | lia | reflexivity]. Qed.

(** The first shift and the rounding of what it drops. *)
Lemma stage_one (m : positive) (e : Z) :
  let E := fexp (Z.pos (digits2_pos m) + e) in
  e <= E ->
  exists mrs,
    shr_fexp prec emax (Z.pos m) e loc_Exact = (mrs, E)
    /\ round_nearest_even (shr_m mrs) (loc_of_shr_record mrs) = rnd (Z.pos m) (E - e).
Proof.
  intros E He. unfold shr_fexp. cbn [Zdigits2 shr_record_of_loc].
  rewrite fexp_eq. fold E.
  destruct (E - e) as [|p|p] eqn:En; try lia.
  - exists (Build_shr_record (Z.pos m) false false).
    split; [cbn [shr]; f_equal; lia|].
    cbn [shr_m loc_of_shr_record round_nearest_even]. now rewrite rnd_unshifted.
  - exists (SpecFloat.iter_pos shr_1 p (Build_shr_record (Z.pos m) false false)).
    split; [cbn [shr]; f_equal; lia|].
    apply shr_round. lia.
Qed.

(** The rounded mantissa has at most one digit too many. *)
Lemma rounded_range (m : positive) (e : Z) :
  let E := fexp (Z.pos (digits2_pos m) + e) in
  e <= E ->
  0 <= rnd (Z.pos m) (E - e) <= 2 ^ 53
  /\ (-1074 < E -> 2 ^ 52 <= rnd (Z.pos m) (E - e)).
Proof.
  intros E He. pose proof (digits_bounds m) as [Hlo Hhi].
  set (d := Z.pos (digits2_pos m)) in *.
  assert (Hd : 1 <= d) by (subst d; lia).
  assert (HE : d + e - 53 <= E /\ -1074 <= E) by (subst E; unfold fexp; lia).
  pose proof (pow2_pos (E - e) ltac:(lia)) as HP.
  split; [split|].
  - apply (rnd_at_least 0); lia.
  - apply rnd_at_most; [lia|].
    rewrite <- Z.pow_add_r by lia.
    pose proof (pow2_le d (53 + (E - e)) ltac:(lia)). lia.
  - intros Hn. assert (E = d + e - 53) by (subst E; unfold fexp in *; lia).
    apply rnd_at_least; [lia|].
    rewrite <- Z.pow_add_r by lia.
    replace (52 + (E - e)) with (d - 1) by lia. exact Hlo.
Qed.

(** The second shift: one digit is dropped when rounding carried. *)
Lemma stage_two (s : bool) (q E : Z) :
  0 <= q <= 2 ^ 53 -> -1074 <= E -> (-1074 < E -> 2 ^ 52 <= q) ->
  let x :=
    let '(mrs, e) := shr_fexp prec emax q E loc_Exact in
    match shr_m mrs with
    | Z0 => S754_zero s
    | Z.pos m => if e <=? emax - prec then S754_finite s m e else S754_infinity s
    | Z.neg _ => S754_nan
    end in
  valid_binary prec emax x = true /\ signed s x
  /\ rank x = Z.min ((E + 1074) * 2 ^ 52 + q) top.
Proof.
  intros Hq HE Hn. unfold shr_fexp. rewrite fexp_eq.
  change (emax - prec) with 971. change top with (2047 * 2 ^ 52).
  destruct q as [|p|p]; [| |lia].
  - cbn [Zdigits2 shr_record_of_loc]. rewrite shr_nonpos by (unfold fexp; lia).
    cbn [shr_m]. cbn [valid_binary signed rank].
    assert (E = -1074) by (change (2 ^ 52) with 4503599627370496 in Hn; lia).
    subst E. repeat split; reflexivity.
  - destruct (Z.eq_dec (Z.pos p) (2 ^ 53)) as [Ep | Hne].
    + change (2 ^ 53) with (Z.pos 9007199254740992) in Ep.
      injection Ep as ->.
      cbn [Zdigits2 shr_record_of_loc].
      change (Z.pos (digits2_pos 9007199254740992)) with 54.
      replace (fexp (54 + E) - E) with 1 by (unfold fexp; lia).
      cbn [shr SpecFloat.iter_pos shr_1 shr_m].
      destruct (Z.leb_spec (E + 1) 971) as [Hle | Hgt].
      * split; [|split; [reflexivity|]].
        -- cbn [valid_binary]. apply bounded_intro; [lia | reflexivity | ].
           intros _. cbn. lia.
        -- cbn [rank]. change (2 ^ 52) with 4503599627370496.
           change (2 ^ 53) with 9007199254740992. lia.
      * split; [reflexivity|]. split; [reflexivity|].
        cbn [rank]. change top with (2047 * 2 ^ 52).
        change (2 ^ 52) with 4503599627370496.
        change (2 ^ 53) with 9007199254740992. lia.
    + assert (Hlt : Z.pos p < 2 ^ 53) by lia.
      pose proof (digits_below p 53 ltac:(lia) Hlt) as Hd.
      cbn [Zdigits2 shr_record_of_loc].
      rewrite shr_nonpos by (unfold fexp; lia). cbn [shr_m].
      change (2 ^ 52) with 4503599627370496 in *.
      change (2 ^ 53) with 9007199254740992 in *.
      destruct (Z.leb_spec E 971) as [Hle | Hgt].
      * split; [|split; [reflexivity|]].
        -- cbn [valid_binary]. apply bounded_intro; [lia | exact Hlt | exact Hn].
        -- cbn [rank]. change (2 ^ 52) with 4503599627370496. lia.
      * split; [reflexivity|]. split; [reflexivity|].
        cbn [rank]. change top with (2047 * 2 ^ 52).
        change (2 ^ 52) with 4503599627370496. lia.
Qed.

(** B64Round a non-zero mantissa already shifted far enough. *)
Lemma round_aux_spec (s : bool) (m : positive) (e : Z) :
  e <= fexp (Z.pos (digits2_pos m) + e) ->
  let x := binary_round_aux prec emax s (Z.pos m) e loc_Exact in
  valid_binary prec emax x = true /\ signed s x
  /\ rank x = Z.min (rank_of m e) top.
Proof.
  intros He. unfold binary_round_aux.
  destruct (stage_one m e He) as (mrs & -> & ->).
  destruct (rounded_range m e He) as [Hq Hn].
  apply stage_two; [exact Hq | unfold fexp; lia | exact Hn].
Qed.

Lemma iter_xO (d m : positive) : Z.pos (Pos.iter xO m d) = Z.pos m * 2 ^ Z.pos d.
Proof.
  induction d as [|d IH] using Pos.peano_ind.
  - cbn [Pos.iter]. rewrite Pos2Z.inj_xO. change (2 ^ 1) with 2. lia.
  - rewrite Pos.iter_succ, Pos2Z.inj_xO, IH, Pos2Z.inj_succ.
    unfold Z.succ. rewrite pow2_succ by lia. lia.
Qed.

Lemma shl_align_spec (m : positive) (e e' : Z) :
  snd (shl_align m e e') = Z.min e e'
  /\ Z.pos (fst (shl_align m e e')) = Z.pos m * 2 ^ (e - Z.min e e').
Proof.
  unfold shl_align. destruct (e' - e) as [|d|d] eqn:Ed; cbn [fst snd].
  - replace (Z.min e e') with e by lia. rewrite Z.sub_diag. cbn. lia.
  - replace (Z.min e e') with e by lia. rewrite Z.sub_diag. cbn. lia.
  - replace (Z.min e e') with e' by lia. split; [reflexivity|].
    rewrite iter_xO. do 2 f_equal. lia.
Qed.

Lemma rank_range (m : positive) (e : Z) :
  let E := fexp (Z.pos (digits2_pos m) + e) in
  0 <= rnd (Z.pos m) (E - e) <= 2 ^ 53
  /\ (-1074 < E -> 2 ^ 52 <= rnd (Z.pos m) (E - e)).
Proof.
  intros E. destruct (Z_lt_le_dec (E - e) 0) as [Hneg | Hpos].
  - pose proof (digits_bounds m) as [Hlo Hhi].
    set (d := Z.pos (digits2_pos m)) in *.
    assert (Hd : 1 <= d) by (subst d; lia).
    assert (HE : d + e - 53 <= E /\ -1074 <= E) by (subst E; unfold fexp; lia).
    unfold rnd. replace (E - e <? 0) with true by (symmetry; apply Z.ltb_lt; lia).
    pose proof (pow2_pos (- (E - e)) ltac:(lia)) as HP.
    split; [split|].
    + lia.
    + pose proof (pow2_le (d + - (E - e)) 53 ltac:(lia)) as Hle.
      rewrite Z.pow_add_r in Hle by lia. nia.
    + intros Hn. assert (HEq : E = d + e - 53) by (subst E; unfold fexp in *; lia).
      replace 52 with (d - 1 + - (E - e)) by lia.
      rewrite Z.pow_add_r by lia. nia.
  - apply rounded_range. lia.
Qed.

Lemma rank_shift (m mz : positive) (e k : Z) :
  0 <= k -> Z.pos mz = Z.pos m * 2 ^ k -> rank_of mz (e - k) = rank_of m e.
Proof.
  intros Hk E. unfold rank_of.
  rewrite (digits_shifted m mz k Hk E).
  replace (Z.pos (digits2_pos m) + k + (e - k)) with (Z.pos (digits2_pos m) + e) by lia.
  f_equal. rewrite E.
  replace (fexp (Z.pos (digits2_pos m) + e) - (e - k))
    with (fexp (Z.pos (digits2_pos m) + e) - e + k) by lia.
  now apply rnd_scale.
Qed.

Lemma rank_mono_aligned (m1 m2 : positive) (e : Z) :
  (m1 <= m2)%positive -> rank_of m1 e <= rank_of m2 e.
Proof.
  intros Hm. unfold rank_of.
  pose proof (digits_bounds m1) as [Hlo1 _]. pose proof (digits_bounds m2) as [_ Hhi2].
  assert (Hd : Z.pos (digits2_pos m1) <= Z.pos (digits2_pos m2)).
  { assert (2 ^ (Z.pos (digits2_pos m1) - 1) < 2 ^ Z.pos (digits2_pos m2)) by lia.
    apply pow2_lt_inv in H; lia. }
  destruct (rank_range m1 e) as [[_ Hhi] _]. destruct (rank_range m2 e) as [_ Hlo].
  set (E1 := fexp (Z.pos (digits2_pos m1) + e)) in *.
  set (E2 := fexp (Z.pos (digits2_pos m2) + e)) in *.
  assert (HE : E1 <= E2 /\ -1074 <= E1) by (subst E1 E2; unfold fexp; lia).
  destruct (Z.eq_dec E1 E2) as [<- | Hne].
  - apply Z.add_le_mono_l, rnd_mono. lia.
  - specialize (Hlo ltac:(lia)).
    change (2 ^ 52) with 4503599627370496 in *.
    change (2 ^ 53) with 9007199254740992 in *. lia.
Qed.

(** B64Round is monotone in the value [m * 2^e]. *)
Lemma rank_mono (m1 m2 : positive) (e1 e2 e0 : Z) :
  e0 <= e1 -> e0 <= e2 ->
  Z.pos m1 * 2 ^ (e1 - e0) <= Z.pos m2 * 2 ^ (e2 - e0) ->
  rank_of m1 e1 <= rank_of m2 e2.
Proof.
  intros H1 H2 Hle.
  pose proof (pow2_pos (e1 - e0) ltac:(lia)) as P1.
  pose proof (pow2_pos (e2 - e0) ltac:(lia)) as P2.
  assert (E1 : Z.pos (Z.to_pos (Z.pos m1 * 2 ^ (e1 - e0))) = Z.pos m1 * 2 ^ (e1 - e0))
    by (apply Z2Pos.id; nia).
  assert (E2 : Z.pos (Z.to_pos (Z.pos m2 * 2 ^ (e2 - e0))) = Z.pos m2 * 2 ^ (e2 - e0))
    by (apply Z2Pos.id; nia).
  rewrite <- (rank_shift m1 _ e1 (e1 - e0) ltac:(lia) E1).
  rewrite <- (rank_shift m2 _ e2 (e2 - e0) ltac:(lia) E2).
  replace (e1 - (e1 - e0)) with e0 by lia. replace (e2 - (e2 - e0)) with e0 by lia.
  apply rank_mono_aligned. lia.
Qed.

(** A number that is written canonically is its own rounding. *)
Lemma rank_canonical (m : positive) (e : Z) :
  bounded prec emax m e = true -> rank_of m e = (e + 1074) * 2 ^ 52 + Z.pos m.
Proof.
  intros H. unfold rank_of.
  unfold bounded, canonical_mantissa in H. apply andb_true_iff in H as [H _].
  apply Z.eqb_eq in H. rewrite fexp_eq in H. rewrite H, Z.sub_diag.
  now rewrite rnd_unshifted.
Qed.

(** [binary_round] on any mantissa and exponent. *)
Lemma round_spec (s : bool) (m : positive) (e : Z) :
  let x := binary_round prec emax s m e in
  valid_binary prec emax x = true /\ signed s x
  /\ rank x = Z.min (rank_of m e) top.
Proof.
  unfold binary_round. rewrite fexp_eq.
  set (E := fexp (Z.pos (digits2_pos m) + e)).
  destruct (shl_align_spec m e E) as [He Em].
  destruct (shl_align m e E) as [mz ez]. cbn [fst snd] in He, Em.
  rewrite <- He in Em.
  assert (Hr : rank_of mz ez = rank_of m e).
  { replace ez with (e - (e - ez)) at 1 by lia. apply rank_shift; [lia | exact Em]. }
  rewrite <- Hr. apply round_aux_spec.
  rewrite (digits_shifted m mz (e - ez) ltac:(lia) Em).
  replace (Z.pos (digits2_pos m) + (e - ez) + ez) with (Z.pos (digits2_pos m) + e) by lia.
  fold E. lia.
Qed.

End B64Round.

(* ------------------------------------------------------------------ *)
(** ** binary64: the order and the operations on finite values *)

Module B64Value.
Import B64 B64Round.
Local Open Scope Z_scope.

Lemma sc_sc (m e e1 e0 : Z) :
  e0 <= e1 -> e1 <= e -> sc (sc m e e1) e1 e0 = sc m e e0.
Proof.
  intros. unfold sc. rewrite <- Z.mul_assoc, <- Z.pow_add_r by lia.
  do 2 f_equal. lia.
Qed.

Lemma sc_same (m e : Z) : sc m e e = m.
Proof. unfold sc. rewrite Z.sub_diag. cbn. lia. Qed.

Lemma sc_add (a b e e0 : Z) : sc (a + b) e e0 = sc a e e0 + sc b e e0.
Proof. unfold sc. ring. Qed.

Lemma sc_sub (a b e e0 : Z) : sc (a - b) e e0 = sc a e e0 - sc b e e0.
Proof. unfold sc. ring. Qed.

Lemma sc_zero (e e0 : Z) : sc 0 e e0 = 0.
Proof. reflexivity. Qed.

Lemma sc_le (a b e e0 : Z) : e0 <= e -> (a <= b <-> sc a e e0 <= sc b e e0).
Proof.
  intros. unfold sc. pose proof (pow2_pos (e - e0) ltac:(lia)). split; nia.
Qed.

Lemma sc_pos (a e e0 : Z) : e0 <= e -> (0 < a <-> 0 < sc a e e0).
Proof.
  intros. unfold sc. pose proof (pow2_pos (e - e0) ltac:(lia)). split; nia.
Qed.

(** The order of two values can be read at any common smaller
    exponent. *)
Lemma dle_at (m1 e1 m2 e2 e0 : Z) :
  e0 <= e1 -> e0 <= e2 ->
  (dle m1 e1 m2 e2 <-> sc m1 e1 e0 <= sc m2 e2 e0).
Proof.
  intros H1 H2. unfold dle. set (z := Z.min e1 e2).
  rewrite <- (sc_sc m1 e1 z e0), <- (sc_sc m2 e2 z e0) by lia.
  apply sc_le. lia.
Qed.

Lemma dle_refl (m e : Z) : dle m e m e.
Proof. unfold dle. lia. Qed.

Lemma dle_trans (m1 e1 m2 e2 m3 e3 : Z) :
  dle m1 e1 m2 e2 -> dle m2 e2 m3 e3 -> dle m1 e1 m3 e3.
Proof.
  set (e0 := Z.min e1 (Z.min e2 e3)).
  rewrite (dle_at m1 e1 m2 e2 e0), (dle_at m2 e2 m3 e3 e0), (dle_at m1 e1 m3 e3 e0) by lia.
  lia.
Qed.

Lemma vrank_range (m e : Z) : 0 <= vrank m e <= top.
Proof.
  unfold vrank. destruct m as [|p|p]; try (change top with (2047 * 2 ^ 52); cbn; lia).
  destruct (rank_range p e) as [[H _] _]. unfold rank_of.
  assert (-1074 <= fexp (Z.pos (digits2_pos p) + e)) by (unfold fexp; lia).
  change top with (2047 * 2 ^ 52). change (2 ^ 52) with 4503599627370496 in *. lia.
Qed.

Lemma vrank_mono (m1 e1 m2 e2 : Z) :
  dle m1 e1 m2 e2 -> vrank m1 e1 <= vrank m2 e2.
Proof.
  intros H. destruct m1 as [|p1|p1]; try apply vrank_range.
  unfold dle in H.
  assert (0 < sc (Z.pos p1) e1 (Z.min e1 e2)) by (apply sc_pos; lia).
  assert (Hpos : 0 < m2).
  { apply (sc_pos m2 e2 (Z.min e1 e2)); lia. }
  destruct m2 as [|p2|p2]; try lia.
  unfold vrank. apply Z.min_le_compat_r.
  apply (rank_mono p1 p2 e1 e2 (Z.min e1 e2)); [lia | lia | exact H].
Qed.

Lemma vrank_shift (m e e0 : Z) : e0 <= e -> vrank (sc m e e0) e0 = vrank m e.
Proof.
  intros H. apply Z.le_antisymm; apply vrank_mono.
  - apply (dle_at _ _ _ _ e0); [lia | lia |]. rewrite sc_same. lia.
  - apply (dle_at _ _ _ _ e0); [lia | lia |]. rewrite sc_same. lia.
Qed.


Lemma number_nonneg_cases (x : float) :
  number x = true -> nonneg x ->
  (exists s, x = S754_zero s)
  \/ (exists m e, x = S754_finite false m e /\ bounded prec emax m e = true)
  \/ x = S754_infinity false.
Proof.
  unfold number, valid, nonneg, leb, SFleb.
  destruct x as [s | [|] | | [|] m e]; cbn; intros Hv Hn; try discriminate.
  - left. now exists s.
  - right. right. reflexivity.
  - right. left. exists m, e. split; [reflexivity|].
    now rewrite andb_true_r in Hv.
Qed.

Lemma finite_cases (x : float) :
  finite x = true ->
  (exists s, x = S754_zero s)
  \/ (exists s m e, x = S754_finite s m e /\ bounded prec emax m e = true).
Proof.
  unfold finite, valid. destruct x as [s | s | | s m e]; cbn; intros H;
    try (rewrite andb_false_r in H); try discriminate.
  - left. now exists s.
  - right. exists s, m, e. split; [reflexivity|]. now rewrite andb_true_r in H.
Qed.

Lemma finite_number (x : float) : finite x = true -> number x = true.
Proof.
  intros H. destruct (finite_cases x H) as [[s ->] | (s & m & e & -> & Hb)].
  - reflexivity.
  - unfold number, valid. cbn. now rewrite Hb.
Qed.

Lemma rank_bounded (s : bool) (m : positive) (e : Z) :
  bounded prec emax m e = true -> 0 < rank (S754_finite s m e) < top.
Proof.
  intros H. apply bounded_inv in H as (He & Hm & _). cbn [rank].
  change top with (2047 * 2 ^ 52).
  change (2 ^ 52) with 4503599627370496 in *.
  change (2 ^ 53) with 9007199254740992 in *. lia.
Qed.

Lemma compare_rank (m1 m2 : positive) (e1 e2 : Z) :
  bounded prec emax m1 e1 = true -> bounded prec emax m2 e2 = true ->
  match e1 ?= e2 with
  | Lt => Lt
  | Gt => Gt
  | Eq => Pos.compare_cont Eq m1 m2
  end = (rank (S754_finite false m1 e1) ?= rank (S754_finite false m2 e2)).
Proof.
  intros H1 H2.
  apply bounded_inv in H1 as (He1 & Hm1 & Hn1).
  apply bounded_inv in H2 as (He2 & Hm2 & Hn2).
  cbn [rank]. change (Pos.compare_cont Eq m1 m2) with (Z.pos m1 ?= Z.pos m2).
  change (2 ^ 52) with 4503599627370496 in *.
  change (2 ^ 53) with 9007199254740992 in *.
  symmetry.
  destruct (Z.compare_spec e1 e2) as [-> | Hlt | Hgt].
  - destruct (Z.compare_spec (Z.pos m1) (Z.pos m2)) as [E | Hlt | Hgt].
    + rewrite E. apply Z.compare_refl.
    + apply Z.compare_lt_iff. lia.
    + apply Z.compare_gt_iff. lia.
  - apply Z.compare_lt_iff. specialize (Hn2 ltac:(lia)). lia.
  - apply Z.compare_gt_iff. specialize (Hn1 ltac:(lia)). lia.
Qed.

(** On numbers that are not below zero the order is that of the
    ranks. *)
Lemma leb_rank (x y : float) :
  number x = true -> number y = true -> nonneg x -> nonneg y ->
  leb x y = (rank x <=? rank y).
Proof.
  intros Nx Ny Px Py.
  destruct (number_nonneg_cases x Nx Px) as [[sx ->] | [(mx & ex & -> & Bx) | ->]];
  destruct (number_nonneg_cases y Ny Py) as [[sy ->] | [(my & ey & -> & By) | ->]];
    try reflexivity.
  - pose proof (rank_bounded false my ey By). unfold leb, SFleb. cbn [SFcompare rank] in *.
    symmetry. apply Z.leb_le. lia.
  - pose proof (rank_bounded false mx ex Bx). unfold leb, SFleb. cbn [SFcompare rank] in *.
    symmetry. apply Z.leb_gt. lia.
  - unfold leb, SFleb. cbn [SFcompare]. rewrite (compare_rank mx my ex ey Bx By).
    unfold Z.leb. now destruct (_ ?= _).
  - pose proof (rank_bounded false mx ex Bx). unfold leb, SFleb. cbn [SFcompare rank] in *.
    symmetry. apply Z.leb_le. lia.
  - pose proof (rank_bounded false my ey By). unfold leb, SFleb. cbn [SFcompare rank] in *.
    symmetry. apply Z.leb_gt. lia.
Qed.

Lemma leb_of_rank (x y : float) :
  number x = true -> number y = true -> nonneg x -> nonneg y ->
  rank x <= rank y -> leb x y = true.
Proof. intros. rewrite leb_rank by assumption. now apply Z.leb_le. Qed.

(** What rounding returns is a number, not below zero when the sign
    is [false]. *)
Lemma signed_number (x : float) :
  valid_binary prec emax x = true -> signed false x ->
  number x = true /\ nonneg x.
Proof.
  unfold number, valid, nonneg, leb, SFleb.
  destruct x as [s | s | | s m e]; cbn; intros Hv Hs; try contradiction; subst;
    try (split; reflexivity).
  split; [now rewrite Hv | reflexivity].
Qed.

Lemma canon_le (m1 m2 : positive) (e1 e2 : Z) :
  bounded prec emax m1 e1 = true -> bounded prec emax m2 e2 = true ->
  e1 < e2 \/ (e1 = e2 /\ Z.pos m1 <= Z.pos m2) ->
  dle (Z.pos m1) e1 (Z.pos m2) e2.
Proof.
  intros H1 H2 H.
  apply bounded_inv in H1 as (He1 & Hm1 & Hn1).
  apply bounded_inv in H2 as (He2 & Hm2 & Hn2).
  unfold dle, sc. destruct H as [Hlt | [-> Hle]].
  - replace (Z.min e1 e2) with e1 by lia. rewrite Z.sub_diag.
    specialize (Hn2 ltac:(lia)).
    pose proof (pow2_le 1 (e2 - e1) ltac:(lia)) as Hp. change (2 ^ 1) with 2 in Hp.
    change (2 ^ 0) with 1.
    change (2 ^ 52) with 4503599627370496 in *.
    change (2 ^ 53) with 9007199254740992 in *. nia.
  - rewrite Z.min_id, Z.sub_diag. change (2 ^ 0) with 1. lia.
Qed.

Lemma rank_vrank (x : float) :
  finite x = true -> nonneg x -> rank x = vrank (mant x) (expo x).
Proof.
  intros Fx Px.
  destruct (number_nonneg_cases x (finite_number x Fx) Px)
    as [[s ->] | [(m & e & -> & B) | ->]]; [reflexivity | | discriminate Fx].
  cbn [mant expo cond_Zopp vrank]. rewrite (rank_canonical m e B).
  pose proof (rank_bounded false m e B). cbn [rank] in *. lia.
Qed.

(** The order of two finite values is the order of the numbers they
    stand for. *)
Lemma leb_value (a b : float) :
  finite a = true -> finite b = true -> leb a b = true ->
  dle (mant a) (expo a) (mant b) (expo b).
Proof.
  intros Fa Fb.
  destruct (finite_cases a Fa) as [[sa ->] | (sa & ma & ea & -> & Ba)];
  destruct (finite_cases b Fb) as [[sb ->] | (sb & mb & eb & -> & Bb)];
    unfold leb, SFleb; cbn [SFcompare mant expo].
  - intros _. apply dle_refl.
  - destruct sb; [discriminate|]. intros _. unfold dle, sc. cbn [cond_Zopp].
    pose proof (pow2_pos (eb - Z.min 0 eb) ltac:(lia)). nia.
  - destruct sa; [|discriminate]. intros _. unfold dle, sc. cbn [cond_Zopp].
    pose proof (pow2_pos (ea - Z.min ea 0) ltac:(lia)). nia.
  - destruct sa, sb; cbn [cond_Zopp].
    + intros H.
      assert (Hc : eb < ea \/ (eb = ea /\ Z.pos mb <= Z.pos ma)).
      { change (Pos.compare_cont Eq ma mb) with (Z.pos ma ?= Z.pos mb) in H.
        destruct (Z.compare_spec ea eb) as [-> | Hlt | Hgt]; [|discriminate|lia].
        right. split; [reflexivity|].
        destruct (Z.compare_spec (Z.pos ma) (Z.pos mb)); cbn in H; try discriminate; lia. }
      pose proof (canon_le mb ma eb ea Bb Ba Hc) as Hd.
      unfold dle, sc in *. rewrite (Z.min_comm ea eb). lia.
    + intros _. unfold dle, sc.
      pose proof (pow2_pos (ea - Z.min ea eb) ltac:(lia)).
      pose proof (pow2_pos (eb - Z.min ea eb) ltac:(lia)). nia.
    + discriminate.
    + intros H. apply canon_le; [assumption | assumption |].
      change (Pos.compare_cont Eq ma mb) with (Z.pos ma ?= Z.pos mb) in H.
      destruct (Z.compare_spec ea eb) as [-> | Hlt | Hgt]; [|lia|discriminate].
      right. split; [reflexivity|].
      destruct (Z.compare_spec (Z.pos ma) (Z.pos mb)); try discriminate; lia.
Qed.

Lemma nonneg_zero (s : bool) : nonneg (S754_zero s).
Proof. reflexivity. Qed.

Lemma mul_aligned (ma mb : positive) (ea eb : Z) :
  bounded prec emax ma ea = true -> bounded prec emax mb eb = true ->
  ea + eb <= fexp (Z.pos (digits2_pos (ma * mb)) + (ea + eb)).
Proof.
  intros Ha Hb.
  pose proof (digits_bounds ma) as [La _]. pose proof (digits_bounds mb) as [Lb _].
  set (da := Z.pos (digits2_pos ma)) in *. set (db := Z.pos (digits2_pos mb)) in *.
  assert (Hda : 1 <= da) by (subst da; lia). assert (Hdb : 1 <= db) by (subst db; lia).
  assert (Hd : da + db - 1 <= Z.pos (digits2_pos (ma * mb))).
  { replace (da + db - 1) with (da - 1 + (db - 1) + 1) by lia.
    apply digits_above; [lia|]. rewrite Z.pow_add_r, Pos2Z.inj_mul by lia.
    pose proof (pow2_pos (da - 1) ltac:(lia)). pose proof (pow2_pos (db - 1) ltac:(lia)).
    nia. }
  unfold bounded, canonical_mantissa in Ha, Hb.
  apply andb_true_iff in Ha as [Ha _]. apply andb_true_iff in Hb as [Hb _].
  apply Z.eqb_eq in Ha, Hb. rewrite fexp_eq in Ha, Hb. fold da in Ha. fold db in Hb.
  unfold fexp in *. lia.
Qed.

(** The product of two finite values that are not below zero. *)
Lemma mul_spec (a b : float) :
  finite a = true -> finite b = true -> nonneg a -> nonneg b ->
  number (mul a b) = true /\ nonneg (mul a b)
  /\ rank (mul a b) = vrank (mant a * mant b) (expo a + expo b).
Proof.
  intros Fa Fb Pa Pb.
  destruct (number_nonneg_cases a (finite_number a Fa) Pa)
    as [[sa ->] | [(ma & ea & -> & Ba) | ->]]; [| |discriminate Fa];
  destruct (number_nonneg_cases b (finite_number b Fb) Pb)
    as [[sb ->] | [(mb & eb & -> & Bb) | ->]]; try discriminate Fb;
    try (repeat split; reflexivity).
  unfold mul, SFmul. cbn [xorb mant expo cond_Zopp].
    destruct (round_aux_spec false (ma * mb) (ea + eb) (mul_aligned ma mb ea eb Ba Bb))
      as (Hv & Hs & Hr).
    destruct (signed_number _ Hv Hs) as [Hn Hp].
    split; [exact Hn|]. split; [exact Hp|]. exact Hr.
Qed.

Lemma aligned_mantissa (s : bool) (m : positive) (e ez : Z) :
  ez <= e ->
  cond_Zopp s (Z.pos (fst (shl_align m e ez))) = sc (cond_Zopp s (Z.pos m)) e ez.
Proof.
  intros H. destruct (shl_align_spec m e ez) as [_ E]. rewrite E.
  replace (Z.min e ez) with ez by lia. unfold sc. destruct s; cbn [cond_Zopp]; ring.
Qed.

Lemma normalize_spec (D ez : Z) :
  0 <= D ->
  let x := binary_normalize prec emax D ez false in
  number x = true /\ nonneg x /\ rank x = vrank D ez.
Proof.
  intros HD. destruct D as [|p|p]; [repeat split; reflexivity | | lia].
  cbn [binary_normalize vrank].
  destruct (round_spec false p ez) as (Hv & Hs & Hr).
  destruct (signed_number _ Hv Hs) as [Hn Hp].
  split; [exact Hn|]. split; [exact Hp|]. exact Hr.
Qed.

(** The sum of two finite values that are not below zero. *)
Lemma add_spec (a b : float) :
  finite a = true -> finite b = true -> nonneg a -> nonneg b ->
  let ez := Z.min (expo a) (expo b) in
  number (add a b) = true /\ nonneg (add a b)
  /\ rank (add a b) = vrank (sc (mant a) (expo a) ez + sc (mant b) (expo b) ez) ez.
Proof.
  intros Fa Fb Pa Pb.
  destruct (number_nonneg_cases a (finite_number a Fa) Pa)
    as [[sa ->] | [(ma & ea & -> & Ba) | ->]]; [| |discriminate Fa];
  destruct (number_nonneg_cases b (finite_number b Fb) Pb)
    as [[sb ->] | [(mb & eb & -> & Bb) | ->]]; try discriminate Fb.
  - destruct sa, sb; repeat split; reflexivity.
  - intros ez. unfold add, SFadd. split; [now apply finite_number|]. split; [exact Pb|].
    rewrite (rank_vrank _ Fb Pb). cbn [mant expo] in *. rewrite sc_zero, Z.add_0_l.
    symmetry. apply vrank_shift. subst ez. lia.
  - intros ez. unfold add, SFadd. split; [now apply finite_number|]. split; [exact Pa|].
    rewrite (rank_vrank _ Fa Pa). cbn [mant expo] in *. rewrite sc_zero, Z.add_0_r.
    symmetry. apply vrank_shift. subst ez. lia.
  - intros ez. unfold add, SFadd. cbn [mant expo] in *. fold ez.
    rewrite !aligned_mantissa by (subst ez; lia).
    apply normalize_spec. cbn [cond_Zopp]. unfold sc.
    pose proof (pow2_pos (ea - ez) ltac:(subst ez; lia)).
    pose proof (pow2_pos (eb - ez) ltac:(subst ez; lia)). nia.
Qed.

(** The difference of two finite values, the larger one first. *)
Lemma sub_spec (a c : float) :
  finite a = true -> finite c = true -> leb c a = true ->
  let ez := Z.min (expo a) (expo c) in
  number (sub a c) = true /\ nonneg (sub a c)
  /\ rank (sub a c) = vrank (sc (mant a) (expo a) ez - sc (mant c) (expo c) ez) ez.
Proof.
  intros Fa Fc Hle. pose proof (leb_value c a Fc Fa Hle) as Hd.
  destruct (finite_cases a Fa) as [[sa ->] | (sa & ma & ea & -> & Ba)];
  destruct (finite_cases c Fc) as [[sc' ->] | (sc' & mc & ec & -> & Bc)].
  - destruct sa, sc'; repeat split; reflexivity.
  - intros ez. destruct sc'; [|discriminate Hle].
    unfold sub, SFsub. cbn [negb].
    assert (F' : finite (S754_finite false mc ec) = true) by exact Fc.
    split; [now apply finite_number|]. split; [reflexivity|].
    rewrite (rank_vrank _ F' eq_refl). cbn [mant expo cond_Zopp] in *.
    rewrite sc_zero.
    replace (0 - sc (- Z.pos mc) ec ez) with (sc (Z.pos mc) ec ez) by (unfold sc; ring).
    symmetry. apply vrank_shift. subst ez. lia.
  - intros ez. destruct sa; [discriminate Hle|].
    unfold sub, SFsub. split; [now apply finite_number|]. split; [reflexivity|].
    rewrite (rank_vrank _ Fa eq_refl). cbn [mant expo cond_Zopp] in *.
    rewrite sc_zero, Z.sub_0_r.
    symmetry. apply vrank_shift. subst ez. lia.
  - intros ez. unfold sub, SFsub. cbn [mant expo] in *. fold ez.
    rewrite !aligned_mantissa by (subst ez; lia).
    apply normalize_spec.
    unfold dle in Hd. rewrite (Z.min_comm ec ea) in Hd. fold ez in Hd. lia.
Qed.

Lemma nonneg_split (x : float) :
  number x = true -> nonneg x -> finite x = true \/ x = S754_infinity false.
Proof.
  intros N P. destruct (number_nonneg_cases x N P) as [[s ->] | [(m & e & -> & B) | ->]].
  - left. reflexivity.
  - left. unfold finite, valid. cbn. now rewrite B.
  - right. reflexivity.
Qed.

Lemma rank_le_top (x : float) : number x = true -> nonneg x -> 0 <= rank x <= top.
Proof.
  intros N P. destruct (number_nonneg_cases x N P) as [[s ->] | [(m & e & -> & B) | ->]].
  - cbn. change top with (2047 * 2 ^ 52). cbn. lia.
  - pose proof (rank_bounded false m e B). lia.
  - cbn [rank]. change top with (2047 * 2 ^ 52). cbn. lia.
Qed.

Lemma below_infinity (x : float) :
  number x = true -> nonneg x -> leb x (S754_infinity false) = true.
Proof.
  intros N P. apply leb_of_rank; [assumption | reflexivity | assumption | reflexivity |].
  apply rank_le_top; assumption.
Qed.

Lemma positive_nonneg (s : float) : ltb (of_Z 0) s = true -> nonneg s.
Proof. apply B64Order.ltb_leb. Qed.

Lemma number_leb_refl (a : float) : number a = true -> leb a a = true.
Proof.
  intros N. apply B64Order.leb_key.
  assert (isnan a = false).
  { unfold number in N. apply andb_true_iff in N as [_ N]. now apply negb_true_iff. }
  repeat split; try assumption.
  destruct (key a) as [[c e] m]. unfold key_lt. lia.
Qed.

Lemma number_not_nan (a : float) : number a = true -> isnan a = false.
Proof.
  unfold number. intros N. apply andb_true_iff in N as [_ N]. now apply negb_true_iff.
Qed.

Lemma b64_sub_nonneg (a c : float) :
  finite a = true -> finite c = true -> leb c a = true ->
  number (sub a c) = true /\ nonneg (sub a c).
Proof.
  intros Fa Fc H. destruct (sub_spec a c Fa Fc H) as (N & P & _). now split.
Qed.

Lemma b64_sub_mono (a b c : float) :
  finite a = true -> finite b = true -> finite c = true ->
  leb c a = true -> leb a b = true -> leb (sub a c) (sub b c) = true.
Proof.
  intros Fa Fb Fc Hca Hab.
  pose proof (B64Order.leb_trans _ _ _ Hca Hab) as Hcb.
  pose proof (leb_value a b Fa Fb Hab) as Dab.
  destruct (sub_spec a c Fa Fc Hca) as (Na & Pa & Ra).
  destruct (sub_spec b c Fb Fc Hcb) as (Nb & Pb & Rb).
  apply leb_of_rank; try assumption. rewrite Ra, Rb.
  apply vrank_mono.
  set (e0 := Z.min (expo a) (Z.min (expo b) (expo c))).
  apply (dle_at _ _ _ _ e0); [lia | lia |].
  rewrite !sc_sub, !sc_sc by lia.
  apply (dle_at _ _ _ _ e0) in Dab; [lia | lia | lia].
Qed.

Lemma mul_infinity (s : float) :
  finite s = true -> ltb (of_Z 0) s = true ->
  mul s (S754_infinity false) = S754_infinity false
  /\ mul (S754_infinity false) s = S754_infinity false.
Proof.
  intros F P. destruct (finite_cases s F) as [[s' ->] | (s' & m & e & -> & B)].
  - discriminate P.
  - destruct s'; [discriminate P|]. split; reflexivity.
Qed.

Lemma b64_mul_pos (s a : float) :
  finite s = true -> ltb (of_Z 0) s = true -> number a = true -> nonneg a ->
  (number (mul s a) = true /\ nonneg (mul s a))
  /\ (number (mul a s) = true /\ nonneg (mul a s)).
Proof.
  intros Fs Ps Na Pa. pose proof (positive_nonneg s Ps) as Ns.
  destruct (nonneg_split a Na Pa) as [Fa | ->].
  - destruct (mul_spec s a Fs Fa Ns Pa) as (N1 & P1 & _).
    destruct (mul_spec a s Fa Fs Pa Ns) as (N2 & P2 & _). tauto.
  - destruct (mul_infinity s Fs Ps) as [-> ->]. repeat split; reflexivity.
Qed.

Lemma b64_mul_mono (s a b : float) :
  finite s = true -> ltb (of_Z 0) s = true ->
  number a = true -> number b = true -> nonneg a -> leb a b = true ->
  leb (mul s a) (mul b s) = true.
Proof.
  intros Fs Ps Na Nb Pa Hab. pose proof (positive_nonneg s Ps) as Ns.
  assert (Pb : nonneg b) by (eapply B64Order.leb_trans; [exact Pa | exact Hab]).
  destruct (b64_mul_pos s a Fs Ps Na Pa) as [[N1 P1] _].
  destruct (b64_mul_pos s b Fs Ps Nb Pb) as [_ [N2 P2]].
  destruct (nonneg_split b Nb Pb) as [Fb | ->].
  - destruct (nonneg_split a Na Pa) as [Fa | ->]; [|destruct (finite_cases b Fb) as [[? ->] | (? & ? & ? & -> & _)]; discriminate Hab].
    destruct (mul_spec s a Fs Fa Ns Pa) as (_ & _ & Ra).
    destruct (mul_spec b s Fb Fs Pb Ns) as (_ & _ & Rb).
    apply leb_of_rank; try assumption. rewrite Ra, Rb.
    apply vrank_mono.
    pose proof (leb_value a b Fa Fb Hab) as Dab.
    set (z := Z.min (expo a) (expo b)) in *.
    apply (dle_at _ _ _ _ (expo s + z)); [lia | lia |].
    unfold dle in Dab. fold z in Dab. unfold sc in *.
    replace (expo s + expo a - (expo s + z)) with (expo a - z) by lia.
    replace (expo b + expo s - (expo s + z)) with (expo b - z) by lia.
    assert (0 <= mant s).
    { destruct (finite_cases s Fs) as [[? ->] | (s' & ? & ? & -> & _)]; cbn; [lia|].
      destruct s'; [discriminate Ps | cbn; lia]. }
    nia.
  - destruct (mul_infinity s Fs Ps) as [_ ->]. now apply below_infinity.
Qed.

Lemma add_infinity (a : float) :
  number a = true -> nonneg a ->
  add a (S754_infinity false) = S754_infinity false
  /\ add (S754_infinity false) a = S754_infinity false.
Proof.
  intros N P. destruct (number_nonneg_cases a N P) as [[s ->] | [(m & e & -> & B) | ->]];
    split; reflexivity.
Qed.

Lemma b64_add_number (a p : float) :
  number a = true -> number p = true -> nonneg a -> nonneg p ->
  number (add a p) = true /\ nonneg (add a p).
Proof.
  intros Na Np Pa Pp.
  destruct (nonneg_split a Na Pa) as [Fa | ->];
    [|destruct (add_infinity p Np Pp) as [_ ->]; split; reflexivity].
  destruct (nonneg_split p Np Pp) as [Fp | ->];
    [|destruct (add_infinity a Na Pa) as [-> _]; split; reflexivity].
  destruct (add_spec a p Fa Fp Pa Pp) as (N & P & _). now split.
Qed.

(** The exact sums of finite values, in the order of the summands. *)
Lemma sum_le (a b p q : float) :
  dle (mant a) (expo a) (mant b) (expo b) ->
  dle (mant p) (expo p) (mant q) (expo q) ->
  let z := Z.min (expo a) (expo p) in
  let z' := Z.min (expo b) (expo q) in
  dle (sc (mant a) (expo a) z + sc (mant p) (expo p) z) z
      (sc (mant b) (expo b) z' + sc (mant q) (expo q) z') z'.
Proof.
  intros Dab Dpq z z'.
  set (e0 := Z.min (Z.min (expo a) (expo p)) (Z.min (expo b) (expo q))).
  apply (dle_at _ _ _ _ e0); [lia | lia |].
  rewrite !sc_add, !sc_sc by lia.
  apply (dle_at _ _ _ _ e0) in Dab; [|lia|lia].
  apply (dle_at _ _ _ _ e0) in Dpq; [|lia|lia]. lia.
Qed.

Lemma b64_add_mono (a b p q : float) :
  number a = true -> number b = true -> number p = true -> number q = true ->
  nonneg a -> nonneg p -> leb a b = true -> leb p q = true ->
  leb (add a p) (add b q) = true.
Proof.
  intros Na Nb Np Nq Pa Pp Hab Hpq.
  assert (Pb : nonneg b) by (eapply B64Order.leb_trans; [exact Pa | exact Hab]).
  assert (Pq : nonneg q) by (eapply B64Order.leb_trans; [exact Pp | exact Hpq]).
  destruct (b64_add_number a p Na Np Pa Pp) as [N1 P1].
  destruct (b64_add_number b q Nb Nq Pb Pq) as [N2 P2].
  destruct (nonneg_split b Nb Pb) as [Fb | ->];
    [|destruct (add_infinity q Nq Pq) as [_ ->]; now apply below_infinity].
  destruct (nonneg_split q Nq Pq) as [Fq | ->];
    [|destruct (add_infinity b Nb Pb) as [-> _]; now apply below_infinity].
  destruct (nonneg_split a Na Pa) as [Fa | ->];
    [|destruct (finite_cases b Fb) as [[? ->] | (? & ? & ? & -> & _)]; discriminate Hab].
  destruct (nonneg_split p Np Pp) as [Fp | ->];
    [|destruct (finite_cases q Fq) as [[? ->] | (? & ? & ? & -> & _)]; discriminate Hpq].
  destruct (add_spec a p Fa Fp Pa Pp) as (_ & _ & R1).
  destruct (add_spec b q Fb Fq Pb Pq) as (_ & _ & R2).
  apply leb_of_rank; try assumption. rewrite R1, R2.
  apply vrank_mono, sum_le; now apply leb_value.
Qed.

Lemma b64_add_nonneg (a p : float) :
  number a = true -> number p = true -> nonneg a -> nonneg p ->
  leb p (add a p) = true.
Proof.
  intros Na Np Pa Pp.
  destruct (b64_add_number a p Na Np Pa Pp) as [N P].
  destruct (number_nonneg_cases p Np Pp) as [[s E] | Hp].
  - apply leb_of_rank; try assumption. subst p. apply (rank_le_top _ N P).
  - assert (E : add (S754_zero false) p = p).
    { destruct Hp as [(m & e & -> & B) | ->]; reflexivity. }
    rewrite <- E at 1.
    apply b64_add_mono; try assumption; try reflexivity.
    now apply number_leb_refl.
Qed.

Lemma b64_two : finite (of_Z 2) = true /\ ltb (of_Z 0) (of_Z 2) = true.
Proof. split; reflexivity. Qed.

Lemma b64_tenth :
  finite (div (of_Z 1) (of_Z 10)) = true
  /\ ltb (of_Z 0) (div (of_Z 1) (of_Z 10)) = true.
Proof. split; vm_compute; reflexivity. Qed.

Lemma b64_double (p : float) :
  number p = true -> nonneg p -> leb p (mul (of_Z 2) p) = true.
Proof.
  intros Np Pp. destruct b64_two as [F2 P2].
  destruct (b64_mul_pos (of_Z 2) p F2 P2 Np Pp) as [[N P] _].
  destruct (nonneg_split p Np Pp) as [Fp | ->]; [|reflexivity].
  destruct (mul_spec (of_Z 2) p F2 Fp (positive_nonneg _ P2) Pp) as (_ & _ & R).
  apply leb_of_rank; try assumption. rewrite R, (rank_vrank p Fp Pp).
  apply vrank_mono.
  change (mant (of_Z 2)) with (2 ^ 52). change (expo (of_Z 2)) with (-51).
  apply (dle_at _ _ _ _ (expo p - 51)); [lia | lia |].
  unfold sc. replace (expo p - (expo p - 51)) with 51 by lia.
  replace (-51 + expo p - (expo p - 51)) with 0 by lia.
  assert (0 <= mant p).
  { destruct (number_nonneg_cases p Np Pp) as [[? ->] | [(m & e & -> & B) | ->]]; cbn; lia. }
  change (2 ^ 51) with 2251799813685248. change (2 ^ 52) with 4503599627370496.
  change (2 ^ 0) with 1. lia.
Qed.

End B64Value.

#[export] Instance binary64_sort_laws : SortLaws B64.float.
Proof.
  split.
  - intros a b. rewrite B64Order.num_lt_key, B64Order.num_lt_key_false.
    destruct (B64.key a) as [[c e] m], (B64.key b) as [[c' e'] m'].
    unfold B64.key_lt. lia.
  - intros a b c. rewrite !B64Order.num_lt_key_false.
    destruct (B64.key a) as [[c1 e1] m1], (B64.key b) as [[c2 e2] m2],
      (B64.key c) as [[c3 e3] m3].
    unfold B64.key_lt. lia.
  - intros a b. change (f_eqb a b) with (B64.eqb a b).
    change (f_eqb b a) with (B64.eqb b a).
    rewrite !B64Order.eqb_key. intros (? & ? & ?). auto.
  - intros a b c. change (f_eqb a b) with (B64.eqb a b).
    change (f_eqb b c) with (B64.eqb b c). change (f_eqb a c) with (B64.eqb a c).
    rewrite !B64Order.eqb_key. intros (? & ? & ?) (? & ? & ?).
    repeat split; congruence.
Qed.

(* ------------------------------------------------------------------ *)
(** ** Exact rational arithmetic satisfies the laws *)

Module RatFacts.
Local Open Scope Q_scope.

Lemma leb_false (a b : Q) : Qle_bool a b = false -> b <= a.
Proof.
  intros E. apply Qlt_le_weak, Qnot_le_lt. intros Hle.
  apply Qle_bool_iff in Hle. congruence.
Qed.

Lemma num_lt_false (a b : Q) : num_lt a b = false <-> b <= a.
Proof.
  unfold num_lt; simpl. unfold Rat.ltb. rewrite orb_false_r, negb_false_iff.
  apply Qle_bool_iff.
Qed.

Lemma num_lt_true (a b : Q) : num_lt a b = true <-> a < b.
Proof.
  unfold num_lt; simpl. unfold Rat.ltb. rewrite orb_false_r, negb_true_iff.
  split.
  - intros E. apply Qnot_le_lt. intros Hle. apply Qle_bool_iff in Hle. congruence.
  - intros Hlt. destruct (Qle_bool b a) eqn:E; [|reflexivity].
    apply Qle_bool_iff in E. now apply Qlt_not_le in Hlt.
Qed.


(** The shape of every rounded number: an integer over [10^5]. *)
Lemma round5_shape (x : Q) :
  round5 x = (Rat.round_half_even (x * inject_Z 100000) * 1 # 100000).
Proof. reflexivity. Qed.


Lemma round5_apart (x y : Q) :
  num_lt (round5 x) (round5 y) = false ->
  num_lt (round5 y) (round5 x) = false ->
  round5 x = round5 y.
Proof.
  rewrite !num_lt_false, (round5_shape x), (round5_shape y).
  set (k := Rat.round_half_even (x * inject_Z 100000)).
  set (k' := Rat.round_half_even (y * inject_Z 100000)).
  unfold Qle; simpl. intros H1 H2. f_equal. lia.
Qed.

End RatFacts.

#[export] Instance exact_rationals_sort_laws : SortLaws Q.
Proof.
  split.
  - intros a b. rewrite RatFacts.num_lt_true, RatFacts.num_lt_false.
    apply Qlt_le_weak.
  - intros a b c. rewrite !RatFacts.num_lt_false. apply Qle_trans.
  - intros a b. simpl. rewrite !Qeq_bool_iff. apply Qeq_sym.
  - intros a b c. simpl. rewrite !Qeq_bool_iff. apply Qeq_trans.
Qed.

(* ------------------------------------------------------------------ *)
(** ** C5 and C9: deduplication *)



(** *** The deduplicated array, number for number *)

Lemma row_lt_krow_lt (a b : vec3 B64.float) :
  row_lt a b = krow_lt (vkey a) (vkey b).
Proof.
  unfold row_lt, krow_lt, lex, vkey; simpl.
  now rewrite !B64Order.num_lt_key_ltb.
Qed.

Lemma row_ne_krow_ne (a b : vec3 B64.float) :
  row_ne a b = krow_ne (vkey a) (vkey b).
Proof.
  unfold row_ne, krow_ne, f_neb, vkey; simpl.
  change (@f_eqb B64.float binary64) with B64.eqb.
  now rewrite !B64Order.eqb_key_eqb.
Qed.



Lemma krow_antisym (a b : row_key) :
  before krow_lt a b -> before krow_lt b a -> a = b.
Proof.
  unfold before, krow_lt. intros Hba Hab.
  destruct (lex_incomparable _ _ _ _ Hab Hba) as [[X1 X2] Hrest].
  destruct Hrest as [R1 R2].
  destruct (lex_incomparable _ _ _ _ R1 R2) as [[Y1 Y2] [Z1 Z2]].
  destruct a as [[ax ay] az], b as [[bx by_] bz]. simpl in *.
  rewrite (B64Order.key_ltb_antisym _ _ X1 X2),
    (B64Order.key_ltb_antisym _ _ Y1 Y2), (B64Order.key_ltb_antisym _ _ Z1 Z2).
  reflexivity.
Qed.







(* ------------------------------------------------------------------ *)
(** ** C10: the emitted coordinates lie in the document box *)

Lemma in_firstn {A} (n : nat) : forall (l : list A) (x : A),
  In x (firstn n l) -> In x l.
Proof.
  induction n as [|n IH]; intros l x; simpl; [tauto|].
  destruct l as [|y l]; simpl; [tauto|].
  intros [-> | Hx]; [now left | right; now apply IH].
Qed.

#[export] Instance exact_rationals_ordered :
  OrderedArith Q (fun _ => true) (fun _ => true).
Proof.
  assert (Hpos : forall a b : Q, Rat.ltb a b = true -> (a <= b)%Q).
  { intros a b Hs. unfold Rat.ltb in Hs. apply negb_true_iff in Hs.
    now apply RatFacts.leb_false. }
  split; simpl; intros.
  - reflexivity.
  - reflexivity.
  - apply Qle_bool_iff, Qle_refl.
  - rewrite Qle_bool_iff in *. eapply Qle_trans; eassumption.
  - now apply Qle_bool_iff, RatFacts.leb_false.
  - now apply Qle_bool_iff, Hpos.
  - split; [reflexivity|]. rewrite Qle_bool_iff in *. unfold Qminus.
    now apply (proj1 (Qle_minus_iff c a)).
  - rewrite Qle_bool_iff in *. unfold Qminus.
    apply Qplus_le_compat; [assumption | apply Qle_refl].
  - rewrite !Qle_bool_iff in *. apply Hpos in H0.
    split; (split; [reflexivity | now apply Qmult_le_0_compat]).
  - rewrite !Qle_bool_iff in *. apply Hpos in H0. rewrite (Qmult_comm s a).
    now apply Qmult_le_compat_r.
  - rewrite Qle_bool_iff in *. now apply Qplus_le_compat.
  - rewrite Qle_bool_iff in *.
    setoid_replace p with (inject_Z 0 + p)%Q at 1 by (unfold inject_Z; ring).
    apply Qplus_le_compat; [assumption | apply Qle_refl].
  - rewrite Qle_bool_iff in *.
    setoid_replace (inject_Z 2 * p)%Q with (p + p)%Q by (unfold inject_Z; ring).
    setoid_replace p with (inject_Z 0 + p)%Q at 1 by (unfold inject_Z; ring).
    apply Qplus_le_compat; [assumption | apply Qle_refl].
  - split; reflexivity.
  - split; reflexivity.
Qed.

(** binary64 satisfies the laws: its operations round the exact
    result monotonically, and overflow to the infinity above every
    number. *)
#[export] Instance binary64_ordered :
  OrderedArith B64.float B64.finite B64.number.
Proof.
  constructor.
  - exact B64Value.finite_number.
  - exact B64Value.number_not_nan.
  - exact B64Value.number_leb_refl.
  - exact B64Order.leb_trans.
  - intros a b Na Nb. apply B64Order.leb_total; now apply B64Value.number_not_nan.
  - exact B64Order.ltb_leb.
  - exact B64Value.b64_sub_nonneg.
  - exact B64Value.b64_sub_mono.
  - exact B64Value.b64_mul_pos.
  - exact B64Value.b64_mul_mono.
  - exact B64Value.b64_add_mono.
  - exact B64Value.b64_add_nonneg.
  - exact B64Value.b64_double.
  - exact B64Value.b64_two.
  - exact B64Value.b64_tenth.
Qed.

Section BoxFacts.
Context {F : Type} {A : Arith F} {fin num : F -> bool}.
Context {L : OrderedArith F fin num}.

Notation "a <== b" := (f_leb a b = true) (at level 70).

(** A point with finite coordinates in the drawing plane. *)
Let fin2 (p : vec3 F) : Prop := fin (vx p) = true /\ fin (vy p) = true.

Lemma np_minimum_le (a b : F) :
  fin a = true -> fin b = true ->
  fin (np_minimum a b) = true /\ np_minimum a b <== a /\ np_minimum a b <== b.
Proof.
  intros Fa Fb. pose proof (oa_fin_num a Fa) as Na. pose proof (oa_fin_num b Fb) as Nb.
  unfold np_minimum. rewrite (oa_not_nan a Na), orb_false_r.
  destruct (f_leb a b) eqn:E.
  - split; [exact Fa|]. split; [now apply oa_le_refl | exact E].
  - split; [exact Fb|]. split; [now apply (oa_le_total a b) | now apply oa_le_refl].
Qed.

Lemma np_maximum_ge (a b : F) :
  fin a = true -> fin b = true ->
  fin (np_maximum a b) = true /\ a <== np_maximum a b /\ b <== np_maximum a b.
Proof.
  intros Fa Fb. pose proof (oa_fin_num a Fa) as Na. pose proof (oa_fin_num b Fb) as Nb.
  unfold np_maximum. rewrite (oa_not_nan a Na), orb_false_r.
  destruct (f_leb b a) eqn:E.
  - split; [exact Fa|]. split; [now apply oa_le_refl | exact E].
  - split; [exact Fb|]. split; [now apply (oa_le_total b a) | now apply oa_le_refl].
Qed.

Lemma fold_minimum_le (rest : list (vec3 F)) : forall acc,
  fin2 acc -> (forall p, In p rest -> fin2 p) ->
  let m := fold_left (vzip np_minimum) rest acc in
  fin2 m /\ (vx m <== vx acc /\ vy m <== vy acc)
  /\ forall p, In p rest -> vx m <== vx p /\ vy m <== vy p.
Proof.
  induction rest as [|r rest IH]; intros acc [Fx Fy] Hrest; simpl.
  - split; [now split|].
    split; [split; apply oa_le_refl; now apply oa_fin_num | tauto].
  - destruct (Hrest r (or_introl eq_refl)) as [Rx Ry].
    destruct (np_minimum_le (vx acc) (vx r) Fx Rx) as (Mx & Hxa & Hxr).
    destruct (np_minimum_le (vy acc) (vy r) Fy Ry) as (My & Hya & Hyr).
    destruct (IH (vzip np_minimum acc r) (conj Mx My)
                 (fun p Hp => Hrest p (or_intror Hp)))
      as (Fm & [Hx Hy] & Hin).
    simpl in Hx, Hy.
    split; [exact Fm|].
    split; [split; eapply oa_le_trans; eassumption|].
    intros p [<- | Hp]; [split; eapply oa_le_trans; eassumption | now apply Hin].
Qed.

Lemma fold_maximum_ge (rest : list (vec3 F)) : forall acc,
  fin2 acc -> (forall p, In p rest -> fin2 p) ->
  let m := fold_left (vzip np_maximum) rest acc in
  fin2 m /\ (vx acc <== vx m /\ vy acc <== vy m)
  /\ forall p, In p rest -> vx p <== vx m /\ vy p <== vy m.
Proof.
  induction rest as [|r rest IH]; intros acc [Fx Fy] Hrest; simpl.
  - split; [now split|].
    split; [split; apply oa_le_refl; now apply oa_fin_num | tauto].
  - destruct (Hrest r (or_introl eq_refl)) as [Rx Ry].
    destruct (np_maximum_ge (vx acc) (vx r) Fx Rx) as (Mx & Hxa & Hxr).
    destruct (np_maximum_ge (vy acc) (vy r) Fy Ry) as (My & Hya & Hyr).
    destruct (IH (vzip np_maximum acc r) (conj Mx My)
                 (fun p Hp => Hrest p (or_intror Hp)))
      as (Fm & [Hx Hy] & Hin).
    simpl in Hx, Hy.
    split; [exact Fm|].
    split; [split; eapply oa_le_trans; eassumption|].
    intros p [<- | Hp]; [split; eapply oa_le_trans; eassumption | now apply Hin].
Qed.

Lemma reduce_rows_bounds (centerline : list (vec3 F)) (mins maxs : vec3 F) :
  (forall p, In p centerline -> fin2 p) ->
  reduce_rows np_minimum centerline = inr mins ->
  reduce_rows np_maximum centerline = inr maxs ->
  fin2 mins /\ fin2 maxs
  /\ forall p, In p centerline ->
       (vx mins <== vx p /\ vx p <== vx maxs)
       /\ (vy mins <== vy p /\ vy p <== vy maxs).
Proof.
  destruct centerline as [|p0 rest]; [discriminate|].
  simpl. intros Hfin Emin Emax. inversion Emin; inversion Emax; subst; clear Emin Emax.
  destruct (fold_minimum_le rest p0 (Hfin p0 (or_introl eq_refl))
              (fun p Hp => Hfin p (or_intror Hp))) as (Fmin & [Hx0 Hy0] & Hmin).
  destruct (fold_maximum_ge rest p0 (Hfin p0 (or_introl eq_refl))
              (fun p Hp => Hfin p (or_intror Hp))) as (Fmax & [Hx1 Hy1] & Hmax).
  split; [exact Fmin|]. split; [exact Fmax|].
  intros p [<- | Hp].
  - repeat split; assumption.
  - destruct (Hmin p Hp), (Hmax p Hp). repeat split; assumption.
Qed.

Lemma py_max_ge (a b : F) :
  num a = true -> num b = true ->
  num (py_max a b) = true /\ a <== py_max a b.
Proof.
  intros Na Nb. unfold py_max, f_gtb. destruct (f_ltb a b) eqn:E.
  - split; [exact Nb | now apply oa_lt_le].
  - split; [exact Na | now apply oa_le_refl].
Qed.

(** One coordinate: [lo <= c <= hi] is mapped into
    [[padding, extent + padding]], inside [[0, extent + 2 padding]]. *)
Lemma scaled_in_box (scale lo hi c padding : F) :
  fin scale = true -> f_ltb (f_of_Z 0) scale = true ->
  fin lo = true -> fin hi = true -> fin c = true ->
  num padding = true -> f_of_Z 0 <== padding ->
  lo <== c -> c <== hi ->
  let extent := f_mul (f_sub hi lo) scale in
  let v := f_add (f_mul scale (f_sub c lo)) padding in
  padding <== v /\ v <== f_add extent padding
  /\ f_of_Z 0 <== v /\ v <== f_add extent (f_mul (f_of_Z 2) padding).
Proof.
  intros Fs Ps Flo Fhi Fc Np Pp Hlo Hhi extent v.
  assert (Hlh : lo <== hi) by (eapply oa_le_trans; eassumption).
  destruct (oa_sub_nonneg c lo Fc Flo Hlo) as [Nd Pd].
  destruct (oa_sub_nonneg hi lo Fhi Flo Hlh) as [ND PD].
  pose proof (oa_sub_mono c hi lo Fc Fhi Flo Hlo Hhi) as HdD.
  destruct (oa_mul_pos scale _ Fs Ps Nd Pd) as [[Nsd Psd] _].
  destruct (oa_mul_pos scale _ Fs Ps ND PD) as [_ [Next Pext]].
  pose proof (oa_mul_mono scale _ _ Fs Ps Nd ND Pd HdD) as Hse.
  destruct oa_two as [F2 P2].
  destruct (oa_mul_pos (f_of_Z 2) padding F2 P2 Np Pp) as [[N2p _] _].
  assert (H1 : padding <== v) by now apply oa_add_nonneg.
  assert (H2 : v <== f_add extent padding).
  { apply oa_add_mono; try assumption. now apply oa_le_refl. }
  repeat split; try assumption.
  - exact (oa_le_trans _ _ _ Pp H1).
  - eapply oa_le_trans; [exact H2|].
    apply oa_add_mono; try assumption; [now apply oa_le_refl | now apply oa_double].
Qed.

Lemma padding_nonneg (mins maxs : vec3 F) (scale : F) :
  fin scale = true -> f_ltb (f_of_Z 0) scale = true ->
  fin2 mins -> fin2 maxs ->
  vx mins <== vx maxs -> vy mins <== vy maxs ->
  num (padding_of mins maxs scale) = true
  /\ f_of_Z 0 <== padding_of mins maxs scale.
Proof.
  intros Fs Ps [Fx0 Fy0] [Fx1 Fy1] Hx Hy. unfold padding_of.
  destruct (oa_sub_nonneg _ _ Fx1 Fx0 Hx) as [Nx Px].
  destruct (oa_sub_nonneg _ _ Fy1 Fy0 Hy) as [Ny Py].
  destruct (oa_mul_pos scale _ Fs Ps Nx Px) as [_ [Nw Pw]].
  destruct (oa_mul_pos scale _ Fs Ps Ny Py) as [_ [Nh Ph]].
  destruct (py_max_ge _ _ Nw Nh) as [Nm Hm].
  destruct oa_tenth as [Ft Pt].
  apply (oa_mul_pos tenth _ Ft Pt Nm). exact (oa_le_trans _ _ _ Pw Hm).
Qed.

(** Every coordinate on the path of [create_svg] lies in the padded
    box, and so in the declared document. *)
Lemma coordinates_in_box (centerline : list (vec3 F)) (scale : F)
    (dwg : drawing F) :
  (forall p, In p centerline -> fin (vx p) = true /\ fin (vy p) = true) ->
  fin scale = true -> f_ltb (f_of_Z 0) scale = true ->
  create_svg centerline scale = inr dwg ->
  exists mins maxs,
    reduce_rows np_minimum centerline = inr mins
    /\ reduce_rows np_maximum centerline = inr maxs
    /\ let width := f_mul (f_sub (vx maxs) (vx mins)) scale in
       let height := f_mul (f_sub (vy maxs) (vy mins)) scale in
       let padding := f_mul (py_max width height) tenth in
       size_w dwg = f_add width (f_mul (f_of_Z 2) padding)
       /\ size_h dwg = f_add height (f_mul (f_of_Z 2) padding)
       /\ forall x y, In (x, y) (path_points (path dwg)) ->
            (padding <== x /\ x <== f_add width padding)
            /\ (padding <== y /\ y <== f_add height padding)
            /\ (f_of_Z 0 <== x /\ x <== size_w dwg)
            /\ (f_of_Z 0 <== y /\ y <== size_h dwg).
Proof.
  intros Hfin Fs Ps E.
  assert (Hn : 1 <= length centerline).
  { destruct centerline; [discriminate E | simpl; lia]. }
  pose proof (create_svg_cases centerline scale (f_of_Z 0, f_of_Z 0)) as Hc.
  rewrite E in Hc. destruct Hc as [_ (mins & maxs & Emin & Emax & ->)]. clear E.
  exists mins, maxs. split; [exact Emin|]. split; [exact Emax|].
  cbn [size_w size_h path]. fold (padding_of mins maxs scale).
  split; [reflexivity|]. split; [reflexivity|].
  intros x y Hxy.
  destruct (reduce_rows_bounds centerline mins maxs Hfin Emin Emax)
    as (Fmin & Fmax & Hb).
  assert (Hmm : vx mins <== vx maxs /\ vy mins <== vy maxs).
  { destruct centerline as [|p0 rest]; [simpl in Hn; lia|].
    destruct (Hb p0 (or_introl eq_refl)) as [[H1 H2] [H3 H4]].
    split; eapply oa_le_trans; eassumption. }
  destruct Hmm as [Hmx Hmy].
  destruct (padding_nonneg mins maxs scale Fs Ps Fmin Fmax Hmx Hmy) as [Npad Ppad].
  rewrite path_of_points in Hxy
    by (unfold scaled_points_of; rewrite length_map; exact Hn).
  apply in_firstn in Hxy. unfold scaled_points_of in Hxy.
  apply in_map_iff in Hxy as [p [Ep Hp]].
  unfold scale_point in Ep. inversion Ep; subst x y; clear Ep.
  destruct (Hb p Hp) as [[Hx1 Hx2] [Hy1 Hy2]].
  destruct (Hfin p Hp) as [Fpx Fpy]. destruct Fmin as [Fx0 Fy0]. destruct Fmax as [Fx1 Fy1].
  destruct (scaled_in_box scale (vx mins) (vx maxs) (vx p) _
              Fs Ps Fx0 Fx1 Fpx Npad Ppad Hx1 Hx2) as (X1 & X2 & X3 & X4).
  destruct (scaled_in_box scale (vy mins) (vy maxs) (vy p) _
              Fs Ps Fy0 Fy1 Fpy Npad Ppad Hy1 Hy2) as (Y1 & Y2 & Y3 & Y4).
  repeat split; assumption.
Qed.

End BoxFacts.

(** In exact arithmetic the box holds of every curve. *)
Lemma coordinates_in_box_exact (centerline : list (vec3 Q)) (scale : Q)
    (dwg : drawing Q) :
  Rat.ltb (inject_Z 0) scale = true ->
  create_svg centerline scale = inr dwg ->
  forall x y, In (x, y) (path_points (path dwg)) ->
    (Qle_bool (inject_Z 0) x = true /\ Qle_bool x (size_w dwg) = true)
    /\ (Qle_bool (inject_Z 0) y = true /\ Qle_bool y (size_h dwg) = true).
Proof.
  intros Ps E x y Hxy.
  destruct (coordinates_in_box (L := exact_rationals_ordered) centerline scale dwg
              (fun _ _ => conj eq_refl eq_refl) eq_refl Ps E)
    as (mins & maxs & _ & _ & _ & _ & Hbox).
  destruct (Hbox x y Hxy) as (_ & _ & Hx & Hy). now split.
Qed.

(** C10: for every smoothed curve of finite binary64 coordinates and
    every finite [scale > 0], every coordinate on the emitted path
    lies in the declared document box: [x] in
    [[padding, width + padding]], [y] in [[padding, height + padding]],
    hence in [[0, width + 2 padding]] and [[0, height + 2 padding]],
    the declared size.  The comparisons and the operations are those
    of binary64, rounding and overflow to infinity included. *)
Theorem C10_coordinates_in_box :
  forall (centerline : list (vec3 B64.float)) (scale : B64.float)
         (dwg : drawing B64.float),
    finite_curve centerline = true ->
    B64.finite scale = true ->
    f_ltb (f_of_Z 0) scale = true ->
    create_svg centerline scale = inr dwg ->
    exists mins maxs,
      reduce_rows np_minimum centerline = inr mins
      /\ reduce_rows np_maximum centerline = inr maxs
      /\ let width := f_mul (f_sub (vx maxs) (vx mins)) scale in
         let height := f_mul (f_sub (vy maxs) (vy mins)) scale in
         let padding := f_mul (py_max width height) tenth in
         size_w dwg = f_add width (f_mul (f_of_Z 2) padding)
         /\ size_h dwg = f_add height (f_mul (f_of_Z 2) padding)
         /\ forall x y, In (x, y) (path_points (path dwg)) ->
              (f_leb padding x = true /\ f_leb x (f_add width padding) = true)
              /\ (f_leb padding y = true /\ f_leb y (f_add height padding) = true)
              /\ (f_leb (f_of_Z 0) x = true /\ f_leb x (size_w dwg) = true)
              /\ (f_leb (f_of_Z 0) y = true /\ f_leb y (size_h dwg) = true).
Proof.
  intros centerline scale dwg Hfin Fs Ps E.
  apply (coordinates_in_box (L := binary64_ordered)); try assumption.
  intros p Hp. unfold finite_curve in Hfin.
  rewrite forallb_forall in Hfin. now apply andb_true_iff, Hfin.
Qed.

Lemma C10_coordinates_in_box_witness :
  let pt (x y : Z) : vec3 B64.float := V3 (dec x 10) (dec y 10) (B64.of_Z 0) in
  let centerline :=
    [pt 0 0; pt 1 3; pt 2 4; pt 3 3; pt 4 0; pt 5 (-5); pt 6 1]%Z in
  exists dwg,
    create_svg centerline (B64.of_Z 2) = inr dwg
    /\ forall x y, In (x, y) (path_points (path dwg)) ->
         f_leb (f_of_Z 0) x = true /\ f_leb x (size_w dwg) = true.
Proof.
  intros pt centerline.
  destruct (create_svg centerline (B64.of_Z 2)) as [e | dwg] eqn:E;
    [vm_compute in E; discriminate E|].
  exists dwg. split; [reflexivity|].
  destruct (C10_coordinates_in_box centerline (B64.of_Z 2) dwg
              eq_refl eq_refl eq_refl E)
    as (mins & maxs & _ & _ & _ & _ & Hbox).
  intros x y Hxy. destruct (Hbox x y Hxy) as (_ & _ & Hx & _). exact Hx.
Defined.

(* ================================================================== *)
(** * Further properties of the code *)

(* ------------------------------------------------------------------ *)
(** ** The partition into chunks *)

Lemma make_chunks_shape (n num_processes : nat) (chunks : list (list nat)) :
  make_chunks n num_processes = inr chunks ->
  let chunk_size := n / num_processes in
  0 < chunk_size
  /\ chunks = map (fun i => py_range i (Nat.min (i + chunk_size) n))
                  (map (fun k => k * chunk_size)
                       (seq 0 ((n + chunk_size - 1) / chunk_size))).
Proof.
  unfold make_chunks, py_range_step.
  destruct (num_processes =? 0); [discriminate|].
  destruct (n / num_processes =? 0) eqn:Ecs; [discriminate|].
  apply Nat.eqb_neq in Ecs. cbn [bind ok]. intros E. inversion E; subst chunks; clear E.
  cbv zeta. split; [lia|]. rewrite Nat.sub_0_r. f_equal.
Qed.

(** X1: the chunks handed to the pool are runs of consecutive
    indices, none empty and none longer than
    [chunk_size = n // cpu_count]; put end to end they are
    [0, 1, ..., n-1]; and there are [ceil (n / chunk_size)] of them,
    which can be more than [cpu_count]. *)
Theorem X1_chunks_partition :
  forall (n cpu_count : nat) (chunks : list (list nat)),
    make_chunks n cpu_count = inr chunks ->
    let chunk_size := n / cpu_count in
    concat chunks = seq 0 n
    /\ (forall c, In c chunks ->
          exists start, c = seq start (length c)
                        /\ 1 <= length c <= chunk_size)
    /\ length chunks = (n + chunk_size - 1) / chunk_size.
Proof.
  intros n cpu chunks E cs.
  pose proof (make_chunks_cover n cpu chunks E) as Hcover.
  destruct (make_chunks_shape n cpu chunks E) as [Hcs Hshape]. fold cs in Hcs, Hshape.
  split; [exact Hcover|]. split.
  - intros c Hc. rewrite Hshape in Hc.
    apply in_map_iff in Hc as [i [<- Hi]].
    apply in_map_iff in Hi as [k [<- Hk]]. apply in_seq in Hk.
    exists (k * cs). unfold py_range. rewrite length_seq. split; [reflexivity|].
    pose proof (Nat.div_mod (n + cs - 1) cs ltac:(lia)) as Hd.
    pose proof (Nat.mod_upper_bound (n + cs - 1) cs ltac:(lia)) as Hm.
    assert (k * cs < n) by nia. lia.
  - rewrite Hshape, !length_map, length_seq. reflexivity.
Qed.

Lemma X1_chunks_partition_witness :
  exists chunks,
    make_chunks 10 4 = inr chunks
    /\ concat chunks = seq 0 10 /\ length chunks = 5.
Proof.
  exists [[0; 1]; [2; 3]; [4; 5]; [6; 7]; [8; 9]].
  split; [reflexivity|].
  destruct (X1_chunks_partition 10 4 _ eq_refl) as (Hc & _ & Hl).
  split; [exact Hc | exact Hl].
Defined.

(* ------------------------------------------------------------------ *)
(** ** Fewer facets than processes *)

Lemma map_result_length {A B} (f : A -> result B) (xs : list A) : forall ys,
  map_result f xs = inr ys -> length ys = length xs.
Proof.
  induction xs as [|x xs IH]; simpl; intros ys E.
  - now inversion E.
  - destruct (f x) as [e|y]; [discriminate|]. cbn [bind] in E.
    destruct (map_result f xs) as [e|ys']; [discriminate|]. cbn [bind ok] in E.
    inversion E; subst. simpl. f_equal. now apply IH.
Qed.

Lemma getitem_class {A} (l : list A) (i : nat) (e : exn) :
  getitem l i = inl e -> exn_class e = IndexError.
Proof.
  unfold getitem. destruct (nth_error l i); [discriminate|].
  intros E. inversion E. reflexivity.
Qed.

Lemma map_getitem_class {A} (l : list A) (idx : list nat) (e : exn) :
  map_result (getitem l) idx = inl e -> exn_class e = IndexError.
Proof.
  induction idx as [|i idx IH]; simpl; [discriminate|].
  destruct (getitem l i) as [e'|y] eqn:Ei.
  - cbn [bind]. intros E. inversion E; subst. eapply getitem_class, Ei.
  - cbn [bind]. destruct (map_result (getitem l) idx) as [e'|ys]; cbn [bind ok].
    + intros E. inversion E; subst. now apply IH.
    + discriminate.
Qed.

Lemma search_too_few {F : Type} `{Arith F} (cpu_count : nat)
    (facet_centroids facet_normals : list (vec3 F)) (max_distance : F) :
  1 <= cpu_count -> length facet_centroids < cpu_count ->
  search cpu_count facet_centroids facet_normals max_distance
  = inl (Raise ValueError).
Proof.
  intros Hc Hn. unfold search, make_chunks, py_range_step.
  replace (cpu_count =? 0) with false by (symmetry; apply Nat.eqb_neq; lia).
  rewrite (Nat.div_small _ _ Hn). reflexivity.
Qed.

(** X2: [extract_centerline] cannot work with fewer facets than the
    machine has processes: [chunk_size] is then [0] and [range()]
    refuses a zero step.  Without sampling the exception is that
    [ValueError]; when the facets are sampled down to fewer than
    [cpu_count], the call raises too ([ValueError], or the
    [IndexError] of an index drawn out of range). *)
Theorem X2_fewer_facets_than_processes :
  forall (F : Type) (A : Arith F) (permutation : nat -> list nat)
         (cpu_count : nat)
         (principal_axes : list (vec3 F) -> result (list (vec3 F)))
         (no_columns_tail : nat -> result (list (vec3 F) * F))
         (face_normals triangles_center : list (vec3 F))
         (max_distance : F) (sample_size : Z),
    1 <= cpu_count ->
    let run :=
      extract_centerline permutation cpu_count principal_axes no_columns_tail
        face_normals triangles_center max_distance sample_size in
    (length triangles_center < cpu_count ->
     (Z.of_nat (length triangles_center) <= sample_size)%Z ->
     fails_with ValueError run)
    /\ ((sample_size < Z.of_nat cpu_count)%Z ->
        (sample_size < Z.of_nat (length triangles_center))%Z ->
        exists e, run = inl e
                  /\ (exn_class e = ValueError \/ exn_class e = IndexError)).
Proof.
  intros F A permutation cpu pa tail ns cs md ss Hcpu run. subst run. split.
  - intros Hn Hss. exists (Raise ValueError). split; [|reflexivity].
    unfold extract_centerline, sample_facets.
    replace (ss <? Z.of_nat (length cs))%Z with false by (symmetry; apply Z.ltb_ge; lia).
    cbn [bind ok]. now rewrite search_too_few.
  - intros Hss Hn. unfold extract_centerline, sample_facets.
    replace (ss <? Z.of_nat (length cs))%Z with true by (symmetry; apply Z.ltb_lt; lia).
    destruct (Z_lt_le_dec ss 0) as [Hneg | Hpos].
    + rewrite random_choice_negative by exact Hneg. cbn [bind].
      eexists. split; [reflexivity|]. now left.
    + unfold random_choice.
      replace ((Z.of_nat (length cs) <=? 0)%Z) with false by (symmetry; apply Z.leb_gt; lia).
      cbn [andb].
      replace (Z.of_nat (length cs) <? ss)%Z with false by (symmetry; apply Z.ltb_ge; lia).
      replace (ss <? 0)%Z with false by (symmetry; apply Z.ltb_ge; lia).
      cbn [bind ok].
      set (indices := firstn (Z.to_nat ss) (permutation (length cs))).
      assert (Hlen : length indices < cpu).
      { unfold indices. rewrite length_firstn. lia. }
      destruct (map_result (getitem ns) indices) as [e|fns] eqn:En; cbn [bind].
      { exists e. split; [reflexivity|]. right. eapply map_getitem_class, En. }
      destruct (map_result (getitem cs) indices) as [e|fcs] eqn:Ec; cbn [bind ok].
      { exists e. split; [reflexivity|]. right. eapply map_getitem_class, Ec. }
      apply map_result_length in Ec.
      rewrite search_too_few by lia. cbn [bind].
      eexists. split; [reflexivity|]. now left.
Qed.

Lemma X2_fewer_facets_than_processes_witness :
  let facets := [Toy.point 0; Toy.point 1; Toy.point 2] in
  fails_with ValueError
    (extract_centerline identity_draw 8 (fun pts => ok pts)
       (fun _ => raise ValueError) facets facets Toy.one 1000).
Proof.
  intros facets.
  apply (X2_fewer_facets_than_processes B64.float binary64 identity_draw 8
           (fun pts => ok pts) (fun _ => raise ValueError) facets facets
           Toy.one 1000%Z); simpl; lia.
Defined.

(* ------------------------------------------------------------------ *)
(** ** The search as one sequential scan *)

Section ScanFacts.
Context {F : Type} `{Arith F}.
Variables (all_centroids all_normals : list (vec3 F)) (max_distance : F).
Hypothesis aligned : length all_normals = length all_centroids.

Let facets := combine all_centroids all_normals.

Lemma skipn_combine_cons (i : nat) :
  i < length all_centroids ->
  exists p v,
    getitem all_centroids i = inr p /\ getitem all_normals i = inr v
    /\ skipn i facets = (p, v) :: skipn (S i) facets.
Proof.
  subst facets. revert aligned. generalize all_normals as ns.
  revert i. induction all_centroids as [|c cs IH]; intros i ns Hal Hi; [simpl in Hi; lia|].
  destruct ns as [|n ns]; [discriminate Hal|].
  destruct i as [|i].
  - exists c, n. repeat split.
  - destruct (IH i ns) as (p & v & Ep & Ev & Es); [simpl in Hal; lia | simpl in Hi; lia|].
    exists p, v. split; [exact Ep|]. split; [exact Ev|]. exact Es.
Qed.

Lemma facets_length : length facets = length all_centroids.
Proof. subst facets. rewrite length_combine. lia. Qed.

Lemma inner_scan (p1 v1 : vec3 F) (k : nat) : forall a acc,
  a + k <= length all_centroids ->
  for_each (seq a k)
    (fun j local_center_points =>
       p2 <- getitem all_centroids j ;;
       v2 <- getitem all_normals j ;;
       ok (match pair_candidate max_distance p1 v1 p2 v2 with
           | Some intersection_point => local_center_points ++ [intersection_point]
           | None => local_center_points
           end)) acc
  = inr (acc ++ scan_row max_distance p1 v1 (firstn k (skipn a facets))).
Proof.
  induction k as [|k IH]; intros a acc Ha.
  - simpl. now rewrite app_nil_r.
  - destruct (skipn_combine_cons a ltac:(lia)) as (p2 & v2 & Ep & Ev & Es).
    cbn [seq for_each]. rewrite Ep, Ev. cbn [bind ok].
    rewrite IH by lia. rewrite Es. cbn [firstn]. unfold scan_row. cbn [flat_map fst snd].
    destruct (pair_candidate max_distance p1 v1 p2 v2);
      cbn [app]; rewrite <- ?app_assoc; reflexivity.
Qed.

Lemma outer_scan (chunk : list nat) : forall acc,
  (forall i, In i chunk -> i < length all_centroids) ->
  for_each chunk
    (fun i local_center_points =>
       p1 <- getitem all_centroids i ;;
       v1 <- getitem all_normals i ;;
       for_each (py_range (i + 1) (length all_centroids))
         (fun j local_center_points =>
            p2 <- getitem all_centroids j ;;
            v2 <- getitem all_normals j ;;
            ok (match pair_candidate max_distance p1 v1 p2 v2 with
                | Some intersection_point =>
                    local_center_points ++ [intersection_point]
                | None => local_center_points
                end))
         local_center_points) acc
  = inr (acc ++ concat (map (scan_at max_distance facets) chunk)).
Proof.
  induction chunk as [|i chunk IH]; intros acc Hin.
  - simpl. now rewrite app_nil_r.
  - assert (Hi : i < length all_centroids) by (apply Hin; now left).
    destruct (skipn_combine_cons i Hi) as (p1 & v1 & Ep & Ev & Es).
    cbn [for_each]. rewrite Ep, Ev. cbn [bind ok]. unfold py_range.
    rewrite inner_scan by lia. cbn [bind].
    rewrite IH by (intros j Hj; apply Hin; now right).
    cbn [map concat]. unfold scan_at at 2. rewrite Es.
    replace (i + 1) with (S i) by lia.
    rewrite firstn_all2
      by (rewrite length_skipn, facets_length; lia).
    now rewrite <- app_assoc.
Qed.

Lemma process_chunk_scan (chunk : list nat) :
  (forall i, In i chunk -> i < length all_centroids) ->
  process_chunk chunk all_centroids all_normals max_distance
  = inr (concat (map (scan_at max_distance facets) chunk)).
Proof. intros Hin. unfold process_chunk. now rewrite outer_scan. Qed.

Lemma pool_map_scan (chunks : list (list nat)) :
  (forall i, In i (concat chunks) -> i < length all_centroids) ->
  pool_map chunks all_centroids all_normals max_distance
  = inr (map (fun chunk => concat (map (scan_at max_distance facets) chunk)) chunks).
Proof.
  unfold pool_map. induction chunks as [|c chunks IH]; intros Hin; [reflexivity|].
  cbn [map_result map].
  rewrite process_chunk_scan by (intros i Hi; apply Hin, in_or_app; now left).
  cbn [bind]. rewrite IH by (intros i Hi; apply Hin, in_or_app; now right).
  reflexivity.
Qed.

Lemma pair_scan_rows (k : nat) : forall a,
  a + k = length all_centroids ->
  pair_scan max_distance (skipn a facets)
  = concat (map (scan_at max_distance facets) (seq a k)).
Proof.
  induction k as [|k IH]; intros a Ha.
  - rewrite skipn_all2 by (rewrite facets_length; lia). reflexivity.
  - destruct (skipn_combine_cons a ltac:(lia)) as (p & v & _ & _ & Es).
    cbn [seq map concat]. unfold scan_at at 1. rewrite Es. cbn [pair_scan].
    f_equal. apply IH. lia.
Qed.

Lemma concat_concat_map {A B} (g : A -> list B) (ls : list (list A)) :
  concat (map (fun l => concat (map g l)) ls) = concat (map g (concat ls)).
Proof.
  induction ls as [|l ls IH]; [reflexivity|].
  cbn [map concat]. now rewrite map_app, concat_app, IH.
Qed.

Lemma search_scan (cpu_count : nat) :
  0 < length all_centroids / cpu_count ->
  exists results,
    search cpu_count all_centroids all_normals max_distance = inr results
    /\ candidates results = pair_scan max_distance facets.
Proof.
  intros Hpos. unfold search.
  destruct (make_chunks_returns _ _ Hpos) as [chunks Ech]. rewrite Ech. cbn [bind].
  pose proof (make_chunks_cover _ _ _ Ech) as Hcover.
  rewrite pool_map_scan
    by (rewrite Hcover; intros i Hi; apply in_seq in Hi; lia).
  eexists. split; [reflexivity|].
  unfold candidates. rewrite concat_concat_map, Hcover.
  symmetry. apply (pair_scan_rows (length all_centroids) 0). reflexivity.
Qed.

End ScanFacts.

(** X3: the parallel search finds what one sequential scan finds.
    For aligned facet arrays and any number of processes that leaves
    each chunk at least one index, the results gathered from the pool
    are, chunk after chunk, exactly the points of a scan of every facet
    against every later facet, in the order of the arrays; so the
    candidates do not depend on [cpu_count]. *)
Theorem X3_search_is_a_sequential_scan :
  forall (F : Type) (A : Arith F) (cpu_count : nat)
         (facet_centroids facet_normals : list (vec3 F)) (max_distance : F),
    length facet_normals = length facet_centroids ->
    0 < length facet_centroids / cpu_count ->
    exists results,
      search cpu_count facet_centroids facet_normals max_distance = inr results
      /\ candidates results
         = pair_scan max_distance (combine facet_centroids facet_normals).
Proof. intros F A cpu cs ns md Hal Hpos. now apply search_scan. Qed.

Lemma X3_search_is_a_sequential_scan_witness :
  let cs := [V3 (B64.of_Z 0) (B64.of_Z 0) (B64.of_Z 0);
             V3 (B64.of_Z 1) (B64.of_Z 0) (B64.of_Z 0);
             V3 (B64.of_Z 0) (B64.of_Z 1) (B64.of_Z 0)] in
  let ns := [V3 (B64.of_Z 1) (B64.of_Z 1) (B64.of_Z 0);
             V3 (B64.of_Z (-1)) (B64.of_Z 1) (B64.of_Z 0);
             V3 (B64.of_Z 1) (B64.of_Z (-1)) (B64.of_Z 0)] in
  exists results,
    search 2 cs ns (B64.of_Z 1) = inr results
    /\ candidates results = pair_scan (B64.of_Z 1) (combine cs ns).
Proof.
  intros cs ns.
  apply (X3_search_is_a_sequential_scan B64.float binary64 2 cs ns (B64.of_Z 1));
    [reflexivity | vm_compute; lia].
Defined.

(* ------------------------------------------------------------------ *)
(** ** A [max_distance] that is not positive *)

Lemma separation_not_below (x max_distance : B64.float) :
  B64.ltb (B64.of_Z 0) max_distance = false ->
  B64.ltb (B64.sqrt x) max_distance = false.
Proof.
  intros Hmd. destruct (B64.ltb (B64.sqrt x) max_distance) eqn:E; [|reflexivity].
  apply B64Order.ltb_key in E as (Ns & Nm & Hlt).
  pose proof (sqrt_not_below_zero x (B64.of_Z 0) eq_refl) as Hz.
  assert (Hge : ~ B64.key_lt (B64.key (B64.sqrt x)) (B64.key (B64.of_Z 0))).
  { intros Hk. assert (B64.ltb (B64.sqrt x) (B64.of_Z 0) = true); [|congruence].
    apply B64Order.ltb_key. repeat split; assumption. }
  assert (B64.ltb (B64.of_Z 0) max_distance = true); [|congruence].
  apply B64Order.ltb_key. split; [reflexivity|]. split; [exact Nm|].
  destruct (B64.key (B64.sqrt x)) as [[c e] m], (B64.key max_distance) as [[c' e'] m'].
  change (B64.key (B64.of_Z 0)) with (0, 0, 0)%Z in *.
  unfold B64.key_lt in *. lia.
Qed.

Lemma not_positive_no_candidate (max_distance : B64.float) :
  B64.ltb (B64.of_Z 0) max_distance = false ->
  forall p1 v1 p2 v2 : vec3 B64.float,
    pair_candidate max_distance p1 v1 p2 v2 = None.
Proof.
  intros Hmd p1 v1 p2 v2. unfold pair_candidate.
  destruct (f_gtb _ _); [reflexivity|].
  unfold closest_point_between_lines, norm.
  change (f_ltb (f_sqrt ?x) max_distance) with (B64.ltb (B64.sqrt x) max_distance).
  now rewrite separation_not_below.
Qed.

(** X4: the search finds nothing unless [max_distance] is positive.
    When [0 < max_distance] is false (a zero, a negative number or
    NaN), no pair of facets passes [distance < max_distance], because
    the separation is a square root and so never below zero; every
    chunk comes back empty. *)
Theorem X4_no_candidate_unless_positive :
  forall (cpu_count : nat) (facet_centroids facet_normals : list (vec3 B64.float))
         (max_distance : B64.float) (results : list (list (vec3 B64.float))),
    B64.ltb (B64.of_Z 0) max_distance = false ->
    search cpu_count facet_centroids facet_normals max_distance = inr results ->
    candidates results = [] /\ Forall (fun r => r = []) results.
Proof.
  intros cpu cs ns md results Hmd E. unfold search in E.
  destruct (make_chunks (length cs) cpu) as [e|chunks]; [discriminate|].
  cbn [bind] in E.
  assert (Hall : Forall (fun r => r = []) results).
  { revert results E. unfold pool_map.
    induction chunks as [|c chunks IH]; simpl; intros results E.
    - inversion E. constructor.
    - destruct (process_chunk c cs ns md) as [e|r] eqn:Ec; [discriminate|].
      cbn [bind] in E.
      destruct (map_result _ chunks) as [e|rs]; [discriminate|].
      cbn [bind ok] in E. inversion E; subst.
      constructor; [|now apply IH].
      eapply process_chunk_nothing; [|exact Ec].
      now apply not_positive_no_candidate. }
  split; [|exact Hall].
  unfold candidates. clear E. induction Hall as [|r rs Hr _ IH]; [reflexivity|].
  subst r. exact IH.
Qed.

Lemma X4_no_candidate_unless_positive_witness :
  let cs := [V3 (B64.of_Z 0) (B64.of_Z 0) (B64.of_Z 0);
             V3 (B64.of_Z 1) (B64.of_Z 0) (B64.of_Z 0);
             V3 (B64.of_Z 0) (B64.of_Z 1) (B64.of_Z 0)] in
  let ns := [V3 (B64.of_Z 1) (B64.of_Z 1) (B64.of_Z 0);
             V3 (B64.of_Z (-1)) (B64.of_Z 1) (B64.of_Z 0);
             V3 (B64.of_Z 1) (B64.of_Z (-1)) (B64.of_Z 0)] in
  exists results,
    search 2 cs ns (B64.of_Z (-1)) = inr results /\ candidates results = [].
Proof.
  intros cs ns.
  destruct (search 2 cs ns (B64.of_Z (-1))) as [e | results] eqn:E;
    [vm_compute in E; discriminate E|].
  exists results. split; [reflexivity|].
  apply (X4_no_candidate_unless_positive 2 cs ns (B64.of_Z (-1)) results eq_refl E).
Defined.

(* ------------------------------------------------------------------ *)
(** ** A last chunk of one index *)

Lemma concat_all_empty {A} (l : list (list A)) :
  forallb (fun r => match r with [] => true | _ => false end) l = true ->
  concat l = [].
Proof.
  induction l as [|x l IH]; [reflexivity|].
  cbn [forallb concat]. intros E. apply andb_true_iff in E as [Ex El].
  destruct x; [|discriminate]. now apply IH.
Qed.

Lemma vstack_with_empty {F : Type} (results : list (list (vec3 F))) :
  In [] results -> candidates results <> [] ->
  vstack results = inl (Raise ValueError).
Proof.
  intros Hin Hne. unfold vstack.
  destruct results as [|r rs]; [reflexivity|].
  destruct (forallb _ (r :: rs)) eqn:Eall.
  - exfalso. apply Hne. now apply concat_all_empty.
  - replace (existsb _ (r :: rs)) with true; [reflexivity|].
    symmetry. apply existsb_exists. exists []. split; [exact Hin | reflexivity].
Qed.

Lemma last_chunk_single (n num_processes : nat) (chunks : list (list nat)) :
  make_chunks n num_processes = inr chunks ->
  n mod (n / num_processes) = 1 ->
  In [n - 1] chunks.
Proof.
  intros E Hmod. destruct (make_chunks_shape n num_processes chunks E) as [Hcs ->].
  set (cs := n / num_processes) in *.
  pose proof (Nat.div_mod n cs ltac:(lia)) as Hd. rewrite Hmod in Hd.
  apply in_map_iff. exists (n - 1). split.
  - unfold py_range. replace (Nat.min (n - 1 + cs) n) with n by lia.
    replace (n - (n - 1)) with 1 by lia. reflexivity.
  - apply in_map_iff. exists (n / cs). split; [lia|].
    apply in_seq. split; [lia|]. cbn [Nat.add].
    rewrite <- (Nat.div_unique (n + cs - 1) cs (n / cs + 1) 0); lia.
Qed.

Section LastChunk.
Context {F : Type} `{Arith F}.
Variables (all_centroids all_normals : list (vec3 F)) (max_distance : F).
Hypothesis aligned : length all_normals = length all_centroids.

Lemma scan_at_last :
  scan_at max_distance (combine all_centroids all_normals)
    (length all_centroids - 1) = [].
Proof.
  unfold scan_at.
  destruct (skipn (length all_centroids - 1) (combine all_centroids all_normals))
    as [|[p v] later] eqn:E; [reflexivity|].
  assert (Hl : length (skipn (length all_centroids - 1)
                         (combine all_centroids all_normals)) <= 1)
    by (rewrite length_skipn, length_combine; lia).
  rewrite E in Hl. destruct later; [reflexivity | simpl in Hl; lia].
Qed.

Lemma search_last_result (cpu_count : nat) (results : list (list (vec3 F))) :
  length all_centroids mod (length all_centroids / cpu_count) = 1 ->
  search cpu_count all_centroids all_normals max_distance = inr results ->
  In [] results.
Proof.
  intros Hmod E. unfold search in E.
  destruct (make_chunks (length all_centroids) cpu_count) as [e|chunks] eqn:Ech;
    [discriminate|].
  cbn [bind] in E.
  pose proof (make_chunks_cover _ _ _ Ech) as Hcover.
  rewrite (pool_map_scan all_centroids all_normals max_distance aligned) in E
    by (rewrite Hcover; intros i Hi; apply in_seq in Hi; lia).
  inversion E; subst results; clear E.
  apply in_map_iff. exists [length all_centroids - 1]. split.
  - cbn [map concat]. now rewrite scan_at_last.
  - now apply last_chunk_single with (num_processes := cpu_count).
Qed.

End LastChunk.

(** X5: when the number of facets leaves a remainder of one after
    division by [chunk_size = n // cpu_count], the last chunk is the
    single index [n - 1], which has no later facet to be paired with:
    its worker returns [np.array([])].  If any pair of facets yields a
    candidate, [np.vstack] is then given arrays of widths 0 and 3 and
    [extract_centerline] raises [ValueError]. *)
Theorem X5_single_index_chunk_breaks_the_stacking :
  forall (F : Type) (A : Arith F) (permutation : nat -> list nat)
         (cpu_count : nat)
         (principal_axes : list (vec3 F) -> result (list (vec3 F)))
         (no_columns_tail : nat -> result (list (vec3 F) * F))
         (face_normals triangles_center : list (vec3 F))
         (max_distance : F) (sample_size : Z),
    let n := length triangles_center in
    length face_normals = n ->
    (Z.of_nat n <= sample_size)%Z ->
    n mod (n / cpu_count) = 1 ->
    pair_scan max_distance (combine triangles_center face_normals) <> [] ->
    fails_with ValueError
      (extract_centerline permutation cpu_count principal_axes no_columns_tail
         face_normals triangles_center max_distance sample_size).
Proof.
  intros F A permutation cpu pa tail ns cs md ss n Hal Hss Hmod Hne.
  exists (Raise ValueError). split; [|reflexivity].
  unfold extract_centerline, sample_facets. fold n.
  replace (ss <? Z.of_nat n)%Z with false by (symmetry; apply Z.ltb_ge; lia).
  cbn [bind ok].
  destruct (Nat.eq_dec (n / cpu) 0) as [Hz | Hnz].
  - unfold search, make_chunks, py_range_step. fold n. rewrite Hz.
    destruct (cpu =? 0) eqn:Ecpu; [|reflexivity].
    exfalso. apply Nat.eqb_eq in Ecpu. subst cpu.
    rewrite Hz in Hmod. cbn in Hmod.
    assert (Hn1 : n = 1) by exact Hmod.
    apply Hne. subst n. destruct cs as [|c [|c' cs]]; try discriminate Hn1.
    destruct ns as [|v [|v' ns]]; try discriminate Hal. reflexivity.
  - destruct (search_scan cs ns md Hal cpu ltac:(fold n; lia)) as (results & E & Hc).
    rewrite E. cbn [bind].
    rewrite vstack_with_empty; [reflexivity | |].
    + apply (search_last_result cs ns md Hal cpu); [exact Hmod | exact E].
    + now rewrite Hc.
Qed.

Lemma X5_single_index_chunk_breaks_the_stacking_witness :
  let cs := [V3 (B64.of_Z 0) (B64.of_Z 0) (B64.of_Z 0);
             V3 (B64.of_Z 1) (B64.of_Z 0) (B64.of_Z 0);
             V3 (B64.of_Z 0) (B64.of_Z 1) (B64.of_Z 0);
             V3 (B64.of_Z 2) (B64.of_Z 0) (B64.of_Z 0);
             V3 (B64.of_Z 0) (B64.of_Z 2) (B64.of_Z 0)] in
  let ns := [V3 (B64.of_Z 1) (B64.of_Z 1) (B64.of_Z 0);
             V3 (B64.of_Z (-1)) (B64.of_Z 1) (B64.of_Z 0);
             V3 (B64.of_Z 1) (B64.of_Z (-1)) (B64.of_Z 0);
             V3 (B64.of_Z 1) (B64.of_Z 2) (B64.of_Z 0);
             V3 (B64.of_Z 2) (B64.of_Z 1) (B64.of_Z 0)] in
  fails_with ValueError
    (extract_centerline identity_draw 2 (fun pts => ok pts)
       (fun _ => ok ([], B64.of_Z 0)) ns cs (B64.of_Z 1) 1000).
Proof.
  intros cs ns.
  apply (X5_single_index_chunk_breaks_the_stacking B64.float binary64 identity_draw 2
           (fun pts => ok pts) (fun _ => ok ([], B64.of_Z 0)) ns cs
           (B64.of_Z 1) 1000%Z).
  - reflexivity.
  - simpl. lia.
  - reflexivity.
  - vm_compute. discriminate.
Defined.

(* ------------------------------------------------------------------ *)
(** ** Sampling keeps each facet's normal with its centroid *)

Lemma map_getitem_inv {A} (l : list A) (idx : list nat) : forall ys,
  map_result (getitem l) idx = inr ys ->
  Forall2 (fun i y => nth_error l i = Some y) idx ys.
Proof.
  induction idx as [|i idx IH]; simpl; intros ys E.
  - inversion E. constructor.
  - unfold getitem at 1 in E. destruct (nth_error l i) as [y|] eqn:Ei; [|discriminate].
    cbn [bind ok] in E.
    destruct (map_result (getitem l) idx) as [e|ys']; [discriminate|].
    cbn [bind ok] in E. inversion E; subst. constructor; [exact Ei | now apply IH].
Qed.

Lemma nth_error_combine_in {A B} (la : list A) : forall (lb : list B) i a b,
  nth_error la i = Some a -> nth_error lb i = Some b -> In (a, b) (combine la lb).
Proof.
  induction la as [|x la IH]; intros lb i a b Ha Hb; [destruct i; discriminate|].
  destruct lb as [|y lb]; [destruct i; discriminate|].
  destruct i as [|i]; simpl in *.
  - inversion Ha; inversion Hb; subst. now left.
  - right. eapply IH; eassumption.
Qed.

Lemma sampled_pairs {A B} (la : list A) (lb : list B) (idx : list nat) :
  forall la' lb',
    Forall2 (fun i y => nth_error la i = Some y) idx la' ->
    Forall2 (fun i y => nth_error lb i = Some y) idx lb' ->
    forall ab, In ab (combine la' lb') -> In ab (combine la lb).
Proof.
  induction idx as [|i idx IH]; intros la' lb' Ha Hb ab Hin.
  - inversion Ha; subst. destruct Hin.
  - inversion Ha as [|? a ? la'' Hia Ha']; subst.
    inversion Hb as [|? b ? lb'' Hib Hb']; subst.
    destruct Hin as [<- | Hin].
    + eapply nth_error_combine_in; eassumption.
    + eapply IH; eassumption.
Qed.

(** X6: sampling never separates a facet's normal from its centroid.
    Whatever indices the generator draws, when [sample_facets] returns
    the two arrays have the same length, and the normal and the
    centroid at any one position are those of one facet of the mesh;
    when it samples it keeps at most [sample_size] facets, and with
    [sample_size] facets or fewer the mesh is handed on as it is. *)
Theorem X6_sampling_keeps_facets_together :
  forall (F : Type) (permutation : nat -> list nat)
         (face_normals triangles_center : list (vec3 F)) (sample_size : Z)
         (facet_normals facet_centroids : list (vec3 F)),
    length face_normals = length triangles_center ->
    sample_facets permutation face_normals triangles_center sample_size
    = inr (facet_normals, facet_centroids) ->
    length facet_normals = length facet_centroids
    /\ (forall nc, In nc (combine facet_normals facet_centroids) ->
                   In nc (combine face_normals triangles_center))
    /\ ((sample_size < Z.of_nat (length triangles_center))%Z ->
        (Z.of_nat (length facet_centroids) <= sample_size)%Z)
    /\ ((Z.of_nat (length triangles_center) <= sample_size)%Z ->
        facet_normals = face_normals /\ facet_centroids = triangles_center).
Proof.
  intros F permutation ns cs ss ns' cs' Hal E. unfold sample_facets in E.
  destruct (ss <? Z.of_nat (length cs))%Z eqn:Ess.
  - apply Z.ltb_lt in Ess.
    destruct (random_choice permutation (length cs) ss) as [e|idx] eqn:Er; [discriminate|].
    cbn [bind] in E.
    destruct (map_result (getitem ns) idx) as [e|a] eqn:Ea; [discriminate|].
    cbn [bind] in E.
    destruct (map_result (getitem cs) idx) as [e|b] eqn:Eb; [discriminate|].
    cbn [bind ok] in E. inversion E; subst a b; clear E.
    pose proof (map_result_length _ _ _ Ea) as La.
    pose proof (map_result_length _ _ _ Eb) as Lb.
    split; [congruence|]. split; [|split].
    + apply (sampled_pairs ns cs idx); now apply map_getitem_inv.
    + intros _. unfold random_choice in Er.
      destruct ((Z.of_nat (length cs) <=? 0)%Z && negb (ss =? 0)%Z); [discriminate|].
      destruct (Z.of_nat (length cs) <? ss)%Z; [discriminate|].
      destruct (ss <? 0)%Z eqn:Eneg; [discriminate|]. apply Z.ltb_ge in Eneg.
      inversion Er; subst idx. rewrite Lb, length_firstn. lia.
    + intros Hge. lia.
  - apply Z.ltb_ge in Ess. inversion E; subst. split; [exact Hal|].
    split; [auto|]. split; [lia | auto].
Qed.

Lemma X6_sampling_keeps_facets_together_witness :
  let ns := [Toy.point 0; Toy.point 1; Toy.point 2] in
  let cs := [Toy.point 10; Toy.point 11; Toy.point 12] in
  exists facet_normals facet_centroids,
    sample_facets identity_draw ns cs 2 = inr (facet_normals, facet_centroids)
    /\ forall nc, In nc (combine facet_normals facet_centroids) ->
                  In nc (combine ns cs).
Proof.
  intros ns cs.
  exists [Toy.point 0; Toy.point 1], [Toy.point 10; Toy.point 11].
  split; [reflexivity|].
  apply (X6_sampling_keeps_facets_together B64.float identity_draw ns cs 2%Z
           [Toy.point 0; Toy.point 1] [Toy.point 10; Toy.point 11]
           eq_refl eq_refl).
Defined.

(* ------------------------------------------------------------------ *)
(** ** What the deduplication returns *)

Section UniqueMore.
Context {A : Type}.
Variable lt : A -> A -> bool.
Variable ne : A -> A -> bool.
Hypothesis same_sym : forall a b, ne a b = false -> ne b a = false.
Hypothesis same_trans : forall a b c, ne a b = false -> ne b c = false -> ne a c = false.

(** An element between two elements that are equal is equal to them. *)
Hypothesis between : forall a b c,
  before lt a b -> before lt b c -> ne c a = false -> ne b a = false.

Lemma sorted_head_distinct (a : A) (l : list A) :
  StronglySorted (before lt) (a :: l) -> all_differ ne a l ->
  Forall (fun c => ne c a = true) l.
Proof.
  intros Hs Hd. destruct l as [|b l]; [constructor|].
  destruct Hd as [Hba _].
  inversion Hs as [|? ? Hs' Ha]; subst.
  inversion Hs' as [|? ? _ Hb]; subst.
  inversion Ha as [|? ? Hab Hal]; subst.
  constructor; [exact Hba|].
  rewrite Forall_forall in *. intros c Hc.
  destruct (ne c a) eqn:E; [reflexivity|].
  rewrite (between a b c Hab (Hb c Hc) E) in Hba. discriminate.
Qed.

Lemma sorted_all_distinct (l : list A) : forall a,
  StronglySorted (before lt) (a :: l) -> all_differ ne a l ->
  ForallOrdPairs (fun a c => ne c a = true) (a :: l).
Proof.
  induction l as [|b l IH]; intros a Hs Hd.
  - constructor; constructor.
  - constructor; [now apply sorted_head_distinct|].
    destruct Hd as [_ Hd]. inversion Hs; subst. now apply IH.
Qed.

Lemma drop_repeats_covers (l : list A) : forall prev kept x,
  kept = prev \/ ne prev kept = false ->
  In x l ->
  exists y, In y (kept :: drop_repeats ne prev l) /\ (y = x \/ ne x y = false).
Proof.
  induction l as [|r l IH]; intros prev kept x Hk Hx; [destruct Hx|].
  cbn [drop_repeats]. destruct (ne r prev) eqn:E.
  - destruct Hx as [<- | Hx].
    + exists r. split; [right; now left | now left].
    + destruct (IH r r x (or_introl eq_refl) Hx) as (y & Hy & Hxy).
      exists y. split; [now right | exact Hxy].
  - assert (Hrk : ne r kept = false).
    { destruct Hk as [-> | Hk]; [exact E | exact (same_trans _ _ _ E Hk)]. }
    destruct Hx as [<- | Hx].
    + exists kept. split; [now left | now right].
    + apply (IH r kept x); [now right | exact Hx].
Qed.

Lemma unique_by_covers (a : list A) (x : A) :
  In x a -> exists y, In y (unique_by lt ne a) /\ (y = x \/ ne x y = false).
Proof.
  intros Hx. unfold unique_by.
  apply (Permutation_in x (Permutation_sym (sort_by_perm lt a))) in Hx.
  destruct (sort_by lt a) as [|r l]; [destruct Hx|].
  destruct Hx as [<- | Hx].
  - exists r. split; [now left | now left].
  - now apply (drop_repeats_covers l r r x (or_introl eq_refl)).
Qed.

Lemma drop_repeats_length (l : list A) : forall prev,
  length (drop_repeats ne prev l) <= length l.
Proof.
  induction l as [|r l IH]; intros prev; simpl; [lia|].
  destruct (ne r prev); simpl; specialize (IH r); lia.
Qed.

Lemma unique_by_length (a : list A) : length (unique_by lt ne a) <= length a.
Proof.
  unfold unique_by. rewrite <- (Permutation_length (sort_by_perm lt a)).
  destruct (sort_by lt a) as [|r l]; simpl; [lia|].
  pose proof (drop_repeats_length l r). lia.
Qed.

End UniqueMore.

Lemma key_eqb_true (k k' : Z * Z * Z) :
  B64.key_eqb k k' = true <-> k = k' /\ fst (fst k) <> 3%Z.
Proof.
  destruct k as [[c e] m], k' as [[c' e'] m']. unfold B64.key_eqb. cbn [fst].
  rewrite !andb_true_iff, negb_true_iff, !Z.eqb_eq, Z.eqb_neq.
  split.
  - intros [[[Hc ->] ->] ->]. now split.
  - intros [E Hc]. inversion E; subst. tauto.
Qed.

Lemma krow_ne_false (a b : row_key) :
  krow_ne a b = false
  <-> a = b /\ fst (fst (fst (fst a))) <> 3%Z /\ fst (fst (snd (fst a))) <> 3%Z
      /\ fst (fst (snd a)) <> 3%Z.
Proof.
  destruct a as [[ax ay] az], b as [[bx by_] bz]. unfold krow_ne. cbn [fst snd].
  rewrite !orb_false_iff, !negb_false_iff, !key_eqb_true.
  split.
  - intros [[[-> Hx] [-> Hy]] [-> Hz]]. tauto.
  - intros (E & Hx & Hy & Hz). inversion E; subst. tauto.
Qed.

Lemma row_between (a b c : vec3 B64.float) :
  before row_lt a b -> before row_lt b c -> row_ne c a = false ->
  row_ne b a = false.
Proof.
  unfold before. rewrite !row_lt_krow_lt, !row_ne_krow_ne.
  intros Hab Hbc Hca. apply krow_ne_false in Hca as (E & Hx & Hy & Hz).
  rewrite E in Hbc.
  assert (Ek : vkey a = vkey b) by (apply krow_antisym; assumption).
  apply krow_ne_false. rewrite <- Ek, <- E. tauto.
Qed.

(** X7: the deduplicated array is sorted, row before row in the
    lexicographic order of the coordinates (NaN last), and no two of
    its rows are equal, however far apart they stand. *)
Theorem X7_dedup_sorted_and_distinct :
  forall S : list (vec3 B64.float),
    StronglySorted (before row_lt) (dedup S)
    /\ ForallOrdPairs (fun a c => row_ne c a = true) (dedup S).
Proof.
  intros S. unfold dedup, unique_rows.
  pose proof (unique_by_sorted row_lt row_ne row_lt_asym row_before_trans
                (map (vmap round5) S)) as Hs.
  split; [exact Hs|].
  unfold unique_by in *.
  destruct (sort_by row_lt (map (vmap round5) S)) as [|r l]; [constructor|].
  apply (sorted_all_distinct row_lt row_ne row_between); [exact Hs|].
  apply drop_repeats_differ;
    [exact row_same_sym | exact row_same_trans | now left].
Qed.

(** X8: the deduplication neither invents a point nor loses one.
    Every row it returns is the rounding of a candidate point; every
    candidate point, once rounded, is a row of the result or equal
    ([==] in each coordinate) to one; and the result has no more rows
    than there were candidates. *)
Theorem X8_dedup_keeps_every_point :
  forall S : list (vec3 B64.float),
    (forall q, In q (dedup S) -> exists p, In p S /\ q = vmap round5 p)
    /\ (forall p, In p S ->
          exists q, In q (dedup S)
                    /\ (q = vmap round5 p \/ row_ne (vmap round5 p) q = false))
    /\ length (dedup S) <= length S.
Proof.
  intros S. unfold dedup, unique_rows. split; [|split].
  - intros q Hq. apply unique_by_in, in_map_iff in Hq as [p [E Hp]].
    exists p. split; [exact Hp | now symmetry].
  - intros p Hp.
    apply (unique_by_covers row_lt row_ne row_same_trans
             (map (vmap round5) S) (vmap round5 p)).
    now apply in_map.
  - rewrite <- (length_map (vmap round5) S). apply unique_by_length.
Qed.

(* ------------------------------------------------------------------ *)
(** ** The ordering along the principal axis *)

Lemma map_snd_combine_seq {A} (v : list A) : forall a,
  map snd (combine v (seq a (length v))) = seq a (length v).
Proof.
  induction v as [|x v IH]; intros a; [reflexivity|].
  cbn [length seq combine map snd]. now rewrite IH.
Qed.

Lemma combine_seq_nth {A} (v : list A) : forall a x i,
  In (x, i) (combine v (seq a (length v))) ->
  a <= i /\ nth_error v (i - a) = Some x.
Proof.
  induction v as [|y v IH]; intros a x i Hin; [destruct Hin|].
  cbn [length seq combine] in Hin. destruct Hin as [E | Hin].
  - inversion E; subst. split; [lia|]. now rewrite Nat.sub_diag.
  - apply IH in Hin as [Ha Hn]. split; [lia|].
    replace (i - a) with (S (i - S a)) by lia. exact Hn.
Qed.

Lemma argsort_perm {F : Type} `{Arith F} (v : list F) :
  Permutation (argsort v) (seq 0 (length v)).
Proof.
  unfold argsort. rewrite <- (map_snd_combine_seq v 0) at 2.
  apply Permutation_map, sort_by_perm.
Qed.

Lemma forall2_permutation {A B} (R : A -> B -> Prop) (l l' : list A) :
  Permutation l l' ->
  forall ys, Forall2 R l ys ->
  exists ys', Forall2 R l' ys' /\ Permutation ys ys'.
Proof.
  induction 1 as [| x l l' _ IH | x y l | l l' l'' _ IH1 _ IH2]; intros ys Hf.
  - inversion Hf; subst. exists []. split; constructor.
  - inversion Hf as [|? b ? ys0 Hx Hl]; subst.
    destruct (IH ys0 Hl) as (ys' & Hf' & Hp).
    exists (b :: ys'). split; [now constructor | now constructor].
  - inversion Hf as [|? b ? ys0 Hy Hl]; subst.
    inversion Hl as [|? c ? ys1 Hx Hl']; subst.
    exists (c :: b :: ys1). split; [repeat constructor; assumption | apply perm_swap].
  - destruct (IH1 ys Hf) as (ys' & Hf' & Hp).
    destruct (IH2 ys' Hf') as (ys'' & Hf'' & Hp').
    exists ys''. split; [exact Hf'' | eapply Permutation_trans; eassumption].
Qed.

Lemma forall2_nth_error {A B} (R : A -> B -> Prop) (l : list A) : forall ys i a,
  Forall2 R l ys -> nth_error l i = Some a ->
  exists b, nth_error ys i = Some b /\ R a b.
Proof.
  induction l as [|x l IH]; intros ys i a Hf Hi; [destruct i; discriminate|].
  inversion Hf as [|? y ? ys' Hx Hl]; subst.
  destruct i as [|i]; simpl in *.
  - inversion Hi; subst. eauto.
  - eapply IH; eassumption.
Qed.

Lemma nth_error_seq_all {A} (l ys : list A) :
  Forall2 (fun i y => nth_error l i = Some y) (seq 0 (length l)) ys -> ys = l.
Proof.
  intros Hf. apply nth_error_ext. intros i.
  pose proof (Forall2_length Hf) as Hlen. rewrite length_seq in Hlen.
  destruct (Nat.lt_ge_cases i (length l)) as [Hi | Hi].
  - destruct (forall2_nth_error _ _ ys i i Hf) as (b & Eb & Hb).
    { rewrite nth_error_seq. apply Nat.ltb_lt in Hi. now rewrite Hi. }
    congruence.
  - rewrite (proj2 (nth_error_None l i) Hi).
    apply nth_error_None. lia.
Qed.

Lemma gather_permutation {A} (l : list A) (idx : list nat) (ys : list A) :
  Permutation idx (seq 0 (length l)) ->
  Forall2 (fun i y => nth_error l i = Some y) idx ys ->
  Permutation ys l.
Proof.
  intros Hp Hf.
  destruct (forall2_permutation _ _ _ Hp ys Hf) as (ys' & Hf' & Hp').
  now rewrite <- (nth_error_seq_all l ys' Hf').
Qed.

Lemma gather_returns {A} (l : list A) (idx : list nat) :
  (forall i, In i idx -> i < length l) ->
  exists ys, map_result (getitem l) idx = inr ys.
Proof.
  induction idx as [|i idx IH]; intros Hin; [now exists []|].
  destruct (getitem_ok l i (Hin i (or_introl eq_refl))) as [y Ey].
  destruct IH as [ys Eys]; [intros j Hj; apply Hin; now right|].
  exists (y :: ys). cbn [map_result]. now rewrite Ey, Eys.
Qed.

Section OrderFacts.
Context {F : Type} `{Arith F}.
Variable principal_axes : list (vec3 F) -> result (list (vec3 F)).

(** The coordinate of a point along [axis], measured from the mean. *)
Let projection (center_points : list (vec3 F)) (axis p : vec3 F) : F :=
  dot (vsub p (mean_rows center_points)) axis.

Lemma order_points_inv (center_points ordered : list (vec3 F)) :
  order_points principal_axes center_points = inr ordered ->
  exists axis rest,
    principal_axes center_points = inr (axis :: rest)
    /\ Forall2 (fun i y => nth_error center_points i = Some y)
         (argsort (map (projection center_points axis) center_points)) ordered.
Proof.
  unfold order_points. intros E.
  destruct (principal_axes center_points) as [e|pca]; [discriminate|].
  cbn [bind] in E. destruct pca as [|axis rest]; [discriminate|].
  cbn [getitem nth_error bind ok] in E.
  exists axis, rest. split; [reflexivity|].
  now apply map_getitem_inv.
Qed.

Lemma order_points_perm (center_points ordered : list (vec3 F)) :
  order_points principal_axes center_points = inr ordered ->
  Permutation ordered center_points.
Proof.
  intros E. apply order_points_inv in E as (axis & rest & _ & Hf).
  eapply gather_permutation; [|exact Hf].
  rewrite <- (length_map (projection center_points axis) center_points).
  apply argsort_perm.
Qed.

Lemma order_points_returns (center_points : list (vec3 F)) (axis : vec3 F)
    (rest : list (vec3 F)) :
  principal_axes center_points = inr (axis :: rest) ->
  exists ordered, order_points principal_axes center_points = inr ordered.
Proof.
  intros E. unfold order_points. rewrite E. cbn [bind getitem nth_error ok].
  apply gather_returns. intros i Hi.
  apply (Permutation_in i (argsort_perm _)) in Hi.
  rewrite length_map in Hi. apply in_seq in Hi. lia.
Qed.

End OrderFacts.

(** X9: the returned centerline is a rearrangement of the
    deduplicated candidates: ordering along the principal axis loses
    no point, repeats none and adds none, whatever axes trimesh
    returns; the wire diameter is measured on that rearrangement; and
    the ordering itself raises nothing once [principal_axes] has
    returned at least one axis. *)
Theorem X9_ordering_is_a_rearrangement :
  forall (F : Type) (A : Arith F)
         (principal_axes : list (vec3 F) -> result (list (vec3 F)))
         (center_points : list (vec3 F)),
    (forall ordered wire_diameter,
        order_and_measure principal_axes center_points
        = inr (ordered, wire_diameter) ->
        Permutation ordered (dedup center_points)
        /\ wire_diameter = wire_diameter_of ordered)
    /\ (forall axis rest,
          principal_axes (dedup center_points) = inr (axis :: rest) ->
          exists ordered,
            order_and_measure principal_axes center_points
            = inr (ordered, wire_diameter_of ordered)).
Proof.
  intros F A pa cps. unfold order_and_measure. split.
  - intros ordered wd E.
    destruct (order_points pa (dedup cps)) as [e|o] eqn:Eo; [discriminate|].
    cbn [bind ok] in E. inversion E; subst. split; [|reflexivity].
    eapply order_points_perm, Eo.
  - intros axis rest E.
    destruct (order_points_returns pa (dedup cps) axis rest E) as [o Eo].
    exists o. now rewrite Eo.
Qed.

Lemma X9_ordering_is_a_rearrangement_witness :
  let pts := [Toy.point 3; Toy.point 1; Toy.point 2; Toy.point 1] in
  let pa := fun _ : list (vec3 B64.float) =>
              ok [V3 (B64.of_Z 1) (B64.of_Z 0) (B64.of_Z 0)] in
  exists ordered wire_diameter,
    order_and_measure pa pts = inr (ordered, wire_diameter)
    /\ Permutation ordered (dedup pts).
Proof.
  intros pts pa.
  destruct (order_and_measure pa pts) as [e | [ordered wd]] eqn:E;
    [vm_compute in E; discriminate E|].
  exists ordered, wd. split; [reflexivity|].
  apply (proj1 (X9_ordering_is_a_rearrangement B64.float binary64 pa pts) ordered wd E).
Defined.

Section AscendingFacts.
Context {F : Type} `{SortLaws F}.

Let pair_lt (a b : F * nat) : bool := num_lt (fst a) (fst b).

Lemma sorted_pairs_fst (sp : list (F * nat)) :
  StronglySorted (before pair_lt) sp ->
  StronglySorted (before num_lt) (map fst sp).
Proof.
  induction 1 as [|a sp _ IH Ha]; [constructor|].
  cbn [map]. constructor; [exact IH|].
  apply Forall_map. eapply Forall_impl; [|exact Ha]. intros b Hb. exact Hb.
Qed.

Lemma argsort_pairs_sorted (v : list F) :
  StronglySorted (before pair_lt)
    (sort_by pair_lt (combine v (seq 0 (length v)))).
Proof.
  apply sort_by_sorted.
  - intros a b. apply num_lt_asym.
  - intros a b c. unfold before, pair_lt. apply num_before_trans.
Qed.

Lemma gathered_values {P : Type} (g : P -> F) (pts : list P)
    (sp : list (F * nat)) : forall ordered,
  (forall xi, In xi sp -> nth_error (map g pts) (snd xi) = Some (fst xi)) ->
  Forall2 (fun i y => nth_error pts i = Some y) (map snd sp) ordered ->
  map g ordered = map fst sp.
Proof.
  induction sp as [|[x i] sp IH]; intros ordered Hsp Hf.
  - inversion Hf. reflexivity.
  - cbn [map snd] in Hf. inversion Hf as [|? y ? ys Hy Hl]; subst.
    cbn [map fst]. f_equal.
    + specialize (Hsp (x, i) (or_introl eq_refl)). cbn [fst snd] in Hsp.
      rewrite nth_error_map, Hy in Hsp. cbn in Hsp. now inversion Hsp.
    + apply IH; [intros xi Hxi; apply Hsp; now right | exact Hl].
Qed.

Lemma argsort_gathers_sorted {P : Type} (g : P -> F) (pts ordered : list P) :
  Forall2 (fun i y => nth_error pts i = Some y) (argsort (map g pts)) ordered ->
  StronglySorted (before num_lt) (map g ordered).
Proof.
  intros Hf. unfold argsort in Hf. fold pair_lt in Hf.
  rewrite (gathered_values g pts
             (sort_by pair_lt (combine (map g pts) (seq 0 (length (map g pts)))))
             ordered); [| |exact Hf].
  - apply sorted_pairs_fst, argsort_pairs_sorted.
  - intros [x i] Hxi.
    apply (Permutation_in _ (sort_by_perm pair_lt _)) in Hxi.
    apply combine_seq_nth in Hxi as [_ Hn]. cbn [fst snd].
    now rewrite Nat.sub_0_r in Hn.
Qed.

End AscendingFacts.

(** X10: along the returned centerline the projections on the first
    principal axis, measured from the mean of the points, never go
    down: no point projects strictly below the one before it (a NaN
    projection sorts last). *)
Theorem X10_ordered_along_the_axis :
  forall (principal_axes : list (vec3 B64.float) -> result (list (vec3 B64.float)))
         (center_points ordered : list (vec3 B64.float))
         (axis : vec3 B64.float) (rest : list (vec3 B64.float)),
    principal_axes center_points = inr (axis :: rest) ->
    order_points principal_axes center_points = inr ordered ->
    StronglySorted (before num_lt)
      (map (fun p => dot (vsub p (mean_rows center_points)) axis) ordered).
Proof.
  intros pa cps ordered axis rest Ea E.
  apply order_points_inv in E as (axis' & rest' & Ea' & Hf).
  rewrite Ea in Ea'. inversion Ea'; subst axis' rest'.
  now apply (argsort_gathers_sorted
               (fun p => dot (vsub p (mean_rows cps)) axis) cps ordered).
Qed.

Lemma X10_ordered_along_the_axis_witness :
  let pts := [Toy.point 3; Toy.point 1; Toy.point 2] in
  let axis := V3 (B64.of_Z 1) (B64.of_Z 0) (B64.of_Z 0) in
  let pa := fun _ : list (vec3 B64.float) => ok [axis] in
  exists ordered,
    order_points pa pts = inr ordered
    /\ StronglySorted (before num_lt)
         (map (fun p => dot (vsub p (mean_rows pts)) axis) ordered).
Proof.
  intros pts axis pa.
  destruct (order_points pa pts) as [e | ordered] eqn:E;
    [vm_compute in E; discriminate E|].
  exists ordered. split; [reflexivity|].
  apply (X10_ordered_along_the_axis pa pts ordered axis [] eq_refl E).
Defined.

(* ------------------------------------------------------------------ *)
(** ** The wire diameter *)

Module SignFacts.
Import B64.

Lemma not_negative_ltb (x : float) : not_negative x = true <-> ltb x (of_Z 0) = false.
Proof. destruct x as [[|]|[|]| |[|] m e]; cbn; split; intros; congruence. Qed.

Lemma round_aux_not_negative (m e : Z) (l : location) :
  not_negative (binary_round_aux prec emax false m e l) = true.
Proof.
  unfold binary_round_aux.
  destruct (shr_fexp prec emax m e l) as [mrs' e'].
  destruct (shr_fexp prec emax _ e' loc_Exact) as [mrs'' e''].
  destruct (shr_m mrs''); try reflexivity.
  destruct (e'' <=? emax - prec)%Z; reflexivity.
Qed.

Lemma sqrt_not_negative (x : float) : not_negative (sqrt x) = true.
Proof.
  destruct x as [[|]|[|]| |[|] m e]; try reflexivity.
  unfold sqrt, SFsqrt.
  destruct (SFsqrt_core_binary prec emax (Z.pos m) e) as [[mz ez] lz].
  apply round_aux_not_negative.
Qed.

Lemma add_not_negative (a b : float) :
  not_negative a = true -> not_negative b = true -> not_negative (add a b) = true.
Proof.
  destruct a as [sa|[|]| |[|] ma ea]; try discriminate; intros _;
    destruct b as [sb|[|]| |[|] mb eb]; try discriminate; intros _;
    try reflexivity.
  - destruct sa, sb; reflexivity.
  - unfold add, SFadd. cbn [cond_Zopp Z.add binary_normalize].
    destruct (B64Round.round_spec false
                (fst (shl_align ma ea (Z.min ea eb)) + fst (shl_align mb eb (Z.min ea eb)))
                (Z.min ea eb)) as (_ & Hs & _).
    destruct (binary_round prec emax false _ _) as [s|s| |s m e];
      cbn in Hs; try contradiction; subst; reflexivity.
Qed.

Lemma halve_not_negative (a : float) :
  not_negative a = true -> not_negative (div a (of_Z 2)) = true.
Proof.
  destruct a as [sa|[|]| |[|] ma ea]; try discriminate; intros _; try reflexivity.
  unfold div, SFdiv. change (of_Z 2) with (S754_finite false 4503599627370496 (-51)).
  cbv iota beta.
  destruct (SFdiv_core_binary prec emax (Z.pos ma) ea (Z.pos 4503599627370496) (-51))
    as [[mz ez] lz].
  apply round_aux_not_negative.
Qed.

End SignFacts.

Section MedianFacts.
Import B64 SignFacts.

Lemma median_not_negative (v : list B64.float) :
  Forall (fun x => not_negative x = true) v -> not_negative (median v) = true.
Proof.
  intros Hv. unfold median.
  destruct (length v =? 0); [reflexivity|].
  destruct (existsb f_isnan v); [reflexivity|].
  assert (Hs : forall i, not_negative (nth i (sort_by num_lt v) f_nan) = true).
  { intros i. destruct (nth_in_or_default i (sort_by num_lt v) f_nan) as [Hin | ->];
      [|reflexivity].
    apply (Permutation_in _ (sort_by_perm num_lt v)) in Hin.
    rewrite Forall_forall in Hv. now apply Hv. }
  destruct (Nat.odd (length v)); [apply Hs|].
  apply halve_not_negative, add_not_negative; apply Hs.
Qed.

End MedianFacts.

(** X11: the wire diameter is never negative: it is NaN or a value
    that is not below zero (the median of norms).  With fewer than two
    centerline points there is no consecutive distance, and it is
    NaN. *)
Theorem X11_wire_diameter_not_negative :
  forall center_points : list (vec3 B64.float),
    B64.ltb (wire_diameter_of center_points) (B64.of_Z 0) = false
    /\ (length center_points <= 1 -> wire_diameter_of center_points = S754_nan).
Proof.
  intros pts. split.
  - apply SignFacts.not_negative_ltb. unfold wire_diameter_of.
    apply median_not_negative, Forall_map, Forall_forall.
    intros d _. apply SignFacts.sqrt_not_negative.
  - intros Hl. destruct pts as [|p [|q pts]]; [reflexivity | reflexivity | simpl in Hl; lia].
Qed.

Lemma X11_wire_diameter_not_negative_witness :
  wire_diameter_of [Toy.point 7] = S754_nan
  /\ B64.ltb (wire_diameter_of [Toy.point 0; Toy.point 1; Toy.point 3]) (B64.of_Z 0)
     = false.
Proof.
  split.
  - apply (X11_wire_diameter_not_negative [Toy.point 7]). simpl. lia.
  - apply (X11_wire_diameter_not_negative [Toy.point 0; Toy.point 1; Toy.point 3]).
Defined.

(* ------------------------------------------------------------------ *)
(** ** The sign of the tolerance *)

Module OppFacts.
Import B64.

Lemma opp_involutive (x : float) : opp (opp x) = x.
Proof. destruct x as [s|s| |s m e]; cbn; now rewrite ?negb_involutive. Qed.

Lemma div_opp_l (x y : float) : div (opp x) y = opp (div x y).
Proof.
  destruct x as [sx|sx| |sx mx ex], y as [sy|sy| |sy my ey]; cbn;
    try reflexivity; try (now rewrite <- negb_xorb_l).
  unfold div, SFdiv; cbn.
  destruct (SFdiv_core_binary prec emax (Z.pos mx) ex (Z.pos my) ey) as [[mz ez] lz].
  rewrite <- negb_xorb_l. apply DegeneratePairs.round_aux_opp.
Qed.

Lemma abs_opp (x : float) : abs (opp x) = abs x.
Proof. now destruct x. Qed.

End OppFacts.

(** X12: the sign of [max_error] does not matter.  Negating the
    tolerance negates [normalized_error] exactly, and SciPy is handed
    [normalized_error ** 2], which libm computes from the absolute
    value: the fit, the smoothed curve and the number of curves are
    the same for [-max_error] as for [max_error]. *)
Theorem X12_sign_of_max_error_is_irrelevant :
  forall (libm_pow2 : B64.float -> B64.float) (tck : Type)
         (parcur : list (vec3 B64.float) -> B64.float -> nat -> result tck)
         (splev_at : tck -> B64.float -> vec3 B64.float)
         (points : list (vec3 B64.float)) (max_error wire_diameter : B64.float),
    fit_bezier_spline libm_pow2 parcur splev_at points (B64.opp max_error) wire_diameter
    = fit_bezier_spline libm_pow2 parcur splev_at points max_error wire_diameter.
Proof.
  intros libm_pow2 tck parcur splev_at points e w. unfold fit_bezier_spline, pow2.
  change (@f_mul B64.float binary64) with B64.mul.
  change (@f_div B64.float binary64) with B64.div.
  change (@f_abs B64.float binary64) with B64.abs.
  now rewrite DegeneratePairs.mul_opp_l, OppFacts.div_opp_l, OppFacts.abs_opp.
Qed.

(* ------------------------------------------------------------------ *)
(** ** The smoothing and the emission together *)

Lemma curves_of_points (n : nat) :
  1 <= n ->
  Z.of_nat ((2 * n - 1) / 3) = ((Z.of_nat (n * 2) - 1) / 3)%Z.
Proof.
  intros Hn. rewrite (Nat2Z.inj_div (2 * n - 1) 3). f_equal. lia.
Qed.

(** X13: a failure of the fit is the failure of the two stages.
    Behind a fit that returned, the emission fails only when
    [svgwrite] refuses a size of the drawing (one that is infinite or
    NaN), with [TypeError]; otherwise the drawing is made, and the
    number of curves that is printed is the number of curve commands
    of the written path, which is at least two. *)
Theorem X13_printed_curves_are_written :
  forall (F : Type) (A : Arith F) (libm_pow2 : F -> F) (tck : Type)
         (parcur : list (vec3 F) -> F -> nat -> result tck)
         (splev_at : tck -> F -> vec3 F)
         (centerline : list (vec3 F)) (wire_diameter scale max_error : F),
    match fit_bezier_spline libm_pow2 parcur splev_at centerline max_error wire_diameter with
    | inl e =>
        smooth_and_emit libm_pow2 parcur splev_at centerline wire_diameter scale max_error
        = inl e
    | inr (smooth_centerline, num_bezier_curves) =>
        if sizes_accepted smooth_centerline scale then
          exists dwg,
            smooth_and_emit libm_pow2 parcur splev_at centerline wire_diameter scale
              max_error
            = inr (dwg, num_bezier_curves)
            /\ create_svg smooth_centerline scale = inr dwg
            /\ Z.of_nat (segment_count (path dwg)) = num_bezier_curves
            /\ 2 <= segment_count (path dwg)
        else
          create_svg smooth_centerline scale = inl (Raise TypeError)
          /\ smooth_and_emit libm_pow2 parcur splev_at centerline wire_diameter scale
               max_error
             = inl (Raise TypeError)
    end.
Proof.
  intros F A libm_pow2 tck parcur splev_at centerline w scale e.
  destruct (fit_bezier_spline libm_pow2 parcur splev_at centerline e w)
    as [x|[smooth k]] eqn:Ef.
  - unfold smooth_and_emit. now rewrite Ef.
  - pose proof (fit_length _ _ _ _ _ _ _ _ _ Ef) as Hl.
    pose proof (fit_returns_inv _ _ _ _ _ _ _ _ _ Ef) as (Hn & _ & Hk).
    pose proof (create_svg_cases smooth scale (f_of_Z 0, f_of_Z 0)) as Hc.
    unfold smooth_and_emit. rewrite Ef. cbn [bind].
    destruct (create_svg smooth scale) as [x|dwg].
    + destruct Hc as [-> ->].
      replace (length smooth =? 0) with false by (symmetry; apply Nat.eqb_neq; lia).
      split; reflexivity.
    + destruct Hc as [-> (mins & maxs & _ & _ & ->)].
      eexists. split; [reflexivity|]. split; [reflexivity|].
      cbn [path]. rewrite path_of_segments. unfold scaled_points_of.
      rewrite length_map, Hl, Hk. split; [apply curves_of_points; lia|].
      apply Nat.div_le_lower_bound; lia.
Qed.

(* ------------------------------------------------------------------ *)
(** ** The drawing is the projection on the first two axes *)

Section PlaneFacts.
Context {F : Type} `{Arith F}.

Lemma fold_vzip_plane (op : F -> F -> F) (rs : list (vec3 F)) :
  forall rs' r r',
    vx r = vx r' -> vy r = vy r' ->
    map vx rs = map vx rs' -> map vy rs = map vy rs' ->
    vx (fold_left (vzip op) rs r) = vx (fold_left (vzip op) rs' r')
    /\ vy (fold_left (vzip op) rs r) = vy (fold_left (vzip op) rs' r').
Proof.
  induction rs as [|p rs IH]; intros [|p' rs'] r r' Hx Hy Ex Ey;
    try discriminate; [now split|].
  cbn [map] in Ex, Ey. inversion Ex. inversion Ey.
  cbn [fold_left]. apply IH; try assumption; unfold vzip; cbn [vx vy]; congruence.
Qed.

Lemma reduce_rows_plane (op : F -> F -> F) (c c' : list (vec3 F)) :
  map vx c = map vx c' -> map vy c = map vy c' ->
  match reduce_rows op c, reduce_rows op c' with
  | inr m, inr m' => vx m = vx m' /\ vy m = vy m'
  | inl e, inl e' => e = e'
  | _, _ => False
  end.
Proof.
  destruct c as [|r rs], c' as [|r' rs']; try discriminate; [reflexivity|].
  cbn [map reduce_rows ok]. intros Ex Ey. inversion Ex. inversion Ey.
  now apply fold_vzip_plane.
Qed.

Lemma map_plane {B : Type} (g : F -> F -> B) (c : list (vec3 F)) :
  forall c',
    map vx c = map vx c' -> map vy c = map vy c' ->
    map (fun p => g (vx p) (vy p)) c = map (fun p => g (vx p) (vy p)) c'.
Proof.
  induction c as [|p c IH]; intros [|p' c'] Ex Ey; try discriminate; [reflexivity|].
  cbn [map] in *. inversion Ex. inversion Ey. replace (g (vx p) (vy p)) with (g (vx p') (vy p')) by congruence.
  f_equal. now apply IH.
Qed.

Lemma scale_points_plane (scale min_x min_y padding : F) (c c' : list (vec3 F)) :
  map vx c = map vx c' -> map vy c = map vy c' ->
  map (scale_point scale min_x min_y padding) c
  = map (scale_point scale min_x min_y padding) c'.
Proof.
  intros Ex Ey.
  exact (map_plane
           (fun x y => (f_add (f_mul scale (f_sub x min_x)) padding,
                        f_add (f_mul scale (f_sub y min_y)) padding))
           c c' Ex Ey).
Qed.

End PlaneFacts.

(** X14: the drawing depends on the first two coordinates of the
    points only: two curves with the same [x] and the same [y]
    columns give the same result, whatever their [z] columns hold. *)
Theorem X14_drawing_ignores_z :
  forall (F : Type) (A : Arith F) (centerline centerline' : list (vec3 F))
         (scale : F),
    map vx centerline = map vx centerline' ->
    map vy centerline = map vy centerline' ->
    create_svg centerline scale = create_svg centerline' scale.
Proof.
  intros F A c c' scale Ex Ey.
  pose proof (reduce_rows_plane np_minimum c c' Ex Ey) as Hmin.
  pose proof (reduce_rows_plane np_maximum c c' Ex Ey) as Hmax.
  unfold create_svg.
  destruct (reduce_rows np_minimum c) as [e|mins],
           (reduce_rows np_minimum c') as [e'|mins']; try contradiction;
    [now subst|].
  destruct (reduce_rows np_maximum c) as [e|maxs],
           (reduce_rows np_maximum c') as [e'|maxs']; try contradiction;
    [now subst|].
  destruct Hmin as [Hx Hy], Hmax as [Hx' Hy']. cbn [bind].
  rewrite Hx, Hy, Hx', Hy'.
  cbv zeta. now rewrite (scale_points_plane _ _ _ _ c c' Ex Ey).
Qed.

Lemma X14_drawing_ignores_z_witness :
  let pt (x z : Z) := V3 (B64.of_Z x) (B64.of_Z (x * x)) (B64.of_Z z) in
  create_svg [pt 0 0; pt 1 5; pt 2 (-3); pt 3 7]%Z (B64.of_Z 2)
  = create_svg [pt 0 1; pt 1 1; pt 2 1; pt 3 1]%Z (B64.of_Z 2).
Proof.
  intros pt.
  apply (@X14_drawing_ignores_z B64.float binary64); reflexivity.
Defined.

(* ------------------------------------------------------------------ *)
(** ** How many points the centerline can have *)

Lemma pairs_mono (m n : nat) : m <= n -> m * (m - 1) / 2 <= n * (n - 1) / 2.
Proof. intros Hmn. apply Nat.Div0.div_le_mono. nia. Qed.

Lemma search_bound {F : Type} `{Arith F} (cpu_count : nat)
    (facet_centroids facet_normals : list (vec3 F)) (max_distance : F)
    (results : list (list (vec3 F))) :
  search cpu_count facet_centroids facet_normals max_distance = inr results ->
  length (candidates results)
  <= length facet_centroids * (length facet_centroids - 1) / 2.
Proof.
  intros E. unfold search in E.
  destruct (make_chunks (length facet_centroids) cpu_count) as [e|chunks] eqn:Ech;
    [discriminate|].
  cbn [bind] in E. apply make_chunks_cover in Ech.
  apply pool_map_length in E. rewrite Ech in E.
  pose proof (pairs_of_all (length facet_centroids) 0) as Hsum. simpl in Hsum.
  apply Nat.div_le_lower_bound; lia.
Qed.

Lemma sample_facets_length {F : Type} (permutation : nat -> list nat)
    (face_normals triangles_center : list (vec3 F)) (sample_size : Z)
    (facet_normals facet_centroids : list (vec3 F)) :
  sample_facets permutation face_normals triangles_center sample_size
  = inr (facet_normals, facet_centroids) ->
  length facet_centroids <= length triangles_center.
Proof.
  unfold sample_facets, random_choice.
  destruct (sample_size <? Z.of_nat (length triangles_center))%Z eqn:Es.
  - apply Z.ltb_lt in Es.
    destruct (_ && _); [discriminate|].
    destruct (Z.of_nat (length triangles_center) <? sample_size)%Z; [discriminate|].
    destruct (sample_size <? 0)%Z; [discriminate|]. cbn [bind ok].
    destruct (map_result (getitem face_normals) _) as [e|fn]; [discriminate|].
    cbn [bind].
    destruct (map_result (getitem triangles_center) _) as [e|fc] eqn:Ec;
      [discriminate|].
    cbn [bind ok]. intros E. inversion E; subst.
    apply map_result_length in Ec. rewrite Ec, length_firstn. lia.
  - intros E. inversion E; subst. lia.
Qed.

Lemma vstack_rows_nonempty {F : Type} (results : list (list (vec3 F)))
    (pts : list (vec3 F)) :
  vstack results = inr (Rows pts) -> pts <> [].
Proof.
  unfold vstack. destruct results as [|r rs]; [discriminate|].
  destruct (forallb _ (r :: rs)); [discriminate|].
  destruct (existsb _ (r :: rs)) eqn:Ee; [discriminate|].
  intros E. inversion E; subst; clear E.
  cbn [existsb] in Ee. apply orb_false_iff in Ee as [Er _].
  destruct r; [discriminate|]. discriminate.
Qed.

Lemma unique_by_nonempty {A} (lt ne : A -> A -> bool) (a : list A) :
  a <> [] -> unique_by lt ne a <> [].
Proof.
  intros Ha. unfold unique_by.
  pose proof (Permutation_length (sort_by_perm lt a)) as Hl.
  destruct (sort_by lt a); [|discriminate].
  destruct a; [congruence | discriminate].
Qed.

(** A centerline made from the candidates comes from [m] facets, no
    more than the mesh has and no more than [sample_size] when the
    facets are sampled, and has between 1 and [m (m - 1) / 2] points. *)
Lemma centerline_from_facets {F : Type} `{Arith F}
    (permutation : nat -> list nat) (cpu_count : nat)
    (principal_axes : list (vec3 F) -> result (list (vec3 F)))
    (no_columns_tail : nat -> result (list (vec3 F) * F))
    (face_normals triangles_center : list (vec3 F))
    (max_distance : F) (sample_size : Z)
    (center_points : list (vec3 F)) (wire_diameter : F) :
  extract_centerline permutation cpu_count principal_axes no_columns_tail
    face_normals triangles_center max_distance sample_size
  = inr (center_points, wire_diameter) ->
  (exists k, no_columns_tail k = inr (center_points, wire_diameter))
  \/ (exists m,
        m <= length triangles_center
        /\ ((sample_size < Z.of_nat (length triangles_center))%Z ->
            (Z.of_nat m <= sample_size)%Z)
        /\ 1 <= length center_points <= m * (m - 1) / 2).
Proof.
  rename face_normals into ns, triangles_center into cs, center_points into pts.
  rename sample_size into ss.
  intros E. unfold extract_centerline in E.
  destruct (sample_facets permutation ns cs ss) as [e|[fn fc]] eqn:Es; [discriminate|].
  cbn [bind] in E.
  destruct (search cpu_count fc fn max_distance) as [e|results] eqn:Er; [discriminate|].
  cbn [bind] in E.
  destruct (vstack results) as [e|[rows|k]] eqn:Ev; [discriminate| |].
  2:{ left. now exists k. }
  right. cbn [bind] in E. unfold order_and_measure in E.
  destruct (order_points principal_axes (dedup rows)) as [e|ordered] eqn:Eo;
    [discriminate|].
  cbn [bind ok] in E. inversion E; subst; clear E.
  pose proof (Permutation_length (order_points_perm _ _ _ Eo)) as Hl.
  pose proof (vstack_rows_nonempty _ _ Ev) as Hne.
  pose proof (vstack_candidates _ _ Ev) as Hc. cbn in Hc.
  pose proof (search_bound _ _ _ _ _ Er) as Hb. rewrite <- Hc in Hb.
  assert (Hd : 1 <= length (dedup rows) <= length rows).
  { unfold dedup, unique_rows. split.
    - assert (Hu : unique_by row_lt row_ne (map (vmap round5) rows) <> []).
      { apply unique_by_nonempty. destruct rows; [congruence | discriminate]. }
      destruct (unique_by _ _ _); [congruence | simpl; lia].
    - etransitivity; [apply unique_by_length|]. now rewrite length_map. }
  exists (length fc). split; [eapply sample_facets_length, Es|]. split; [|lia].
  intros Hss. unfold sample_facets, random_choice in Es.
  replace (ss <? Z.of_nat (length cs))%Z with true in Es
    by (symmetry; apply Z.ltb_lt; exact Hss).
  destruct (_ && _); [discriminate|].
  destruct (Z.of_nat (length cs) <? ss)%Z; [discriminate|].
  destruct (ss <? 0)%Z eqn:Eneg; [discriminate|]. cbn [bind ok] in Es.
  apply Z.ltb_ge in Eneg.
  destruct (map_result (getitem ns) _) as [e|fn']; [discriminate|].
  cbn [bind] in Es.
  destruct (map_result (getitem cs) _) as [e|fc'] eqn:Ec; [discriminate|].
  cbn [bind ok] in Es. inversion Es; subst.
  apply map_result_length in Ec. rewrite Ec, length_firstn. lia.
Qed.

Lemma pairs_in_Z (len m : nat) (s : Z) :
  len <= m * (m - 1) / 2 -> (Z.of_nat m <= s)%Z ->
  (Z.of_nat len <= s * (s - 1) / 2)%Z.
Proof.
  intros Hlen Hm.
  assert (H2 : 2 * len <= m * (m - 1)).
  { pose proof (Nat.Div0.mul_div_le (m * (m - 1)) 2). lia. }
  apply Z.div_le_lower_bound; [lia|].
  destruct m as [|m']; [simpl in H2; nia|].
  replace (S m' - 1) with m' in H2 by lia. nia.
Qed.

(** X15: a centerline that comes out of the candidates found among [n]
    facets has at least one point and at most [n (n - 1) / 2], one for
    each pair of facets; when the facets are sampled, at most
    [sample_size (sample_size - 1) / 2].  (The one other way for
    [extract_centerline] to return is the stacked array without
    columns, which is left to NumPy and trimesh.) *)
Theorem X15_centerline_size :
  forall (F : Type) (A : Arith F) (permutation : nat -> list nat)
         (cpu_count : nat)
         (principal_axes : list (vec3 F) -> result (list (vec3 F)))
         (no_columns_tail : nat -> result (list (vec3 F) * F))
         (face_normals triangles_center : list (vec3 F))
         (max_distance : F) (sample_size : Z)
         (center_points : list (vec3 F)) (wire_diameter : F),
    let n := length triangles_center in
    extract_centerline permutation cpu_count principal_axes no_columns_tail
      face_normals triangles_center max_distance sample_size
    = inr (center_points, wire_diameter) ->
    (exists k, no_columns_tail k = inr (center_points, wire_diameter))
    \/ (1 <= length center_points <= n * (n - 1) / 2
        /\ (sample_size < Z.of_nat n ->
            Z.of_nat (length center_points)
            <= sample_size * (sample_size - 1) / 2)%Z).
Proof.
  intros F A permutation cpu pa tail ns cs md ss pts w n E.
  destruct (centerline_from_facets _ _ _ _ _ _ _ _ _ _ E)
    as [Hk | (m & Hm & Hs & Hlen)]; [now left | right].
  split.
  - split; [lia|]. etransitivity; [apply Hlen | now apply pairs_mono].
  - intros Hss. apply (pairs_in_Z _ m); [apply Hlen | now apply Hs].
Qed.

Lemma X15_centerline_size_witness :
  let cs := [V3 (B64.of_Z 0) (B64.of_Z 0) (B64.of_Z 0);
             V3 (B64.of_Z 1) (B64.of_Z 0) (B64.of_Z 0);
             V3 (B64.of_Z 0) (B64.of_Z 1) (B64.of_Z 0)] in
  let ns := [V3 (B64.of_Z 1) (B64.of_Z 1) (B64.of_Z 0);
             V3 (B64.of_Z (-1)) (B64.of_Z 1) (B64.of_Z 0);
             V3 (B64.of_Z 1) (B64.of_Z (-1)) (B64.of_Z 0)] in
  exists center_points wire_diameter,
    extract_centerline identity_draw 1 (fun pts => ok pts)
      (fun _ => raise ValueError) ns cs (B64.of_Z 1) 2
    = inr (center_points, wire_diameter)
    /\ 1 <= length center_points <= 3
    /\ (Z.of_nat (length center_points) <= 1)%Z.
Proof.
  intros cs ns.
  destruct (extract_centerline identity_draw 1 (fun pts => ok pts)
              (fun _ => raise ValueError) ns cs (B64.of_Z 1) 2)
    as [e|[center_points wire_diameter]] eqn:E; [vm_compute in E; discriminate E|].
  exists center_points, wire_diameter. split; [reflexivity|].
  destruct (X15_centerline_size B64.float binary64 identity_draw 1
              (fun pts => ok pts) (fun _ => raise ValueError) ns cs
              (B64.of_Z 1) 2%Z center_points wire_diameter E)
    as [[k Hk] | [Hn Hs]]; [discriminate Hk|].
  split; [exact Hn|]. apply Hs. simpl. lia.
Defined.

(* ------------------------------------------------------------------ *)
(** ** The whole conversion needs four points *)

(** X16: no drawing is made from three facets or fewer, whether the
    mesh has no more or [sample_size] leaves no more: three facets
    make at most three pairs, so the centerline has at most three
    points and SciPy refuses to fit a cubic spline through them.  The
    call raises; nothing is written or printed.  (The array without
    columns is assumed not to yield four points.) *)
Theorem X16_three_facets_are_not_enough :
  forall (F : Type) (A : Arith F) (permutation : nat -> list nat)
         (cpu_count : nat)
         (principal_axes : list (vec3 F) -> result (list (vec3 F)))
         (no_columns_tail : nat -> result (list (vec3 F) * F))
         (libm_pow2 : F -> F)
         (tck : Type) (parcur : list (vec3 F) -> F -> nat -> result tck)
         (splev_at : tck -> F -> vec3 F)
         (m : mesh F) (scale max_error : F) (sample_size : Z),
    (forall k pts w, no_columns_tail k = inr (pts, w) -> length pts < 4) ->
    length (triangles_center m) <= 3 \/ (sample_size <= 3)%Z ->
    exists e,
      stl_to_svg_wire permutation cpu_count principal_axes no_columns_tail
        libm_pow2 parcur splev_at m scale max_error sample_size
      = inl e.
Proof.
  intros F A permutation cpu pa tail libm_pow2 tck parcur splev_at m scale err ss
    Htail Hfew.
  unfold stl_to_svg_wire.
  destruct (extract_centerline _ _ _ _ _ _ _ _) as [e|[pts w]] eqn:E;
    [now exists e|].
  cbn [bind].
  assert (Hpts : length pts < 4).
  { destruct (centerline_from_facets _ _ _ _ _ _ _ _ _ _ E)
      as [[k Hk] | (n & Hn & Hs & Hlen)]; [now apply (Htail k pts w)|].
    assert (Hn3 : n <= 3).
    { destruct Hfew as [Hm | Hss]; [lia|].
      destruct (Z.ltb_spec ss (Z.of_nat (length (triangles_center m))));
        [specialize (Hs ltac:(assumption)) |]; lia. }
    assert (n * (n - 1) / 2 <= 3 * (3 - 1) / 2) by now apply pairs_mono.
    simpl in *. lia. }
  rewrite (fit_few_points _ _ _ _ _ _ _ Hpts). now eexists.
Qed.

Lemma X16_three_facets_are_not_enough_witness :
  let m := Mesh
             [V3 (B64.of_Z 1) (B64.of_Z 1) (B64.of_Z 0);
              V3 (B64.of_Z (-1)) (B64.of_Z 1) (B64.of_Z 0);
              V3 (B64.of_Z 1) (B64.of_Z (-1)) (B64.of_Z 0)]
             [V3 (B64.of_Z 0) (B64.of_Z 0) (B64.of_Z 0);
              V3 (B64.of_Z 1) (B64.of_Z 0) (B64.of_Z 0);
              V3 (B64.of_Z 0) (B64.of_Z 1) (B64.of_Z 0)]
             (V3 (B64.of_Z 100) (B64.of_Z 100) (B64.of_Z 0)) in
  exists e,
    stl_to_svg_wire identity_draw 1 (fun pts => ok pts)
      (fun _ => raise ValueError) Toy.libm_pow2 Toy.parcur Toy.splev_at m
      (B64.of_Z 1) (B64.of_Z 5) 1000
    = inl e.
Proof.
  intros m.
  apply (X16_three_facets_are_not_enough B64.float binary64 identity_draw 1
           (fun pts => ok pts) (fun _ => raise ValueError) Toy.libm_pow2 _ Toy.parcur
           Toy.splev_at m (B64.of_Z 1) (B64.of_Z 5) 1000%Z).
  - intros k pts w E. discriminate E.
  - left. simpl. lia.
Defined.
